(** * Surface quadrangulation (ttk::SurfaceQuadrangulation)

    A shallow embedding of
    [core/base/surfaceQuadrangulation/SurfaceQuadrangulation.cpp]
    and the properties of its manifold oracle, its two quadrangulation
    builders, its separatrix-middle cache and its main routine; and of the
    inline setters of [core/vtk/ttkCellDataSelector/ttkCellDataSelector.h].

    Conventions of the embedding.
    - [SimplexId], [size_t], [long long] values are integers of [Z]; the
      places where the width matters (counters, [int nseg]) wrap explicitly.
    - The data members that the class holds as raw pointers
      ([criticalPointsCellIds_], [segmentation_], ...) are functions from
      the index to the value read there: the language does not check such a
      read, it yields whatever the memory holds.
    - [std::set<SimplexId>] is a strictly ascending list, [std::map] an
      association list in ascending key order, [std::vector] a list.
    - [None] stands for a run that does not return normally: a write
      outside a vector, an [at()] outside a vector, a vector created with a
      negative size or with more entries than its [max_size()].
    - The one read outside a vector that the code makes, one past the end
      of [sepFlatEdgesPos], yields a value that the language does not fix:
      each call of [findSeparatrixMiddle] is given the value it reads
      there, and a run is given one such value for each call it makes. *)

From Equations Require Import Equations.
From Equations.Prop Require Import Logic.
From Stdlib Require Import List ZArith Lia Bool Arith Permutation Sorted.
From Stdlib Require String.
Import ListNotations.

Local Open Scope Z_scope.

(** ** Integer widths *)

(** [size_t] arithmetic: values live in [0, 2^64). *)
Definition wrap64 (z : Z) : Z := z mod 2 ^ 64.

(** [int] arithmetic, two's complement on 32 bits. *)
Definition wrapInt (z : Z) : Z := (z + 2 ^ 31) mod 2 ^ 32 - 2 ^ 31.

(** ** Loops and vectors *)

(** A loop over [l] whose body may fail to return. *)
Fixpoint forEach {A S : Type} (l : list A) (body : A -> S -> option S) (s : S)
  : option S :=
  match l with
  | [] => Some s
  | a :: l' =>
      match body a s with
      | Some s' => forEach l' body s'
      | None => None
      end
  end.

(** The entries of a list with the number of their turn in a loop over
    it. *)
Definition numbered {A : Type} (l : list A) : list (nat * A) :=
  combine (seq 0 (length l)) l.

(** [v[n] = f(v[n])] on a [std::vector]; a write outside the vector does not
    give a defined run. *)
Fixpoint modifyAt {A : Type} (n : nat) (f : A -> A) (v : list A) {struct v}
  : option (list A) :=
  match v, n with
  | [], _ => None
  | x :: v', O => Some (f x :: v')
  | x :: v', S n' => option_map (cons x) (modifyAt n' f v')
  end.

(** The same with the index as the source has it, an integer. *)
Definition modifyAtZ {A : Type} (i : Z) (f : A -> A) (v : list A)
  : option (list A) :=
  if i <? 0 then None else modifyAt (Z.to_nat i) f v.

(** [v.at(n)]: throws outside the vector. *)
Definition at_ {A : Type} (v : list A) (n : nat) : option A := nth_error v n.

(** The pairs [(l[m], l[n])] with [m < n], in the order of the two nested
    loops over [m] and [n]. *)
Fixpoint pairsOf {A : Type} (l : list A) : list (A * A) :=
  match l with
  | [] => []
  | x :: l' => map (pair x) l' ++ pairsOf l'
  end.

(** ** Ordered sets of identifiers: [std::set<SimplexId>] *)

Module IdSet.

Definition t := list Z.

Definition empty : t := [].

(** [std::set::insert]: keeps the ascending order, ignores a value that is
    already there. *)
Fixpoint insert (x : Z) (s : t) : t :=
  match s with
  | [] => [x]
  | y :: s' =>
      if x <? y then x :: s
      else if x =? y then s
      else y :: insert x s'
  end.

(** [s.find(x) != s.end()] *)
Definition mem (x : Z) (s : t) : bool := existsb (Z.eqb x) s.

(** [s.size()] *)
Definition size (s : t) : nat := length s.

(** [s.empty()] *)
Definition is_empty (s : t) : bool :=
  match s with [] => true | _ :: _ => false end.

(** [std::set_intersection] of two ascending ranges: the elements of the
    first range that also occur in the second, in ascending order. *)
Definition inter (a b : t) : t := filter (fun x => mem x b) a.

Lemma mem_In x s : mem x s = true <-> In x s.
Proof.
  unfold mem. rewrite existsb_exists. split.
  - intros [y [Hy E]]. apply Z.eqb_eq in E. now subst.
  - intros H. exists x. split; [assumption | apply Z.eqb_refl].
Qed.

Lemma In_insert x y s : In y (insert x s) <-> y = x \/ In y s.
Proof.
  induction s as [|z s IH]; simpl.
  - intuition.
  - destruct (x <? z) eqn:E1; simpl; [intuition|].
    destruct (x =? z) eqn:E2; simpl.
    + apply Z.eqb_eq in E2. subst. intuition.
    + rewrite IH. intuition.
Qed.

Lemma insert_size_le x s : (size s <= size (insert x s) <= S (size s))%nat.
Proof.
  unfold size. induction s as [|z s IH]; simpl; [lia|].
  destruct (x <? z); simpl; [lia|].
  destruct (x =? z); simpl; lia.
Qed.

Lemma insert_size_new x s : ~ In x s -> size (insert x s) = S (size s).
Proof.
  unfold size. induction s as [|z s IH]; simpl; intros H; [reflexivity|].
  destruct (x <? z); simpl; [reflexivity|].
  destruct (x =? z) eqn:E; simpl.
  - apply Z.eqb_eq in E. subst. tauto.
  - rewrite IH; tauto.
Qed.

(** The lists that stand for sets: strictly ascending. *)
Definition ascending (s : t) : Prop := StronglySorted Z.lt s.

Lemma insert_ascending x s : ascending s -> ascending (insert x s).
Proof.
  unfold ascending. induction s as [|y s IH]; simpl; intros H.
  - repeat constructor.
  - inversion H as [|? ? Hs Hy]; subst.
    destruct (Z.ltb_spec x y).
    + constructor; [assumption|]. constructor; [assumption|].
      eapply Forall_impl; [|exact Hy]. simpl. intros. lia.
    + destruct (Z.eqb_spec x y); [assumption|].
      constructor; [auto|]. apply Forall_forall. intros z Hz.
      apply In_insert in Hz. destruct Hz as [->|Hz]; [lia|].
      rewrite Forall_forall in Hy. now apply Hy.
Qed.

Lemma ascending_NoDup s : ascending s -> NoDup s.
Proof.
  unfold ascending. induction 1 as [|y s Hs IH Hy]; constructor; [|assumption].
  intros Hin. rewrite Forall_forall in Hy. specialize (Hy y Hin). lia.
Qed.

Lemma inter_ascending a b : ascending a -> ascending (inter a b).
Proof.
  unfold ascending, inter. induction 1 as [|y s Hs IH Hy]; simpl.
  - constructor.
  - destruct (mem y b); [|assumption].
    constructor; [assumption|]. apply Forall_forall. intros z Hz.
    apply filter_In in Hz. rewrite Forall_forall in Hy. now apply Hy.
Qed.

Lemma In_inter x a b : In x (inter a b) <-> In x a /\ In x b.
Proof. unfold inter. rewrite filter_In, mem_In. reflexivity. Qed.

Lemma is_empty_false s : is_empty s = false <-> exists x, In x s.
Proof.
  destruct s as [|y s]; simpl; split; try discriminate.
  - intros [x []].
  - intros _. exists y. now left.
  - reflexivity.
Qed.

End IdSet.

(** ** The data members of the class *)

Section Members.

(** The type of the coordinates ([float]). *)
Variable F : Type.

Record SurfaceQuadrangulation := {
  (* critical points *)
  criticalPointsNumber_ : Z;
  criticalPointsCellIds_ : Z -> Z;
  criticalPointsIdentifier_ : Z -> Z;
  criticalPointsType_ : Z -> Z;
  (* separatrices *)
  separatriceNumber_ : Z;
  sepCellIds_ : Z -> Z;
  sepMask_ : Z -> Z;
  sepPoints_ : Z -> F;
  (* segmentation *)
  segmentationNumber_ : Z;
  segmentation_ : Z -> Z;
  (* triangulation_->getVertexNeighborNumber(v) *)
  getVertexNeighborNumber : Z -> Z;
  (* triangulation_->getVertexNeighbor(v, j, next): the value left in
     [next] *)
  getVertexNeighbor : Z -> Z -> Z;
  (* mode flag *)
  dualQuadrangulation_ : bool
}.

End Members.

Arguments criticalPointsNumber_ {F} _.
Arguments criticalPointsCellIds_ {F} _ _.
Arguments criticalPointsIdentifier_ {F} _ _.
Arguments criticalPointsType_ {F} _ _.
Arguments separatriceNumber_ {F} _.
Arguments sepCellIds_ {F} _ _.
Arguments sepMask_ {F} _ _.
Arguments sepPoints_ {F} _ _.
Arguments segmentationNumber_ {F} _.
Arguments segmentation_ {F} _ _.
Arguments getVertexNeighborNumber {F} _ _.
Arguments getVertexNeighbor {F} _ _ _.
Arguments dualQuadrangulation_ {F} _.

(** [for(SimplexId j = 0; j < n; ++j)]: the values taken by [j]. *)
Definition range (n : Z) : list Z := map Z.of_nat (seq 0 (Z.to_nat n)).

(** * The manifold oracle *)

Section Oracle.

Context {F : Type}.
Variable this : SurfaceQuadrangulation F.

(** ** hasCommonManifold: the traversal around one point (lines 21-45) *)

Record Traversal := {
  neighborsToProcess : list Z;       (* std::queue *)
  processedNeighbors : IdSet.t;      (* std::set *)
  manifolds : IdSet.t                (* common_manifolds[i] *)
}.

(** One turn of the [while] loop, up to the test of the cap, for the
    front [curr] of the queue and the rest [rest] of it. [v] is
    [vertsId[i]], the vertex the traversal started from: the neighbor
    count is taken from it at every turn. *)
Definition visit (v curr : Z) (rest : list Z) (t : Traversal) : Traversal :=
  let processed := IdSet.insert curr (processedNeighbors t) in
  let nneigh := getVertexNeighborNumber this v in
  let pushed :=
    filter (fun next => negb (IdSet.mem next processed))
           (map (getVertexNeighbor this curr) (range nneigh)) in
  {| neighborsToProcess := rest ++ pushed;
     processedNeighbors := processed;
     manifolds := IdSet.insert (segmentation_ this curr) (manifolds t) |}.

(** [if(processedNeighbors.size() > 20) break;] *)
Definition capReached (t : Traversal) : bool :=
  (20 <? IdSet.size (processedNeighbors t))%nat.

(** The number of entries of the queue that are already processed. *)
Definition staleEntries (t : Traversal) : nat :=
  length (filter (fun x => IdSet.mem x (processedNeighbors t))
                 (neighborsToProcess t)).

(** Termination measure of the loop: the room left under the cap, then the
    number of stale entries of the queue. *)
Definition traversalMeasure (t : Traversal) : nat * nat :=
  (21 - IdSet.size (processedNeighbors t), staleEntries t)%nat.

Lemma stale_ext (P P' : IdSet.t) (q : list Z) :
  (forall x, In x P' <-> In x P) ->
  filter (fun x => IdSet.mem x P') q = filter (fun x => IdSet.mem x P) q.
Proof.
  intros H. apply filter_ext. intros x.
  destruct (IdSet.mem x P) eqn:E.
  - apply IdSet.mem_In. apply H. now apply IdSet.mem_In.
  - destruct (IdSet.mem x P') eqn:E'; [|reflexivity].
    apply IdSet.mem_In, H, IdSet.mem_In in E'. congruence.
Qed.

Lemma pushed_fresh (P : IdSet.t) (l : list Z) :
  filter (fun x => IdSet.mem x P)
         (filter (fun next => negb (IdSet.mem next P)) l) = [].
Proof.
  induction l as [|x l IH]; simpl; [reflexivity|].
  destruct (IdSet.mem x P) eqn:E; simpl; [assumption|].
  rewrite E. assumption.
Qed.

(** Every turn that does not reach the cap decreases the measure. *)
Lemma visit_decreases v curr rest t :
  neighborsToProcess t = curr :: rest ->
  capReached (visit v curr rest t) = false ->
  Subterm.lexprod nat nat lt lt
                  (traversalMeasure (visit v curr rest t))
                  (traversalMeasure t).
Proof.
  intros Hq Hc. unfold capReached in Hc. apply Nat.ltb_ge in Hc.
  unfold traversalMeasure, staleEntries, visit in *.
  cbn [processedNeighbors neighborsToProcess] in *.
  pose proof (IdSet.insert_size_le curr (processedNeighbors t)) as Hle.
  destruct (Nat.eq_dec (IdSet.size (IdSet.insert curr (processedNeighbors t)))
                       (IdSet.size (processedNeighbors t))) as [Heq|Hne].
  - rewrite Heq. apply Subterm.right_lex.
    assert (Hin : In curr (processedNeighbors t)).
    { destruct (IdSet.mem curr (processedNeighbors t)) eqn:E.
      - now apply IdSet.mem_In.
      - exfalso. rewrite IdSet.insert_size_new in Heq; [lia|].
        intros H. apply IdSet.mem_In in H. congruence. }
    rewrite Hq, filter_app, pushed_fresh, app_nil_r.
    rewrite (stale_ext (processedNeighbors t)).
    + simpl. apply IdSet.mem_In in Hin. rewrite Hin. simpl.
      apply Nat.lt_succ_diag_r.
    + intros x. rewrite IdSet.In_insert. intuition (subst; assumption).
  - apply Subterm.left_lex. lia.
Qed.

(** The order of the measure is well founded; the proof is built so that
    closed calls of the loop evaluate. *)
#[local] Instance traversalOrder_wf :
  WellFounded (Subterm.lexprod nat nat lt lt) :=
  Acc_intro_generator 12
    (Subterm.wf_lexprod nat nat lt lt Nat.lt_wf_0 Nat.lt_wf_0).

(** The [while(!neighborsToProcess.empty())] loop. *)
Equations? traverse (v : Z) (t : Traversal) : Traversal
  by wf (traversalMeasure t) (Subterm.lexprod nat nat lt lt) :=
  traverse v t with inspect (neighborsToProcess t) := {
    | exist _ [] _ => t
    | exist _ (curr :: rest) Hq
        with inspect (capReached (visit v curr rest t)) := {
        | exist _ true _ => visit v curr rest t
        | exist _ false Hc => traverse v (visit v curr rest t) } }.
Proof. apply visit_decreases; assumption. Qed.

(** The state in which the traversal around the vertex [v] starts:
    [neighborsToProcess.push(vertsId[i])]. *)
Definition startTraversal (v : Z) : Traversal :=
  {| neighborsToProcess := [v];
     processedNeighbors := IdSet.empty;
     manifolds := IdSet.empty |}.

(** ** hasCommonManifold (lines 7-74) *)

(** The labels met by the traversal around the critical point [a]:
    [common_manifolds[i]] for [verts[i] = a]. *)
Definition manifoldsAround (a : Z) : IdSet.t :=
  let v := criticalPointsIdentifier_ this a in
  manifolds (traverse v (startTraversal v)).

(** The fold of pairwise intersections (lines 48-57). The source reads
    [common_manifolds[0]] without a test: on an empty input, which no
    caller gives it (line 202 builds the two points [j] and [l]), that read
    is outside the vector and the run is not defined. The embedding answers
    the empty set there, and what is proved of [hasCommonManifold] is
    stated of inputs with a point. *)
Definition intersectAll (sets : list IdSet.t) : IdSet.t :=
  match sets with
  | [] => IdSet.empty
  | first :: others => fold_left IdSet.inter others first
  end.

Definition hasCommonManifold (verts : list Z) : bool :=
  negb (IdSet.is_empty (intersectAll (map manifoldsAround verts))).

End Oracle.

(** * The builders and the main routine *)

Section Quadrangulation.

Context {F : Type}.

(** [0.0f], [+], [ttk::Geometry::distance] on two points,
    [std::abs(el - distAB / 2.0)] and [<] on [float]; the arithmetic of
    [float] is kept abstract. *)
Variable fzero : F.
Variable fadd : F -> F -> F.
Variable distance : F * F * F -> F * F * F -> F.
Variable absHalfDiff : F -> F -> F.
Variable fltb : F -> F -> bool.

(** The largest number of entries with which a [std::vector<float>] can be
    created, its [max_size()]: a larger request throws
    [std::length_error]. *)
Variable max_size : Z.

(** What the read of [sepFlatEdgesPos[i + 1]] yields once [i + 1] is the
    size of the vector (line 310, last turn of the loop), in the call of
    [findSeparatrixMiddle] at hand. The language does not fix that value:
    two calls may read two values. *)
Variable pastTheEnd : Z * Z.

Variable this : SurfaceQuadrangulation F.

(** ** dualQuadrangulate (lines 76-133) *)

(** The linear search of lines 87-91 and 93-97: the first index below
    [criticalPointsNumber_] whose cell identifier is [c], and the value
    the loop variable is left with when there is none. *)
Fixpoint scanCellIds (c : Z) (turns : nat) (i : Z) : Z :=
  match turns with
  | O => i
  | S turns' =>
      if c =? criticalPointsCellIds_ this i then i
      else scanCellIds c turns' (i + 1)
  end.

Definition criticalPointOfCell (c : Z) : Z :=
  scanCellIds c (Z.to_nat (criticalPointsNumber_ this)) 0.

(** The two ends of an edge, as critical points (lines 86-97). *)
Definition sourceOf (p : Z * Z) : Z := criticalPointOfCell (fst p).
Definition destOf (p : Z * Z) : Z := criticalPointOfCell (snd p).

(** [sourceDests[i].emplace_back(j)] on the [std::map], kept in ascending
    key order. *)
Fixpoint addDest (i j : Z) (m : list (Z * list Z)) : list (Z * list Z) :=
  match m with
  | [] => [(i, [j])]
  | (i', v) :: m' =>
      if i <? i' then (i, [j]) :: m
      else if i =? i' then (i', v ++ [j]) :: m'
      else (i', v) :: addDest i j m'
  end.

(** Lines 85-101. *)
Definition sourceDests (sepEdges : list (Z * Z)) : list (Z * list Z) :=
  fold_left
    (fun m p => addDest (sourceOf p) (destOf p) m) sepEdges [].

(** The body of the loop of lines 103-130: what one entry of the map
    appends to the output cell buffer. *)
Definition dualCells (elt : Z * list Z) : list Z :=
  match snd elt with
  | [e0; e1; e2; e3] =>
      let ty := criticalPointsType_ this in
      let i := e0 in
      if ty e1 =? ty i then [4; i; e2; e1; e3]
      else if ty e2 =? ty i then [4; i; e1; e2; e3]
      else if ty e3 =? ty i then [4; i; e2; e3; e1]
      else [4; i; i; i; i]
  | _ => []
  end.

Definition dualQuadrangulate (sepEdges : list (Z * Z)) (outputCells : list Z)
  : list Z :=
  fold_left (fun cells elt => cells ++ dualCells elt)
            (sourceDests sepEdges) outputCells.

(** ** quadrangulate: separatrices by destination (lines 140-159) *)

(** [sepMappingDests[j].insert(i); pointSepNumber[j]++;
    pointSepNumber[i]++;] with [size_t] counters. *)
Definition recordSeparatrix (i j : Z) (st : list IdSet.t * list Z)
  : option (list IdSet.t * list Z) :=
  let incr := fun n => wrap64 (n + 1) in
  match modifyAtZ j (IdSet.insert i) (fst st) with
  | None => None
  | Some dests =>
      match modifyAtZ j incr (snd st) with
      | None => None
      | Some counts =>
          match modifyAtZ i incr counts with
          | None => None
          | Some counts' => Some (dests, counts')
          end
      end
  end.

(** The loops of lines 146-159 over the edges and, for each end of an
    edge, over the critical points with its cell identifier. The two
    vectors are created with [sepEdges.size()] and
    [criticalPointsNumber_] entries. *)
Definition mapSeparatrices (sepEdges : list (Z * Z))
  : option (list IdSet.t * list Z) :=
  let n := criticalPointsNumber_ this in
  let cell := criticalPointsCellIds_ this in
  if n <? 0 then None
  else
    forEach sepEdges
      (fun p =>
         forEach (range n)
           (fun i st =>
              if fst p =? cell i then
                forEach (range n)
                  (fun j st' =>
                     if snd p =? cell j then recordSeparatrix i j st'
                     else Some st')
                  st
              else Some st))
      (repeat IdSet.empty (length sepEdges), repeat 0 (Z.to_nat n)).

(** ** quadrangulate: the quads (lines 161-231) *)

(** The output cell buffer and the counter of degenerate quads. *)
Definition Emission : Type := list Z * Z.

(** Lines 181-229, for two destinations [i] and [k] with their sets of
    sources. *)
Definition emitPair (i : Z) (Si : IdSet.t) (k : Z) (Sk : IdSet.t)
           (e : Emission) : Emission :=
  let common_dests := IdSet.inter Si Sk in
  if (2 <=? length common_dests)%nat then
    fold_left
      (fun e' jl =>
         let '(j, l) := jl in
         if hasCommonManifold this [j; l]
         then (fst e' ++ [4; i; j; k; l], snd e')
         else e')
      (pairsOf common_dests) e
  else if ((length common_dests =? 1)%nat
           && ((IdSet.size Si =? 1)%nat || (IdSet.size Sk =? 1)%nat))%bool
  then
    let j := hd 0 common_dests in
    (fst e ++ [4; i; j; k; j], wrap64 (snd e + 1))
  else e.

(** The inner loop of line 169 over the destinations [k] after [i]. *)
Definition emitFrom (i : Z) (Si : IdSet.t) (later : list (Z * IdSet.t))
           (e : Emission) : Emission :=
  fold_left
    (fun e' kS =>
       let '(k, Sk) := kS in
       if IdSet.is_empty Sk then e'
       else if criticalPointsType_ this k =? criticalPointsType_ this i
            then e'
            else emitPair i Si k Sk e')
    later e.

(** The outer loop of line 162 over the destinations, each with its
    index. *)
Fixpoint emitQuads (dests : list (Z * IdSet.t)) (e : Emission) : Emission :=
  match dests with
  | [] => e
  | (i, Si) :: later =>
      emitQuads later
        (if IdSet.is_empty Si then e else emitFrom i Si later e)
  end.

(** A vector with the index of each entry. *)
Definition indexed {A : Type} (v : list A) : list (Z * A) :=
  combine (map Z.of_nat (seq 0 (length v))) v.

(** ** findSeparatrixMiddle (lines 299-365) *)

(** The cache [sepMiddles], a [std::map] from the bounds of a separatrix
    to the index of its middle; the entries are listed in the order of
    their insertion, the source only searches it. *)
Definition Middles : Type := list ((Z * Z) * Z).

Definition sameBounds (p q : Z * Z) : bool :=
  (fst p =? fst q) && (snd p =? snd q).

(** [sepMiddles.find(std::make_pair(a, b))] *)
Definition findMiddle (ab : Z * Z) (m : Middles) : option Z :=
  option_map snd (find (fun e => sameBounds (fst e) ab) m).

(** [sepMiddles.insert(...)]: an existing entry is kept. *)
Definition insertMiddle (ab : Z * Z) (id : Z) (m : Middles) : Middles :=
  match findMiddle ab m with
  | Some _ => m
  | None => m ++ [(ab, id)]
  end.

(** The scan of lines 308-315 over the position list: the bounds collected
    in [sepBounds], and the indices at which [sepFlatEdgesPos] is read, in
    the order of the reads. *)
Definition scanPositions (src dst : Z) (sepFlatEdgesPos : list (Z * Z))
  : list (Z * Z) * list nat :=
  fold_left
    (fun (acc : list (Z * Z) * list nat) (i : nat) =>
       let p := nth i sepFlatEdgesPos pastTheEnd in
       let q := nth (i + 1) sepFlatEdgesPos pastTheEnd in
       let reads := snd acc ++ [i; (i + 1)%nat] in
       if (fst p =? criticalPointsCellIds_ this src)
          && (fst q =? criticalPointsCellIds_ this dst)
       then (fst acc ++ [(snd p, snd q)], reads)
       else (fst acc, reads))
    (seq 0 (length sepFlatEdgesPos)) ([], []).

(** The three coordinates of the sample [n] of the separatrices. *)
Definition samplePoint (n : Z) : F * F * F :=
  (sepPoints_ this (wrap64 (3 * n)),
   sepPoints_ this (wrap64 (3 * n + 1)),
   sepPoints_ this (wrap64 (3 * n + 2))).

(** Lines 337-344: the entries [distFromA[i]], [distFromA[i + 1]], ... for
    [turns] turns of the loop, [dist] being [distFromA[i - 1]]. *)
Fixpoint integrate (a : Z) (turns : nat) (i : Z) (dist : F) (curr : F * F * F)
  : list F :=
  match turns with
  | O => []
  | S turns' =>
      let prev := curr in
      let curr' := samplePoint (wrap64 (a + i)) in
      let dist' := fadd dist (distance curr' prev) in
      dist' :: integrate a turns' (i + 1) dist' curr'
  end.

(** [std::min_element]: the first position of a smallest entry. *)
Fixpoint minFrom (l : list F) (i : nat) (best : F) (besti : nat) : nat :=
  match l with
  | [] => besti
  | x :: l' =>
      if fltb x best then minFrom l' (S i) x i
      else minFrom l' (S i) best besti
  end.

Definition min_element (l : list F) : nat :=
  match l with
  | [] => O
  | x :: l' => minFrom l' 1 x O
  end.

(** Lines 330-353, once [distFromA] is created (line 329, see
    [addMiddle]): the index of the sample in the middle of the separatrix
    with the bounds [a] and [b]. [distFromA] has [b - a + 1] entries,
    computed on [size_t]; where it has none, [fzero] stands for what
    [back()] yields. *)
Definition middleOf (a b : Z) : Z :=
  let distFromA :=
    match Z.to_nat (wrap64 (b - a + 1)) with
    | O => []
    | S turns => fzero :: integrate a turns 1 fzero (samplePoint a)
    end in
  let distAB := last distFromA fzero in
  wrap64 (a + Z.of_nat (min_element (map (fun el => absHalfDiff el distAB)
                                         distFromA))).

(** The output point buffer and the cache. *)
Definition MiddleState : Type := list F * Middles.

(** The body of the loop of lines 319-362. The vector [distFromA] of line
    329 is created with [b - a + 1] entries, computed on [size_t]; the run
    does not go on when that is more than [max_size]. *)
Definition addMiddle (ab : Z * Z) (st : MiddleState) : option MiddleState :=
  match findMiddle ab (snd st) with
  | Some _ => Some st
  | None =>
      if max_size <? wrap64 (snd ab - fst ab + 1) then None
      else
        let id := middleOf (fst ab) (snd ab) in
        let '(x, y, z) := samplePoint id in
        Some (fst st ++ [x; y; z], insertMiddle ab id (snd st))
  end.

Definition findSeparatrixMiddle (src dst : Z) (sepFlatEdgesPos : list (Z * Z))
           (st : MiddleState) : option MiddleState :=
  forEach (fst (scanPositions src dst sepFlatEdgesPos)) addMiddle st.

End Quadrangulation.

(** * The direct builder and the main routine *)

Section Builders.

Context {F : Type}.

Variable fzero : F.
Variable fadd : F -> F -> F.
Variable distance : F * F * F -> F * F * F -> F.
Variable absHalfDiff : F -> F -> F.
Variable fltb : F -> F -> bool.
Variable max_size : Z.

(** What the read past the end of [sepFlatEdgesPos] yields in each call of
    [findSeparatrixMiddle] of a run, the calls being numbered from [0] in
    the order in which the run makes them. *)
Variable strayRead : nat -> Z * Z.

Variable this : SurfaceQuadrangulation F.

(** ** quadrangulate: post-processing (lines 233-294) *)

(** [pointQuadNumber[outputCells_->at(pos)]++] *)
Definition countCorner (cells : list Z) (pos : nat) (counts : list Z)
  : option (list Z) :=
  match at_ cells pos with
  | None => None
  | Some c => modifyAtZ c (fun n => wrap64 (n + 1)) counts
  end.

(** Lines 237-244. *)
Definition pointQuadNumber (cells : list Z) : option (list Z) :=
  forEach (seq 0 (length cells / 5))
    (fun i counts =>
       match countCorner cells (5 * i + 1) counts with
       | None => None
       | Some c1 =>
           match countCorner cells (5 * i + 2) c1 with
           | None => None
           | Some c2 =>
               match countCorner cells (5 * i + 3) c2 with
               | None => None
               | Some c3 => countCorner cells (5 * i + 4) c3
               end
           end
       end)
    (repeat 0 (Z.to_nat (criticalPointsNumber_ this))).

(** Lines 247-254: the critical points with fewer quads around them than
    separatrices. *)
Definition badPoints (quadNumber sepNumber : list Z) : list Z :=
  filter (fun i => nth (Z.to_nat i) quadNumber 0
                   <? nth (Z.to_nat i) sepNumber 0)
         (range (criticalPointsNumber_ this)).

(** Lines 257-271: the quads with two bad corners or more. *)
Definition badQuads (cells : list Z) (bad : list Z) : option (list nat) :=
  forEach (seq 0 (length cells / 5))
    (fun i quads =>
       match
         forEach (seq (5 * i + 1) 4)
           (fun j nbadpoints =>
              match at_ cells j with
              | None => None
              | Some c =>
                  Some (if existsb (Z.eqb c) bad
                        then wrap64 (nbadpoints + 1) else nbadpoints)
              end)
           0
       with
       | None => None
       | Some nbadpoints =>
           Some (if 2 <=? nbadpoints then quads ++ [i] else quads)
       end)
    [].

(** Lines 273-280, and 381-388 for the first components. *)
Definition sepFlatEdgesPos : list (Z * Z) :=
  map (fun i => (sepCellIds_ this i, i))
      (filter (fun i => negb (sepMask_ this i =? 1))
              (range (separatriceNumber_ this))).

(** The call of [findSeparatrixMiddle] that reads [stray] past the end of
    the position list. *)
Definition middleCall (stray : Z * Z) :=
  findSeparatrixMiddle fzero fadd distance absHalfDiff fltb max_size stray
                       this.

(** Lines 285-294: the four requests made for the bad quad [q], the one of
    the turn [n] of the loop; they are the calls [4 n], ..., [4 n + 3] of
    [findSeparatrixMiddle] in the run. *)
Definition subdivide (cells : list Z) (nq : nat * nat) (st : MiddleState)
  : option MiddleState :=
  let '(n, q) := nq in
  match at_ cells (5 * q + 1), at_ cells (5 * q + 2),
        at_ cells (5 * q + 3), at_ cells (5 * q + 4) with
  | Some i, Some j, Some k, Some l =>
      match middleCall (strayRead (4 * n)) j i sepFlatEdgesPos st with
      | None => None
      | Some st1 =>
          match middleCall (strayRead (4 * n + 1)) j k sepFlatEdgesPos st1
          with
          | None => None
          | Some st2 =>
              match middleCall (strayRead (4 * n + 2)) l i sepFlatEdgesPos st2
              with
              | None => None
              | Some st3 =>
                  middleCall (strayRead (4 * n + 3)) l k sepFlatEdgesPos st3
              end
          end
      end
  | _, _, _, _ => None
  end.

(** The three buffers the builders write: [outputCells_],
    [outputPoints_] and the counter [ndegen]. *)
Record Buffers := {
  cellsOf : list Z;
  pointsOf : list F;
  ndegenOf : Z
}.

(** ** quadrangulate (lines 135-297) *)
Definition quadrangulate (sepEdges : list (Z * Z)) (b : Buffers)
  : option Buffers :=
  match mapSeparatrices this sepEdges with
  | None => None
  | Some (sepMappingDests, pointSepNumber) =>
      let '(cells, ndegen) :=
        emitQuads this (indexed sepMappingDests) (cellsOf b, ndegenOf b) in
      match pointQuadNumber cells with
      | None => None
      | Some quadNumber =>
          match badQuads cells (badPoints quadNumber pointSepNumber) with
          | None => None
          | Some bad =>
              match
                forEach (numbered bad) (subdivide cells) (pointsOf b, [])
              with
              | None => None
              | Some (points, _) =>
                  Some {| cellsOf := cells; pointsOf := points;
                          ndegenOf := ndegen |}
              end
          end
      end
  end.

(** ** execute (lines 368-446) *)

(** Lines 381-388. *)
Definition sepFlatEdges : list Z := map fst sepFlatEdgesPos.

(** Lines 399-404: the edges [(sepFlatEdges[2 i], sepFlatEdges[2 i + 1])]
    for [i] below [sepFlatEdges.size() / 2]. *)
Fixpoint pairUp (l : list Z) : list (Z * Z) :=
  match l with
  | a :: b :: l' => (a, b) :: pairUp l'
  | _ => []
  end.

(** Lines 417-423: [maxSegId], an [int] that starts at [0]; the loop runs
    over the indices below the count [segmentationNumber_]. *)
Definition maxSegId : Z :=
  fold_left
    (fun m a => if segmentation_ this a >? m then segmentation_ this a else m)
    (range (segmentationNumber_ this)) 0.

(** [int nseg = maxSegId + 1;] *)
Definition nseg : Z := wrapInt (maxSegId + 1).

(** What a run of [execute] leaves: the returned status, the two output
    buffers, and the numbers of the first diagnostic line (quads,
    degenerate quads, manifolds) when the run gets there. *)
Record Outcome := {
  status : Z;
  outputCells_ : list Z;
  outputPoints_ : list F;
  summary : option (Z * Z * Z)
}.

Definition execute : option Outcome :=
  (* clear output *)
  let cleared := {| cellsOf := []; pointsOf := []; ndegenOf := 0 |} in
  if negb (Z.of_nat (length sepFlatEdges) mod 2 =? 0) then
    Some {| status := -1; outputCells_ := cellsOf cleared;
            outputPoints_ := pointsOf cleared; summary := None |}
  else
    let sepEdges := pairUp sepFlatEdges in
    let built :=
      if dualQuadrangulation_ this then
        Some {| cellsOf := dualQuadrangulate this sepEdges (cellsOf cleared);
                pointsOf := pointsOf cleared;
                ndegenOf := ndegenOf cleared |}
      else quadrangulate sepEdges cleared in
    match built with
    | None => None
    | Some b =>
        let quadNumber := Z.of_nat (length (cellsOf b) / 5) in
        Some {| status := 0; outputCells_ := cellsOf b;
                outputPoints_ := pointsOf b;
                summary := Some (quadNumber, ndegenOf b, nseg) |}
    end.

End Builders.

(** * The vocabulary of the statements *)

Section Vocabulary.

Context {F : Type}.
Variable this : SurfaceQuadrangulation F.

(** ** The traversal *)

(** The states of the traversal around [v]: the state in which it starts,
    and the state that each turn of the loop leaves. A turn is taken from a
    state on which the test of the cap did not [break] and whose queue has a
    front. *)
Inductive Reached (v : Z) : Traversal -> Prop :=
| reached_start : Reached v (startTraversal v)
| reached_turn (t : Traversal) (curr : Z) (rest : list Z) :
    Reached v t ->
    capReached t = false ->
    neighborsToProcess t = curr :: rest ->
    Reached v (visit this v curr rest t).

(** The vertices linked to [v]: [v] itself, and the neighbors of a linked
    vertex whose rank is below the neighbor count of [v]. *)
Inductive Linked (v : Z) : Z -> Prop :=
| linked_start : Linked v v
| linked_neighbor (u j : Z) :
    Linked v u ->
    0 <= j < getVertexNeighborNumber this v ->
    Linked v (getVertexNeighbor this u j).

(** What every state of the traversal around [v] satisfies: the set of
    processed vertices holds at most 21, the two sets are ascending, the labels are those of the processed vertices, the queue and
    the processed vertices are linked to [v], and [v] is processed as soon
    as a turn was taken. *)
Definition traversalInvariant (v : Z) (t : Traversal) : Prop :=
  (IdSet.size (processedNeighbors t) <= 21)%nat
  /\ IdSet.ascending (processedNeighbors t)
  /\ IdSet.ascending (manifolds t)
  /\ (forall x, In x (manifolds t)
                <-> exists u, In u (processedNeighbors t)
                              /\ segmentation_ this u = x)
  /\ (forall u, In u (neighborsToProcess t) -> Linked v u)
  /\ (forall u, In u (processedNeighbors t) -> Linked v u)
  /\ (t = startTraversal v \/ In v (processedNeighbors t)).

(** ** The segmentation *)

(** The labels of the segmentation array, in the order of the array. *)
Definition segmentationLabels : list Z :=
  map (segmentation_ this) (range (segmentationNumber_ this)).

(** ** The dual builder *)

(** The destinations the edges give to the source [s], in the order of the
    edges. *)
Definition destinations (sepEdges : list (Z * Z)) (s : Z) : list Z :=
  map (destOf this) (filter (fun p => sourceOf this p =? s) sepEdges).

(** [sourceDests[s]] when the key is there, the empty vector otherwise. *)
Definition destsOf (s : Z) (m : list (Z * list Z)) : list Z :=
  match find (fun e => fst e =? s) m with
  | Some e => snd e
  | None => []
  end.

(** The sources with exactly four destinations. *)
Definition fourFold (elt : Z * list Z) : bool :=
  (length (snd elt) =? 4)%nat.

(** ** The direct builder *)

(** A quad, by its four corners, and its group in the cell buffer. *)
Definition Quad : Type := Z * Z * Z * Z.

Definition quadCells (q : Quad) : list Z :=
  let '(a, b, c, d) := q in [4; a; b; c; d].

(** The second and the fourth corner are equal. *)
Definition degenerate (q : Quad) : bool :=
  let '(_, b, _, d) := q in b =? d.

(** The groups of five entries of a cell buffer. *)
Fixpoint quadsIn (cells : list Z) : list (list Z) :=
  match cells with
  | n :: a :: b :: c :: d :: rest => [n; a; b; c; d] :: quadsIn rest
  | _ => []
  end.

Definition degenerateGroup (g : list Z) : bool := nth 2 g 0 =? nth 4 g 0.

(** The first and the third corner of a group are [i] and [k]. *)
Definition between (i k : Z) (g : list Z) : bool :=
  (nth 1 g 0 =? i) && (nth 3 g 0 =? k).

(** The test of lines 216-218 on the sets of sources of two
    destinations. *)
Definition degeneratePair (Si Sk : IdSet.t) : bool :=
  ((length (IdSet.inter Si Sk) =? 1)%nat
   && ((IdSet.size Si =? 1)%nat || (IdSet.size Sk =? 1)%nat))%bool.

(** The quads of lines 189-229 for two destinations. *)
Definition pairQuads (i : Z) (Si : IdSet.t) (k : Z) (Sk : IdSet.t)
  : list Quad :=
  let common_dests := IdSet.inter Si Sk in
  if (2 <=? length common_dests)%nat then
    map (fun jl => (i, fst jl, k, snd jl))
        (filter (fun jl => hasCommonManifold this [fst jl; snd jl])
                (pairsOf common_dests))
  else if degeneratePair Si Sk then
    [(i, hd 0 common_dests, k, hd 0 common_dests)]
  else [].

(** The tests of lines 164, 171 and 177 on a pair of destinations. *)
Definition enumerated (ik : (Z * IdSet.t) * (Z * IdSet.t)) : bool :=
  let '((i, Si), (k, Sk)) := ik in
  (negb (IdSet.is_empty Si) && negb (IdSet.is_empty Sk)
   && negb (criticalPointsType_ this k =? criticalPointsType_ this i))%bool.

(** The pairs of destinations that reach line 181, in the order of the two
    loops. *)
Definition enumeratedPairs (dests : list (Z * IdSet.t))
  : list ((Z * IdSet.t) * (Z * IdSet.t)) :=
  filter enumerated (pairsOf dests).

Definition quadsBetween (ik : (Z * IdSet.t) * (Z * IdSet.t)) : list Quad :=
  pairQuads (fst (fst ik)) (snd (fst ik)) (fst (snd ik)) (snd (snd ik)).

Definition degenerateBetween (ik : (Z * IdSet.t) * (Z * IdSet.t)) : bool :=
  degeneratePair (snd (fst ik)) (snd (snd ik)).

(** The quads of the two loops. *)
Definition allQuads (dests : list (Z * IdSet.t)) : list Quad :=
  flat_map quadsBetween (enumeratedPairs dests).

Definition countDegenerate (qs : list Quad) : nat :=
  length (filter degenerate qs).

(** [n] increments of a [size_t] counter. *)
Definition bump (n : nat) (z : Z) : Z :=
  Nat.iter n (fun c => wrap64 (c + 1)) z.

(** The pairs of destinations on which the counter is incremented. *)
Definition degeneratePairs (dests : list (Z * IdSet.t))
  : list ((Z * IdSet.t) * (Z * IdSet.t)) :=
  filter degenerateBetween (enumeratedPairs dests).

(** What holds of the vector [sepMappingDests] all along the loops: it has
    one set for each edge, the sets are ascending, their elements are
    indices of critical points, and so is the index of a set with an
    element. *)
Definition destsInvariant (sepEdges : list (Z * Z))
           (st : list IdSet.t * list Z) : Prop :=
  length (fst st) = length sepEdges
  /\ forall n S, nth_error (fst st) n = Some S ->
                 IdSet.ascending S
                 /\ forall i, In i S ->
                              0 <= i < criticalPointsNumber_ this
                              /\ Z.of_nat n < criticalPointsNumber_ this.

(** The set of [sepMappingDests] at the index [snd e] holds [fst e]. *)
Definition recorded (dests : list IdSet.t) (e : Z * Z) : Prop :=
  0 <= snd e
  /\ exists S, nth_error dests (Z.to_nat (snd e)) = Some S /\ In (fst e) S.

(** The edge [p] runs from the cell of the critical point [fst e] to the
    cell of the critical point [snd e]. *)
Definition joins (p e : Z * Z) : Prop :=
  0 <= fst e < criticalPointsNumber_ this
  /\ 0 <= snd e < criticalPointsNumber_ this
  /\ fst p = criticalPointsCellIds_ this (fst e)
  /\ snd p = criticalPointsCellIds_ this (snd e).

(** Some edge runs from the cell of the critical point [s] to the cell of
    the critical point [d]. *)
Definition linksTo (sepEdges : list (Z * Z)) (s d : Z) : bool :=
  existsb (fun p => (fst p =? criticalPointsCellIds_ this s)
                    && (snd p =? criticalPointsCellIds_ this d))
          sepEdges.

(** The common saddles of two critical points [i] and [k]: the indices of
    the critical points linked to both, in ascending order. *)
Definition commonSaddles (sepEdges : list (Z * Z)) (i k : Z) : list Z :=
  filter (fun s => linksTo sepEdges s i && linksTo sepEdges s k)
         (range (criticalPointsNumber_ this)).

(** The four corners are indices of critical points. *)
Definition validQuad (q : Quad) : Prop :=
  let '(a, b, c, d) := q in
  Forall (fun x => 0 <= x < criticalPointsNumber_ this) [a; b; c; d].

(** The destinations of a list carry one set each. *)
Definition functional (dests : list (Z * IdSet.t)) : Prop :=
  forall i S S', In (i, S) dests -> In (i, S') dests -> S = S'.

(** ** The cache of the middles *)

(** The bounds [ab] have an entry in the cache. *)
Definition cached (ab : Z * Z) (m : Middles) : Prop :=
  exists id, findMiddle ab m = Some id.

(** The point buffer holds [pts] and then three coordinates for each entry
    of the cache. *)
Definition triples (pts : list F) (st : MiddleState) : Prop :=
  exists extra, fst st = pts ++ extra
                /\ length extra = (3 * length (snd st))%nat.

End Vocabulary.

Arguments bump : simpl never.

(** The count the sentence of the specification gives: one more than the
    largest label, and [0] when the array is empty. *)
Definition spec_manifoldCount (labels : list Z) : Z :=
  match labels with
  | [] => 0
  | x :: l => 1 + fold_right Z.max x l
  end.

(** * The setters of ttkCellDataSelector *)

Section Selector.

(** What [OsCall::getNumberOfCores()] returns. *)
Variable getNumberOfCores : Z.

(** The members that the inline setters of the class touch: the three
    thread settings ([threadNumber_] is the one the base class reads), the
    selected fields, and the number of calls of [Modified()]. *)
Record ttkCellDataSelector := {
  UseAllCores : bool;
  ThreadNumber : Z;
  threadNumber_ : Z;
  ScalarFields : list String.string;
  modified : nat
}.

(** The constructor (lines 107-112) on the members as the allocation leaves
    them: it sets [UseAllCores] and nothing else of them. *)
Definition construct (s : ttkCellDataSelector) : ttkCellDataSelector :=
  {| UseAllCores := false; ThreadNumber := ThreadNumber s;
     threadNumber_ := threadNumber_ s; ScalarFields := ScalarFields s;
     modified := modified s |}.

(** Lines 51-58. *)
Definition SetThreads (s : ttkCellDataSelector) : ttkCellDataSelector :=
  {| UseAllCores := UseAllCores s; ThreadNumber := ThreadNumber s;
     threadNumber_ := if negb (UseAllCores s) then ThreadNumber s
                      else getNumberOfCores;
     ScalarFields := ScalarFields s; modified := S (modified s) |}.

(** Lines 60-63. *)
Definition SetThreadNumber (threadNumber : Z) (s : ttkCellDataSelector)
  : ttkCellDataSelector :=
  SetThreads {| UseAllCores := UseAllCores s; ThreadNumber := threadNumber;
                threadNumber_ := threadNumber_ s;
                ScalarFields := ScalarFields s; modified := modified s |}.

(** Lines 64-67. *)
Definition SetUseAllCores (onOff : bool) (s : ttkCellDataSelector)
  : ttkCellDataSelector :=
  SetThreads {| UseAllCores := onOff; ThreadNumber := ThreadNumber s;
                threadNumber_ := threadNumber_ s;
                ScalarFields := ScalarFields s; modified := modified s |}.

(** Lines 70-73. *)
Definition SetScalarFields (name : String.string) (s : ttkCellDataSelector)
  : ttkCellDataSelector :=
  {| UseAllCores := UseAllCores s; ThreadNumber := ThreadNumber s;
     threadNumber_ := threadNumber_ s;
     ScalarFields := ScalarFields s ++ [name];
     modified := S (modified s) |}.

(** Lines 75-78. *)
Definition ClearScalarFields (s : ttkCellDataSelector)
  : ttkCellDataSelector :=
  {| UseAllCores := UseAllCores s; ThreadNumber := ThreadNumber s;
     threadNumber_ := threadNumber_ s; ScalarFields := [];
     modified := S (modified s) |}.

(** A sequence of calls of [SetScalarFields], one for each name. *)
Definition selectAll (names : list String.string) (s : ttkCellDataSelector)
  : ttkCellDataSelector :=
  fold_left (fun s' name => SetScalarFields name s') names s.

End Selector.

(** * Concrete inputs *)

(** A raw array holding the entries of [l], and [0] around them. *)
Definition ofList (l : list Z) (i : Z) : Z :=
  if i <? 0 then 0 else nth (Z.to_nat i) l 0.

Module Examples.

(** Integer coordinates stand for the floats. *)
Definition zdistance (p q : Z * Z * Z) : Z :=
  let '(x, y, z) := p in
  let '(x', y', z') := q in
  Z.abs (x - x') + Z.abs (y - y') + Z.abs (z - z').

(** [|el - d / 2|], doubled. *)
Definition zabsHalfDiff (el d : Z) : Z := Z.abs (2 * el - d).

(** A vector of floats holds at most [2^61 - 1] entries. *)
Definition floats : Z := 2 ^ 61 - 1.

(** Every read past the end of the position list yields [(0, 0)]. *)
Definition zeros (call : nat) : Z * Z := (0, 0).

(** The main routine on integer coordinates. *)
Definition run := execute 0 Z.add zdistance zabsHalfDiff Z.ltb floats zeros.

(** Four critical points: a minimum, a saddle, a maximum, a saddle; each
    saddle is linked to both extrema. *)
Definition square (dual : bool) : SurfaceQuadrangulation Z :=
  {| criticalPointsNumber_ := 4;
     criticalPointsCellIds_ := ofList [10; 11; 12; 13];
     criticalPointsIdentifier_ := ofList [0; 1; 2; 3];
     criticalPointsType_ := ofList [0; 1; 2; 1];
     separatriceNumber_ := 8;
     sepCellIds_ := ofList [11; 10; 11; 12; 13; 10; 13; 12];
     sepMask_ := ofList [0; 0; 0; 0; 0; 0; 0; 0];
     sepPoints_ := ofList [];
     segmentationNumber_ := 4;
     segmentation_ := ofList [0; 0; 0; 0];
     getVertexNeighborNumber := fun _ => 0;
     getVertexNeighbor := fun _ _ => 0;
     dualQuadrangulation_ := dual |}.

(** A single sample is left by the mask. *)
Definition oddInput (dual : bool) : SurfaceQuadrangulation Z :=
  {| criticalPointsNumber_ := 2;
     criticalPointsCellIds_ := ofList [10; 11];
     criticalPointsIdentifier_ := ofList [0; 1];
     criticalPointsType_ := ofList [0; 1];
     separatriceNumber_ := 3;
     sepCellIds_ := ofList [11; 7; 10];
     sepMask_ := ofList [0; 1; 1];
     sepPoints_ := ofList [0; 0; 0; 1; 0; 0; 2; 0; 0];
     segmentationNumber_ := 2;
     segmentation_ := ofList [0; 0];
     getVertexNeighborNumber := fun _ => 0;
     getVertexNeighbor := fun _ _ => 0;
     dualQuadrangulation_ := dual |}.

(** The square without any segmentation label. *)
Definition unlabelled : SurfaceQuadrangulation Z :=
  {| criticalPointsNumber_ := 4;
     criticalPointsCellIds_ := ofList [10; 11; 12; 13];
     criticalPointsIdentifier_ := ofList [0; 1; 2; 3];
     criticalPointsType_ := ofList [0; 1; 2; 1];
     separatriceNumber_ := 8;
     sepCellIds_ := ofList [11; 10; 11; 12; 13; 10; 13; 12];
     sepMask_ := ofList [0; 0; 0; 0; 0; 0; 0; 0];
     sepPoints_ := ofList [];
     segmentationNumber_ := 0;
     segmentation_ := ofList [];
     getVertexNeighborNumber := fun _ => 0;
     getVertexNeighbor := fun _ _ => 0;
     dualQuadrangulation_ := true |}.

(** The builder of the direct mode, on integer coordinates. *)
Definition build :=
  quadrangulate 0 Z.add zdistance zabsHalfDiff Z.ltb floats zeros.

(** The buffers as [execute] clears them. *)
Definition cleared : @Buffers Z :=
  {| cellsOf := []; pointsOf := []; ndegenOf := 0 |}.

(** A minimum, a saddle, a maximum, a saddle: the first saddle is linked to
    both extrema, the second to the minimum only. *)
Definition spur : SurfaceQuadrangulation Z :=
  {| criticalPointsNumber_ := 4;
     criticalPointsCellIds_ := ofList [10; 11; 12; 13];
     criticalPointsIdentifier_ := ofList [0; 1; 2; 3];
     criticalPointsType_ := ofList [0; 1; 2; 1];
     separatriceNumber_ := 6;
     sepCellIds_ := ofList [11; 10; 11; 12; 13; 10];
     sepMask_ := ofList [0; 0; 0; 0; 0; 0];
     sepPoints_ := ofList [];
     segmentationNumber_ := 4;
     segmentation_ := ofList [0; 0; 0; 0];
     getVertexNeighborNumber := fun _ => 0;
     getVertexNeighbor := fun _ _ => 0;
     dualQuadrangulation_ := false |}.

(** A saddle between two minima, with three separatrices, two of them to
    the first minimum. *)
Definition twoMinima : SurfaceQuadrangulation Z :=
  {| criticalPointsNumber_ := 3;
     criticalPointsCellIds_ := ofList [10; 11; 12];
     criticalPointsIdentifier_ := ofList [0; 1; 2];
     criticalPointsType_ := ofList [0; 1; 0];
     separatriceNumber_ := 6;
     sepCellIds_ := ofList [11; 10; 11; 12; 11; 10];
     sepMask_ := ofList [0; 0; 0; 0; 0; 0];
     sepPoints_ := ofList [];
     segmentationNumber_ := 3;
     segmentation_ := ofList [0; 0; 0];
     getVertexNeighborNumber := fun _ => 0;
     getVertexNeighbor := fun _ _ => 0;
     dualQuadrangulation_ := false |}.

(** The square with one vertex in its segmentation array, of label -1. *)
Definition negativeLabel : SurfaceQuadrangulation Z :=
  {| criticalPointsNumber_ := 4;
     criticalPointsCellIds_ := ofList [10; 11; 12; 13];
     criticalPointsIdentifier_ := ofList [0; 1; 2; 3];
     criticalPointsType_ := ofList [0; 1; 2; 1];
     separatriceNumber_ := 8;
     sepCellIds_ := ofList [11; 10; 11; 12; 13; 10; 13; 12];
     sepMask_ := ofList [0; 0; 0; 0; 0; 0; 0; 0];
     sepPoints_ := ofList [];
     segmentationNumber_ := 1;
     segmentation_ := fun _ => -1;
     getVertexNeighborNumber := fun _ => 0;
     getVertexNeighbor := fun _ _ => 0;
     dualQuadrangulation_ := true |}.

(** A saddle with four separatrices, to two minima and two maxima; dual
    mode. *)
Definition star : SurfaceQuadrangulation Z :=
  {| criticalPointsNumber_ := 5;
     criticalPointsCellIds_ := ofList [10; 11; 12; 13; 14];
     criticalPointsIdentifier_ := ofList [0; 1; 2; 3; 4];
     criticalPointsType_ := ofList [1; 0; 2; 0; 2];
     separatriceNumber_ := 8;
     sepCellIds_ := ofList [10; 11; 10; 12; 10; 13; 10; 14];
     sepMask_ := ofList [0; 0; 0; 0; 0; 0; 0; 0];
     sepPoints_ := ofList [];
     segmentationNumber_ := 5;
     segmentation_ := ofList [0; 0; 0; 0; 0];
     getVertexNeighborNumber := fun _ => 0;
     getVertexNeighbor := fun _ _ => 0;
     dualQuadrangulation_ := true |}.

(** Three critical points; the third of the four separatrices of the saddle
    ends in the cell 99, which is the cell of no critical point; dual
    mode. *)
Definition strayEdge : SurfaceQuadrangulation Z :=
  {| criticalPointsNumber_ := 3;
     criticalPointsCellIds_ := ofList [10; 20; 30];
     criticalPointsIdentifier_ := ofList [0; 1; 2];
     criticalPointsType_ := ofList [1; 0; 0];
     separatriceNumber_ := 8;
     sepCellIds_ := ofList [10; 20; 10; 30; 10; 99; 10; 20];
     sepMask_ := ofList [0; 0; 0; 0; 0; 0; 0; 0];
     sepPoints_ := ofList [];
     segmentationNumber_ := 3;
     segmentation_ := ofList [0; 0; 0];
     getVertexNeighborNumber := fun _ => 0;
     getVertexNeighbor := fun _ _ => 0;
     dualQuadrangulation_ := true |}.

(** A minimum and a saddle linked by one separatrix of five samples on a
    line, at the abscissas 0, 1, 2, 3, 4; the mask keeps its two ends. *)
Definition arc : SurfaceQuadrangulation Z :=
  {| criticalPointsNumber_ := 2;
     criticalPointsCellIds_ := ofList [10; 11];
     criticalPointsIdentifier_ := ofList [0; 1];
     criticalPointsType_ := ofList [0; 1];
     separatriceNumber_ := 5;
     sepCellIds_ := ofList [11; 7; 7; 7; 10];
     sepMask_ := ofList [0; 1; 1; 1; 0];
     sepPoints_ := ofList [0; 0; 0; 1; 0; 0; 2; 0; 0; 3; 0; 0; 4; 0; 0];
     segmentationNumber_ := 2;
     segmentation_ := ofList [0; 0];
     getVertexNeighborNumber := fun _ => 0;
     getVertexNeighbor := fun _ _ => 0;
     dualQuadrangulation_ := false |}.

(** A saddle and a maximum linked by one separatrix of two samples, from
    the cell of the first critical point to the cell of the second: one
    edge, whose end is the critical point of index 1. *)
Definition lateEnd : SurfaceQuadrangulation Z :=
  {| criticalPointsNumber_ := 2;
     criticalPointsCellIds_ := ofList [10; 11];
     criticalPointsIdentifier_ := ofList [0; 1];
     criticalPointsType_ := ofList [1; 2];
     separatriceNumber_ := 2;
     sepCellIds_ := ofList [10; 11];
     sepMask_ := ofList [0; 0];
     sepPoints_ := ofList [0; 0; 0; 1; 0; 0];
     segmentationNumber_ := 2;
     segmentation_ := ofList [0; 0];
     getVertexNeighborNumber := fun _ => 0;
     getVertexNeighbor := fun _ _ => 0;
     dualQuadrangulation_ := false |}.

(** [findSeparatrixMiddle] on integer coordinates, in a call that reads
    [stray] past the end of the position list. *)
Definition middle (stray : Z * Z) :=
  findSeparatrixMiddle 0 Z.add zdistance zabsHalfDiff Z.ltb floats stray.

(** Two saddles, of indices 1 and 2, each linked to the minimum of index 0
    and to the maximum of index 4; the critical point of index 3 has no
    separatrix. Four edges for five critical points. *)
Definition lateSquare : SurfaceQuadrangulation Z :=
  {| criticalPointsNumber_ := 5;
     criticalPointsCellIds_ := ofList [10; 11; 12; 13; 14];
     criticalPointsIdentifier_ := ofList [0; 1; 2; 3; 4];
     criticalPointsType_ := ofList [0; 1; 1; 0; 2];
     separatriceNumber_ := 8;
     sepCellIds_ := ofList [11; 10; 11; 14; 12; 10; 12; 14];
     sepMask_ := ofList [0; 0; 0; 0; 0; 0; 0; 0];
     sepPoints_ := ofList [];
     segmentationNumber_ := 5;
     segmentation_ := ofList [0; 0; 0; 0; 0];
     getVertexNeighborNumber := fun _ => 0;
     getVertexNeighbor := fun _ _ => 0;
     dualQuadrangulation_ := false |}.

(** A saddle with four separatrices, the first and the third of which end
    in its own cell; dual mode. *)
Definition sameCell : SurfaceQuadrangulation Z :=
  {| criticalPointsNumber_ := 4;
     criticalPointsCellIds_ := ofList [10; 11; 12; 13];
     criticalPointsIdentifier_ := ofList [0; 1; 2; 3];
     criticalPointsType_ := ofList [1; 0; 0; 2];
     separatriceNumber_ := 8;
     sepCellIds_ := ofList [10; 10; 10; 12; 10; 10; 10; 13];
     sepMask_ := ofList [0; 0; 0; 0; 0; 0; 0; 0];
     sepPoints_ := ofList [];
     segmentationNumber_ := 4;
     segmentation_ := ofList [0; 0; 0; 0];
     getVertexNeighborNumber := fun _ => 0;
     getVertexNeighbor := fun _ _ => 0;
     dualQuadrangulation_ := true |}.

(** A triangulated torus: the vertices [x + 6 y] of a 6 by 6 grid, each
    with the six neighbors [(x +- 1, y)], [(x, y +- 1)], [(x + 1, y + 1)]
    and [(x - 1, y - 1)], coordinates modulo 6. The label of a vertex is its
    row [y]. Four critical points sit at the vertices 0, 3, 18 and 21. *)
Definition torusNeighbor (v j : Z) : Z :=
  let x := v mod 6 in
  let y := v / 6 in
  let '(dx, dy) :=
    nth (Z.to_nat j) [(1, 0); (5, 0); (0, 1); (0, 5); (1, 1); (5, 5)] (0, 0) in
  (x + dx) mod 6 + 6 * ((y + dy) mod 6).

Definition torus : SurfaceQuadrangulation Z :=
  {| criticalPointsNumber_ := 4;
     criticalPointsCellIds_ := ofList [0; 3; 18; 21];
     criticalPointsIdentifier_ := ofList [0; 3; 18; 21];
     criticalPointsType_ := ofList [0; 1; 2; 1];
     separatriceNumber_ := 8;
     sepCellIds_ := ofList [3; 0; 3; 18; 21; 0; 21; 18];
     sepMask_ := ofList [0; 0; 0; 0; 0; 0; 0; 0];
     sepPoints_ := ofList [];
     segmentationNumber_ := 36;
     segmentation_ := fun v => v / 6;
     getVertexNeighborNumber := fun _ => 6;
     getVertexNeighbor := torusNeighbor;
     dualQuadrangulation_ := false |}.

End Examples.

(** * Properties of the manifold oracle *)

Section OracleProperties.

Context {F : Type}.
Variable this : SurfaceQuadrangulation F.

Lemma capReached_false (t : Traversal) :
  capReached t = false -> (IdSet.size (processedNeighbors t) <= 20)%nat.
Proof. unfold capReached. intros H. now apply Nat.ltb_ge in H. Qed.

(** The loop ends in a state that the turns reach. *)
Lemma traverse_Reached (v : Z) (t : Traversal) :
  Reached this v t -> capReached t = false ->
  Reached this v (traverse this v t).
Proof.
  funelim (traverse this v t); intros Hr Hcap.
  - assumption.
  - now apply reached_turn.
  - apply H.
    + now apply reached_turn.
    + assumption.
Qed.

(** The loop ends with an empty queue or on the [break]. *)
Lemma traverse_stops (v : Z) (t : Traversal) :
  neighborsToProcess (traverse this v t) = []
  \/ capReached (traverse this v t) = true.
Proof.
  funelim (traverse this v t).
  - now left.
  - now right.
  - assumption.
Qed.

(** C7, as the code has it. In the traversal around a vertex the set of
    processed vertices never holds more than 21 vertices: a turn is only
    taken while it holds at most 20, and adds at most one; once it holds 21
    the test of the cap breaks the loop. *)
Theorem traversal_visits_at_most_21 (v : Z) (t : Traversal) :
  Reached this v t ->
  (IdSet.size (processedNeighbors t) <= 21)%nat
  /\ (IdSet.size (processedNeighbors t) = 21%nat -> capReached t = true).
Proof.
  intros H. split.
  - induction H as [|t curr rest Hr IH Hcap Hq].
    + simpl. lia.
    + apply capReached_false in Hcap. unfold visit. simpl.
      pose proof (IdSet.insert_size_le curr (processedNeighbors t)). lia.
  - intros E. unfold capReached. rewrite E. reflexivity.
Qed.

Lemma In_fold_inter (others : list IdSet.t) (first : IdSet.t) (x : Z) :
  In x (fold_left IdSet.inter others first)
  <-> In x first /\ forall s, In s others -> In x s.
Proof.
  revert first. induction others as [|s others IH]; intros first; simpl.
  - intuition.
  - rewrite IH, IdSet.In_inter. split.
    + intros [[H1 H2] H3]. split; [assumption|].
      intros s' [<-|Hs']; auto.
    + intros [H1 H2]. split; [split|]; auto.
Qed.

(** The oracle answers [true] exactly when a label is met around every
    point of a non-empty input. *)
Lemma hasCommonManifold_true (verts : list Z) :
  hasCommonManifold this verts = true
  <-> verts <> []
      /\ exists x, forall a, In a verts -> In x (manifoldsAround this a).
Proof.
  unfold hasCommonManifold. rewrite negb_true_iff, IdSet.is_empty_false.
  destruct verts as [|a0 verts]; simpl.
  - split; [intros [x []] | intros [H _]; congruence].
  - split.
    + intros [x Hx]. split; [discriminate|]. exists x.
      apply In_fold_inter in Hx. destruct Hx as [H0 Hs].
      intros a [<-|Ha]; [assumption|]. apply Hs. now apply in_map.
    + intros [_ [x Hx]]. exists x. apply In_fold_inter. split.
      * apply Hx. now left.
      * intros s Hs. apply in_map_iff in Hs. destruct Hs as [a [<- Ha]].
        apply Hx. now right.
Qed.

(** C8. On an input of two points or more, the answer of
    [hasCommonManifold] is the same for every order of the input, and an
    input that is answered [false] is still answered [false] once a point is
    appended to it. *)
Theorem hasCommonManifold_order_and_growth (verts : list Z) :
  (2 <= length verts)%nat ->
  (forall verts', Permutation verts verts' ->
                  hasCommonManifold this verts' = hasCommonManifold this verts)
  /\ (forall a, hasCommonManifold this verts = false ->
                hasCommonManifold this (verts ++ [a]) = false).
Proof.
  intros Hlen. split.
  - intros verts' Hperm.
    apply eq_true_iff_eq. rewrite !hasCommonManifold_true. split.
    + intros [Hne [x Hx]]. split.
      * intros ->. simpl in Hlen. lia.
      * exists x. intros a Ha. apply Hx.
        now apply (Permutation_in _ Hperm).
    + intros [Hne [x Hx]]. split.
      * intros ->. apply Permutation_length in Hperm. simpl in Hperm. lia.
      * exists x. intros a Ha. apply Hx.
        now apply (Permutation_in _ (Permutation_sym Hperm)).
  - intros a Hfalse.
    destruct (hasCommonManifold this (verts ++ [a])) eqn:E; [|reflexivity].
    apply hasCommonManifold_true in E. destruct E as [_ [x Hx]].
    assert (Htrue : hasCommonManifold this verts = true).
    { apply hasCommonManifold_true. split.
      - intros ->. simpl in Hlen. lia.
      - exists x. intros b Hb. apply Hx. apply in_or_app. now left. }
    congruence.
Qed.

End OracleProperties.

(** * Properties of the dual builder *)

Section DualProperties.

Context {F : Type}.
Variable this : SurfaceQuadrangulation F.

Lemma addDest_keys (i j : Z) (m : list (Z * list Z)) :
  map fst (addDest i j m) = IdSet.insert i (map fst m).
Proof.
  induction m as [|[i' v] m IH]; simpl; [reflexivity|].
  destruct (i <? i'); [reflexivity|].
  destruct (i =? i'); simpl; [reflexivity|]. now rewrite IH.
Qed.

Lemma destsOf_below (s : Z) (m : list (Z * list Z)) :
  Forall (Z.lt s) (map fst m) -> destsOf s m = [].
Proof.
  unfold destsOf. induction m as [|[i v] m IH]; simpl; intros H;
    [reflexivity|].
  inversion H; subst. destruct (Z.eqb_spec i s); [lia|]. now apply IH.
Qed.

Lemma destsOf_addDest (s i j : Z) (m : list (Z * list Z)) :
  IdSet.ascending (map fst m) ->
  destsOf s (addDest i j m)
  = if s =? i then destsOf s m ++ [j] else destsOf s m.
Proof.
  unfold IdSet.ascending.
  induction m as [|[i' v] m IH]; simpl; intros Hs.
  - unfold destsOf. simpl. rewrite (Z.eqb_sym i s).
    destruct (s =? i); reflexivity.
  - inversion Hs as [|? ? Hs' Hlt]; subst.
    destruct (Z.ltb_spec i i').
    + unfold destsOf at 1. simpl. rewrite (Z.eqb_sym i s).
      destruct (Z.eqb_spec s i); [|reflexivity]. subst s.
      rewrite (destsOf_below i ((i', v) :: m)); [reflexivity|].
      simpl. constructor; [assumption|].
      eapply Forall_impl; [|exact Hlt]. simpl. intros. lia.
    + destruct (Z.eqb_spec i i').
      * subst i'. unfold destsOf. simpl. rewrite (Z.eqb_sym i s).
        destruct (s =? i); reflexivity.
      * specialize (IH Hs'). unfold destsOf in *. simpl.
        destruct (Z.eqb_spec i' s); [|exact IH].
        subst s. destruct (Z.eqb_spec i' i); [congruence | reflexivity].
Qed.

Lemma addDest_nonempty (i j : Z) (m : list (Z * list Z)) :
  (forall e, In e m -> snd e <> []) ->
  forall e, In e (addDest i j m) -> snd e <> [].
Proof.
  induction m as [|[i' v] m IH]; simpl; intros H e He.
  - destruct He as [<-|[]]. discriminate.
  - destruct (i <? i').
    + destruct He as [<-|He]; [discriminate | now apply H].
    + destruct (i =? i').
      * destruct He as [<-|He]; [|apply H; now right].
        simpl. intros E. now apply app_eq_nil in E as [_ E].
      * destruct He as [<-|He]; [apply (H (i', v)); now left|].
        apply IH; [|assumption]. intros e' He'. apply H. now right.
Qed.

(** The invariant of the loop of lines 85-101. *)
Lemma fold_addDest (sepEdges : list (Z * Z)) (m : list (Z * list Z)) :
  IdSet.ascending (map fst m) ->
  (forall e, In e m -> snd e <> []) ->
  let m' := fold_left (fun m p => addDest (sourceOf this p) (destOf this p) m)
                      sepEdges m in
  IdSet.ascending (map fst m')
  /\ (forall e, In e m' -> snd e <> [])
  /\ forall s, destsOf s m' = destsOf s m ++ destinations this sepEdges s.
Proof.
  revert m. induction sepEdges as [|p sepEdges IH]; intros m Hs Hne; simpl.
  - split; [assumption|]. split; [assumption|].
    intros s. unfold destinations. simpl. now rewrite app_nil_r.
  - destruct (IH (addDest (sourceOf this p) (destOf this p) m)) as [H1 [H2 H3]].
    + rewrite addDest_keys. now apply IdSet.insert_ascending.
    + now apply addDest_nonempty.
    + split; [assumption|]. split; [assumption|].
      intros s. rewrite H3, destsOf_addDest by assumption.
      unfold destinations. simpl. rewrite (Z.eqb_sym (sourceOf this p) s).
      destruct (s =? sourceOf this p); simpl; [|reflexivity].
      now rewrite <- app_assoc.
Qed.

Lemma destsOf_In (s : Z) (ext : list Z) (m : list (Z * list Z)) :
  NoDup (map fst m) -> In (s, ext) m -> destsOf s m = ext.
Proof.
  unfold destsOf. induction m as [|[i v] m IH]; simpl; intros Hnd Hin;
    [destruct Hin|].
  inversion Hnd as [|? ? Hni Hnd']; subst.
  destruct Hin as [E|Hin].
  - injection E as -> ->. now rewrite Z.eqb_refl.
  - destruct (Z.eqb_spec i s).
    + subst i. exfalso. apply Hni. apply in_map_iff. now exists (s, ext).
    + now apply IH.
Qed.

Lemma In_destsOf (s : Z) (m : list (Z * list Z)) :
  destsOf s m <> [] -> In (s, destsOf s m) m.
Proof.
  unfold destsOf. destruct (find _ m) as [[i v]|] eqn:E; [|congruence].
  intros _. apply find_some in E. destruct E as [Hin Hk].
  simpl in *. apply Z.eqb_eq in Hk. now subst.
Qed.

(** The map of lines 85-101 has one entry for each source of an edge, with
    the destinations of that source. *)
Lemma sourceDests_entries (sepEdges : list (Z * Z)) (s : Z) (ext : list Z) :
  In (s, ext) (sourceDests this sepEdges)
  <-> ext <> [] /\ ext = destinations this sepEdges s.
Proof.
  unfold sourceDests.
  destruct (fold_addDest sepEdges []) as [H1 [H2 H3]];
    [constructor | intros e [] |].
  simpl in *.
  split.
  - intros Hin. split; [apply (H2 _ Hin)|].
    rewrite <- (H3 s). symmetry. apply destsOf_In; [|assumption].
    now apply IdSet.ascending_NoDup.
  - intros [Hne ->]. rewrite <- (H3 s) in *. now apply In_destsOf.
Qed.

Lemma sourceDests_keys (sepEdges : list (Z * Z)) :
  NoDup (map fst (sourceDests this sepEdges)).
Proof.
  apply IdSet.ascending_NoDup. unfold sourceDests.
  apply (fold_addDest sepEdges []); [constructor | intros e []].
Qed.

Lemma fold_app_flat_map {A : Type} (f : A -> list Z) (l : list A)
      (cells : list Z) :
  fold_left (fun cells a => cells ++ f a) l cells = cells ++ flat_map f l.
Proof.
  revert cells. induction l as [|a l IH]; intros cells; simpl.
  - now rewrite app_nil_r.
  - now rewrite IH, app_assoc.
Qed.

(** C4, as the code has it. [dualQuadrangulate] appends to the cell buffer,
    for each source in ascending order, what [dualCells] gives for its
    destinations: nothing when their number is not four, and one quad
    [4, e0, j, k, l] when they are [e0, e1, e2, e3]. The first corner is the
    first destination [e0], and the index of the source plays no part in the
    quad. The third corner [k] is the first of [e1], [e2], [e3] that has the
    type of [e0], and [j] and [l] are the two others: [e2] and [e3] when [k]
    is [e1], [e1] and [e3] when [k] is [e2], [e2] and [e1] when [k] is
    [e3]. When none of the three has the type of [e0], the four corners are
    [e0]. *)
Theorem dualQuadrangulate_quads (sepEdges : list (Z * Z)) (cells : list Z) :
  dualQuadrangulate this sepEdges cells
  = cells ++ flat_map (dualCells this) (sourceDests this sepEdges)
  /\ NoDup (map fst (sourceDests this sepEdges))
  /\ (forall s, destinations this sepEdges s <> [] ->
                In (s, destinations this sepEdges s)
                   (sourceDests this sepEdges))
  /\ forall s ext,
       In (s, ext) (sourceDests this sepEdges) ->
       ext = destinations this sepEdges s
       /\ (length ext <> 4%nat -> dualCells this (s, ext) = [])
       /\ forall e0 e1 e2 e3,
            ext = [e0; e1; e2; e3] ->
            let ty := criticalPointsType_ this in
            exists j k l,
              dualCells this (s, ext) = [4; e0; j; k; l]
              /\ ((ty e1 = ty e0 /\ j = e2 /\ k = e1 /\ l = e3)
                  \/ (ty e1 <> ty e0 /\ ty e2 = ty e0
                      /\ j = e1 /\ k = e2 /\ l = e3)
                  \/ (ty e1 <> ty e0 /\ ty e2 <> ty e0 /\ ty e3 = ty e0
                      /\ j = e2 /\ k = e3 /\ l = e1)
                  \/ (ty e1 <> ty e0 /\ ty e2 <> ty e0 /\ ty e3 <> ty e0
                      /\ j = e0 /\ k = e0 /\ l = e0)).
Proof.
  split; [apply fold_app_flat_map|].
  split; [apply sourceDests_keys|].
  split; [intros s Hne; now apply sourceDests_entries|].
  intros s ext Hin. split; [now apply sourceDests_entries in Hin|]. split.
  - intros Hlen. unfold dualCells. simpl.
    destruct ext as [|e0 [|e1 [|e2 [|e3 [|e4 ext]]]]]; try reflexivity.
    now contradiction Hlen.
  - intros e0 e1 e2 e3 -> ty. unfold dualCells. simpl. fold ty.
    destruct (Z.eqb_spec (ty e1) (ty e0)) as [E1|E1].
    { exists e2, e1, e3. split; [reflexivity|]. left. tauto. }
    destruct (Z.eqb_spec (ty e2) (ty e0)) as [E2|E2].
    { exists e1, e2, e3. split; [reflexivity|]. right. left. tauto. }
    destruct (Z.eqb_spec (ty e3) (ty e0)) as [E3|E3].
    { exists e2, e3, e1. split; [reflexivity|]. right. right. left. tauto. }
    exists e0, e0, e0. split; [reflexivity|]. right. right. right. tauto.
Qed.

(** The search of lines 87-97 ends at the first index of the cell, below
    [criticalPointsNumber_], when the cell is the cell of a critical
    point. *)
Lemma scanCellIds_found (c : Z) (turns : nat) (i k : Z) :
  i <= k < i + Z.of_nat turns ->
  criticalPointsCellIds_ this k = c ->
  i <= scanCellIds this c turns i <= k.
Proof.
  revert i. induction turns as [|turns IH]; intros i Hk Hc; [lia|].
  cbn [scanCellIds].
  destruct (Z.eqb_spec c (criticalPointsCellIds_ this i)); [lia|].
  assert (i <> k) by congruence.
  specialize (IH (i + 1)). lia.
Qed.

Lemma criticalPointOfCell_valid (c : Z) :
  (exists k, 0 <= k < criticalPointsNumber_ this
             /\ criticalPointsCellIds_ this k = c) ->
  0 <= criticalPointOfCell this c < criticalPointsNumber_ this.
Proof.
  intros [k [Hk Hc]]. unfold criticalPointOfCell.
  pose proof (scanCellIds_found c (Z.to_nat (criticalPointsNumber_ this)) 0 k).
  lia.
Qed.

Lemma quadsIn_app_block (blk rest : list Z) :
  blk = [] \/ length blk = 5%nat ->
  quadsIn (blk ++ rest) = quadsIn blk ++ quadsIn rest.
Proof.
  intros [->|H]; [reflexivity|].
  destruct blk as [|n [|a [|b [|c [|d [|x blk]]]]]]; try discriminate.
  reflexivity.
Qed.

Lemma dualCells_block (elt : Z * list Z) :
  dualCells this elt = [] \/ length (dualCells this elt) = 5%nat.
Proof.
  unfold dualCells.
  destruct (snd elt) as [|e0 [|e1 [|e2 [|e3 [|e4 ext]]]]]; try (now left).
  right.
  repeat match goal with |- context [if ?c then _ else _] => destruct c end;
    reflexivity.
Qed.

(** The corners of the quad of a source are among its destinations. *)
Lemma dualCells_corners (elt : Z * list Z) (g : list Z) :
  In g (quadsIn (dualCells this elt)) ->
  exists a1 a2 a3 a4,
    g = [4; a1; a2; a3; a4]
    /\ forall a, In a [a1; a2; a3; a4] -> In a (snd elt).
Proof.
  unfold dualCells.
  destruct (snd elt) as [|e0 [|e1 [|e2 [|e3 [|e4 ext]]]]]; simpl; try tauto.
  repeat match goal with |- context [if ?c then _ else _] => destruct c end;
    simpl; intros [<-|[]]; do 4 eexists; (split; [reflexivity|]);
    simpl; intuition.
Qed.

(** When every separatrix ends in the cell of a critical point, every group
    that the dual builder writes is a quad of four indices of critical
    points. *)
Lemma dualQuadrangulate_corners_valid (sepEdges : list (Z * Z)) :
  (forall p, In p sepEdges ->
             exists k, 0 <= k < criticalPointsNumber_ this
                       /\ criticalPointsCellIds_ this k = snd p) ->
  forall g, In g (quadsIn (dualQuadrangulate this sepEdges [])) ->
            exists a1 a2 a3 a4,
              g = [4; a1; a2; a3; a4]
              /\ Forall (fun a => 0 <= a < criticalPointsNumber_ this)
                        [a1; a2; a3; a4].
Proof.
  intros Hmatch g Hg. unfold dualQuadrangulate in Hg.
  rewrite fold_app_flat_map in Hg. simpl in Hg.
  assert (Hsrc : forall elt, In elt (sourceDests this sepEdges) ->
                             forall a, In a (snd elt) ->
                                       0 <= a < criticalPointsNumber_ this).
  { intros [s ext] Hin a Ha. apply sourceDests_entries in Hin as [_ ->].
    simpl in Ha. unfold destinations in Ha. apply in_map_iff in Ha.
    destruct Ha as [p [<- Hp]]. apply filter_In in Hp as [Hp _].
    apply criticalPointOfCell_valid. now apply Hmatch. }
  revert Hsrc Hg. generalize (sourceDests this sepEdges) as m.
  induction m as [|elt m IH]; simpl; intros Hsrc Hg; [destruct Hg|].
  rewrite quadsIn_app_block in Hg by apply dualCells_block.
  apply in_app_iff in Hg. destruct Hg as [Hg|Hg].
  - apply dualCells_corners in Hg.
    destruct Hg as [a1 [a2 [a3 [a4 [-> Hin]]]]].
    exists a1, a2, a3, a4. split; [reflexivity|].
    apply Forall_forall. intros a Ha. apply (Hsrc elt); [now left|].
    now apply Hin.
  - apply IH; [|assumption]. intros elt' Hin. apply Hsrc. now right.
Qed.

End DualProperties.

(** * Properties of the direct builder *)

Section DirectProperties.

Context {F : Type}.
Variable this : SurfaceQuadrangulation F.

Lemma quadsIn_cells (qs : list Quad) :
  quadsIn (flat_map quadCells qs) = map quadCells qs.
Proof.
  induction qs as [|[[[a b] c] d] qs IH]; simpl; [reflexivity|].
  now rewrite IH.
Qed.

Lemma degenerateGroup_cells (qs : list Quad) :
  length (filter degenerateGroup (map quadCells qs)) = countDegenerate qs.
Proof.
  unfold countDegenerate.
  induction qs as [|[[[a b] c] d] qs IH]; simpl; [reflexivity|].
  unfold degenerateGroup at 1. simpl.
  destruct (b =? d); simpl; now rewrite IH.
Qed.

Lemma wrap64_succ (z : Z) : wrap64 (wrap64 z + 1) = wrap64 (z + 1).
Proof. unfold wrap64. now rewrite Z.add_mod_idemp_l by lia. Qed.

(** In the pairs of an ascending list the first component is below the
    second. *)
Lemma pairsOf_ascending (l : list Z) (j k : Z) :
  IdSet.ascending l -> In (j, k) (pairsOf l) -> j < k.
Proof.
  unfold IdSet.ascending. induction 1 as [|x l Hs IH Hx]; simpl; [tauto|].
  rewrite in_app_iff, in_map_iff. intros [[y [E Hy]]|H]; [|auto].
  injection E as <- <-. rewrite Forall_forall in Hx. now apply Hx.
Qed.

Lemma pairsOf_NoDup {A : Type} (l : list A) : NoDup l -> NoDup (pairsOf l).
Proof.
  induction 1 as [|x l Hx Hnd IH]; simpl; [constructor|].
  apply NoDup_app; [| assumption |].
  - apply Finite.Injective_map_NoDup; [|assumption].
    intros a b E. now injection E.
  - intros p Hp Hp'. apply in_map_iff in Hp. destruct Hp as [y [<- Hy]].
    apply Hx. clear - Hp'. induction l as [|z l IH]; simpl in *; [tauto|].
    apply in_app_iff in Hp'. destruct Hp' as [H|H]; [|right; auto].
    apply in_map_iff in H. destruct H as [w [E _]]. injection E as -> _.
    now left.
Qed.

Lemma pairsOf_In {A : Type} (l : list A) (x y : A) :
  In (x, y) (pairsOf l) -> In x l /\ In y l.
Proof.
  induction l as [|z l IH]; simpl; [tauto|].
  rewrite in_app_iff, in_map_iff. intros [[w [E Hw]]|H].
  - injection E as <- <-. tauto.
  - destruct (IH H). tauto.
Qed.

(** There are [n (n - 1) / 2] pairs in a list of [n] entries. *)
Lemma pairsOf_length {A : Type} (l : list A) :
  (2 * length (pairsOf l) = length l * (length l - 1))%nat.
Proof.
  induction l as [|z l IH]; simpl; [reflexivity|].
  rewrite length_app, length_map. nia.
Qed.

Lemma bump_add (a b : nat) (z : Z) : bump (a + b) z = bump b (bump a z).
Proof.
  unfold bump. rewrite Nat.add_comm. apply Nat.iter_add.
Qed.

Lemma bump_zero (n : nat) : bump n 0 = wrap64 (Z.of_nat n).
Proof.
  induction n as [|n IH]; [reflexivity|].
  unfold bump in *. rewrite Nat.iter_succ. simpl Nat.iter in IH.
  rewrite IH, wrap64_succ. f_equal. lia.
Qed.

Lemma degeneratePair_single (Si Sk : IdSet.t) :
  degeneratePair Si Sk = true ->
  (2 <=? length (IdSet.inter Si Sk))%nat = false.
Proof.
  unfold degeneratePair. intros H. apply andb_true_iff in H as [H _].
  apply Nat.eqb_eq in H. rewrite H. reflexivity.
Qed.

(** What lines 181-229 do to the cell buffer and to the counter. *)
Lemma emitPair_view (i : Z) (Si : IdSet.t) (k : Z) (Sk : IdSet.t)
      (e : Emission) :
  emitPair this i Si k Sk e
  = (fst e ++ flat_map quadCells (pairQuads this i Si k Sk),
     bump (if degeneratePair Si Sk then 1 else 0) (snd e)).
Proof.
  unfold emitPair, pairQuads.
  fold (degeneratePair Si Sk).
  destruct (2 <=? length (IdSet.inter Si Sk))%nat eqn:E2.
  - assert (Hd : degeneratePair Si Sk = false).
    { destruct (degeneratePair Si Sk) eqn:Hd; [|reflexivity].
      apply degeneratePair_single in Hd. congruence. }
    rewrite Hd. simpl bump.
    generalize (pairsOf (IdSet.inter Si Sk)) as ps. intros ps. revert e.
    induction ps as [|[j l] ps IH]; intros e; simpl.
    + rewrite app_nil_r. now destruct e.
    + rewrite IH. destruct (hasCommonManifold this [j; l]); simpl.
      * now rewrite <- app_assoc.
      * reflexivity.
  - destruct (degeneratePair Si Sk); simpl.
    + reflexivity.
    + rewrite app_nil_r. now destruct e.
Qed.

Lemma countDegenerate_app (qs qs' : list Quad) :
  countDegenerate (qs ++ qs') = (countDegenerate qs + countDegenerate qs')%nat.
Proof. unfold countDegenerate. now rewrite filter_app, length_app. Qed.

(** Between two destinations whose sets are ascending, the only degenerate
    quad is the one of line 219. *)
Lemma countDegenerate_pairQuads (i : Z) (Si : IdSet.t) (k : Z) (Sk : IdSet.t) :
  IdSet.ascending Si ->
  countDegenerate (pairQuads this i Si k Sk)
  = if degeneratePair Si Sk then 1%nat else 0%nat.
Proof.
  intros Hs. unfold pairQuads.
  destruct (2 <=? length (IdSet.inter Si Sk))%nat eqn:E2.
  - assert (Hd : degeneratePair Si Sk = false).
    { destruct (degeneratePair Si Sk) eqn:Hd; [|reflexivity].
      apply degeneratePair_single in Hd. congruence. }
    rewrite Hd. unfold countDegenerate.
    assert (Hlt : forall jl, In jl (pairsOf (IdSet.inter Si Sk)) ->
                             fst jl < snd jl).
    { intros [j l] Hin.
      apply (pairsOf_ascending (IdSet.inter Si Sk)); [|assumption].
      now apply IdSet.inter_ascending. }
    revert Hlt. generalize (pairsOf (IdSet.inter Si Sk)) as ps.
    induction ps as [|[j l] ps IH]; intros Hlt; simpl; [reflexivity|].
    assert (IH' := IH (fun jl H => Hlt jl (or_intror H))).
    destruct (hasCommonManifold this [j; l]); simpl; [|exact IH'].
    specialize (Hlt (j, l) (or_introl eq_refl)). simpl in Hlt.
    destruct (Z.eqb_spec j l); [lia | exact IH'].
  - destruct (degeneratePair Si Sk); [|reflexivity].
    unfold countDegenerate. simpl. now rewrite Z.eqb_refl.
Qed.

(** The inner loop, for a destination [i] with sources. *)
Lemma emitFrom_view (i : Z) (Si : IdSet.t) (later : list (Z * IdSet.t))
      (e : Emission) :
  IdSet.is_empty Si = false ->
  let pairs := filter (enumerated this) (map (pair (i, Si)) later) in
  emitFrom this i Si later e
  = (fst e ++ flat_map quadCells (flat_map (quadsBetween this) pairs),
     bump (length (filter degenerateBetween pairs)) (snd e)).
Proof.
  intros Hi. unfold emitFrom. revert e.
  induction later as [|[k Sk] later IH]; intros e; simpl.
  - rewrite app_nil_r. now destruct e.
  - rewrite Hi. simpl.
    destruct (IdSet.is_empty Sk); simpl; [apply IH|].
    destruct (criticalPointsType_ this k =? criticalPointsType_ this i);
      simpl; [apply IH|].
    rewrite IH, emitPair_view. simpl fst. simpl snd.
    rewrite flat_map_app, <- app_assoc. f_equal.
    unfold degenerateBetween at 2. simpl fst. simpl snd.
    destruct (degeneratePair Si Sk); [|reflexivity].
    cbn [length]. now rewrite <- bump_add.
Qed.

Lemma enumerated_no_source (i : Z) (Si : IdSet.t)
      (later : list (Z * IdSet.t)) :
  IdSet.is_empty Si = true ->
  filter (enumerated this) (map (pair (i, Si)) later) = [].
Proof.
  intros Hi. induction later as [|[k Sk] later IH]; simpl; [reflexivity|].
  now rewrite Hi.
Qed.

(** The two loops of lines 162-231: the groups appended to the cell buffer
    are those of [allQuads], and the counter is incremented once for each
    of the [degeneratePairs]. *)
Lemma emitQuads_view (dests : list (Z * IdSet.t)) (e : Emission) :
  emitQuads this dests e
  = (fst e ++ flat_map quadCells (allQuads this dests),
     bump (length (degeneratePairs this dests)) (snd e)).
Proof.
  unfold allQuads, degeneratePairs, enumeratedPairs. revert e.
  induction dests as [|[i Si] later IH]; intros e; simpl.
  - rewrite app_nil_r. now destruct e.
  - rewrite IH, !filter_app, !flat_map_app, length_app, bump_add.
    destruct (IdSet.is_empty Si) eqn:Hi.
    + rewrite (enumerated_no_source i Si later Hi). reflexivity.
    + rewrite (emitFrom_view i Si later e Hi). simpl.
      now rewrite <- app_assoc.
Qed.

(** With ascending sets of sources, the degenerate quads are as many as the
    pairs on which the counter is incremented. *)
Lemma countDegenerate_allQuads (dests : list (Z * IdSet.t)) :
  Forall (fun d => IdSet.ascending (snd d)) dests ->
  countDegenerate (allQuads this dests) = length (degeneratePairs this dests).
Proof.
  intros Hasc. unfold allQuads, degeneratePairs, enumeratedPairs.
  assert (H : forall ik, In ik (filter (enumerated this) (pairsOf dests)) ->
                         IdSet.ascending (snd (fst ik))).
  { intros [x y] Hin. apply filter_In in Hin as [Hin _].
    apply pairsOf_In in Hin as [Hx _]. rewrite Forall_forall in Hasc.
    now apply Hasc. }
  revert H. generalize (filter (enumerated this) (pairsOf dests)) as ps.
  induction ps as [|ik ps IH]; intros H; simpl; [reflexivity|].
  rewrite countDegenerate_app, IH by (intros; apply H; now right).
  unfold quadsBetween at 1. rewrite countDegenerate_pairQuads
    by (apply H; now left).
  unfold degenerateBetween at 2.
  destruct (degeneratePair _ _); reflexivity.
Qed.

Lemma degeneratePairs_bound (dests : list (Z * IdSet.t)) :
  (length (degeneratePairs this dests) <= length dests * length dests)%nat.
Proof.
  unfold degeneratePairs, enumeratedPairs.
  etransitivity; [apply filter_length_le|].
  etransitivity; [apply filter_length_le|].
  pose proof (pairsOf_length dests). nia.
Qed.

(** *** The vector of sets built by lines 140-159 *)

Lemma forEach_invariant {A S : Type} (P : S -> Prop) (l : list A)
      (body : A -> S -> option S) (s s' : S) :
  (forall a s1 s2, In a l -> P s1 -> body a s1 = Some s2 -> P s2) ->
  P s -> forEach l body s = Some s' -> P s'.
Proof.
  revert s. induction l as [|a l IH]; intros s Hbody Hs; simpl.
  - intros E. now injection E as <-.
  - destruct (body a s) as [s1|] eqn:E; [|discriminate].
    apply IH.
    + intros a' s1' s2' Ha'. apply Hbody. now right.
    + apply (Hbody a s s1); [now left | assumption | assumption].
Qed.

Lemma modifyAt_nth_error {A : Type} (n : nat) (f : A -> A) (v v' : list A) :
  modifyAt n f v = Some v' ->
  length v' = length v
  /\ forall m, nth_error v' m
               = if (m =? n)%nat then option_map f (nth_error v m)
                 else nth_error v m.
Proof.
  revert n v'. induction v as [|x v IH]; intros n v'; simpl; [discriminate|].
  destruct n as [|n].
  - intros E. injection E as <-. split; [reflexivity|].
    intros [|m]; reflexivity.
  - destruct (modifyAt n f v) as [w|] eqn:E; [|discriminate].
    simpl. intros E'. injection E' as <-.
    destruct (IH n w E) as [Hlen Hnth]. split; [simpl; now rewrite Hlen|].
    intros [|m]; simpl; [reflexivity | apply Hnth].
Qed.

Lemma In_range (n i : Z) : In i (range n) <-> 0 <= i < n.
Proof.
  unfold range. rewrite in_map_iff. split.
  - intros [m [<- Hm]]. apply in_seq in Hm. lia.
  - intros H. exists (Z.to_nat i). split; [lia|]. apply in_seq. lia.
Qed.

Lemma recordSeparatrix_invariant (sepEdges : list (Z * Z)) (i j : Z)
      (st st' : list IdSet.t * list Z) :
  0 <= i < criticalPointsNumber_ this ->
  0 <= j < criticalPointsNumber_ this ->
  destsInvariant this sepEdges st ->
  recordSeparatrix i j st = Some st' ->
  destsInvariant this sepEdges st'.
Proof.
  intros Hi Hj [Hlen Hinv]. unfold recordSeparatrix, modifyAtZ.
  destruct (Z.ltb_spec j 0); [discriminate|].
  destruct (modifyAt (Z.to_nat j) (IdSet.insert i) (fst st)) as [dests|] eqn:E;
    [|discriminate].
  destruct (modifyAt (Z.to_nat j) _ (snd st)); [|discriminate].
  destruct (i <? 0); [discriminate|].
  destruct (modifyAt (Z.to_nat i) _ _); [|discriminate].
  intros E'. injection E' as <-.
  apply modifyAt_nth_error in E. destruct E as [Hl Hn].
  split; [simpl; congruence|]. simpl. intros n S HS.
  rewrite Hn in HS. destruct (Nat.eqb_spec n (Z.to_nat j)).
  - destruct (nth_error (fst st) n) as [S0|] eqn:E0; [|discriminate].
    injection HS as <-. destruct (Hinv n S0 E0) as [Ha Hb].
    split; [now apply IdSet.insert_ascending|].
    intros x Hx. apply IdSet.In_insert in Hx. destruct Hx as [->|Hx].
    + split; [assumption | lia].
    + now apply Hb.
  - now apply Hinv.
Qed.

Lemma mapSeparatrices_invariant (sepEdges : list (Z * Z))
      (st : list IdSet.t * list Z) :
  mapSeparatrices this sepEdges = Some st -> destsInvariant this sepEdges st.
Proof.
  unfold mapSeparatrices.
  destruct (criticalPointsNumber_ this <? 0); [discriminate|].
  apply (forEach_invariant (destsInvariant this sepEdges)).
  - intros p s1 s2 _ H1.
    apply (forEach_invariant (destsInvariant this sepEdges)); [|assumption].
    intros i s3 s4 Hi H3.
    destruct (fst p =? criticalPointsCellIds_ this i).
    + apply (forEach_invariant (destsInvariant this sepEdges)); [|assumption].
      intros j s5 s6 Hj H5.
      destruct (snd p =? criticalPointsCellIds_ this j).
      * apply In_range in Hi, Hj.
        now apply recordSeparatrix_invariant.
      * intros E. now injection E as <-.
    + intros E. now injection E as <-.
  - split; simpl.
    + apply repeat_length.
    + intros n S HS. apply nth_error_In, repeat_spec in HS. subst S.
      split; [constructor | intros i []].
Qed.

(** *** The vector with its indices *)

Lemma In_indexed_from {A : Type} (v : list A) (start : nat) (i : Z) (x : A) :
  In (i, x) (combine (map Z.of_nat (seq start (length v))) v)
  <-> exists n, i = Z.of_nat (start + n) /\ nth_error v n = Some x.
Proof.
  revert start. induction v as [|y v IH]; intros start; simpl.
  - split; [tauto|]. intros [[|n] [_ H]]; discriminate.
  - rewrite IH. split.
    + intros [E|[n [-> Hn]]].
      * injection E as <- <-. exists 0%nat. now rewrite Nat.add_0_r.
      * exists (S n). split; [f_equal; lia | assumption].
    + intros [[|n] [-> Hn]].
      * left. simpl in Hn. injection Hn as <-. now rewrite Nat.add_0_r.
      * right. exists n. split; [f_equal; lia | assumption].
Qed.

Lemma In_indexed {A : Type} (v : list A) (i : Z) (x : A) :
  In (i, x) (indexed v)
  <-> exists n, i = Z.of_nat n /\ nth_error v n = Some x.
Proof. unfold indexed. now rewrite In_indexed_from. Qed.

Lemma indexed_functional {A : Type} (v : list A) (i : Z) (x y : A) :
  In (i, x) (indexed v) -> In (i, y) (indexed v) -> x = y.
Proof.
  rewrite !In_indexed. intros [n [-> Hn]] [m [E Hm]].
  apply Nat2Z.inj in E. subst m. congruence.
Qed.

Lemma indexed_length {A : Type} (v : list A) :
  length (indexed v) = length v.
Proof.
  unfold indexed. rewrite length_combine, length_map, length_seq. lia.
Qed.

Lemma indexed_NoDup {A : Type} (v : list A) : NoDup (indexed v).
Proof.
  unfold indexed. generalize 0%nat as start.
  induction v as [|y v IH]; intros start; simpl; constructor.
  - intros Hin. apply In_indexed_from in Hin.
    destruct Hin as [n [E _]]. lia.
  - apply IH.
Qed.

Lemma nth_error_indexed {A : Type} (v : list A) (n : nat) (x : A) :
  nth_error v n = Some x -> nth_error (indexed v) n = Some (Z.of_nat n, x).
Proof.
  unfold indexed. intros H.
  assert (G : forall start,
             nth_error (combine (map Z.of_nat (seq start (length v))) v) n
             = Some (Z.of_nat (start + n), x)).
  { revert n H. induction v as [|y v IH]; intros [|n] H start; simpl in *;
      try discriminate.
    - injection H as <-. now rewrite Nat.add_0_r.
    - rewrite (IH n H (S start)). do 2 f_equal. lia. }
  apply (G 0%nat).
Qed.

Lemma pairsOf_nth {A : Type} (l : list A) (n m : nat) (x y : A) :
  (n < m)%nat -> nth_error l n = Some x -> nth_error l m = Some y ->
  In (x, y) (pairsOf l).
Proof.
  revert n m. induction l as [|z l IH]; intros [|n] [|m] Hlt Hn Hm;
    simpl in *; try discriminate; try lia.
  - injection Hn as <-. apply in_or_app. left. apply in_map.
    now apply nth_error_In in Hm.
  - apply in_or_app. right. apply (IH n m); [lia | assumption | assumption].
Qed.

Lemma In_pairsOf_ascending (l : list Z) (j k : Z) :
  IdSet.ascending l -> In j l -> In k l -> j < k -> In (j, k) (pairsOf l).
Proof.
  unfold IdSet.ascending. induction 1 as [|x l Hs IH Hx]; simpl; [tauto|].
  rewrite Forall_forall in Hx. intros [->|Hj] [->|Hk] Hlt.
  - lia.
  - apply in_or_app. left. now apply in_map.
  - specialize (Hx j Hj). lia.
  - apply in_or_app. right. now apply IH.
Qed.

Lemma NoDup_flat_map_blocks {A B : Type} (f : A -> list B) (l : list A) :
  NoDup l ->
  (forall x, In x l -> NoDup (f x)) ->
  (forall x y b, In x l -> In y l -> In b (f x) -> In b (f y) -> x = y) ->
  NoDup (flat_map f l).
Proof.
  induction 1 as [|x l Hx Hnd IH]; intros Hf Hsep; simpl; [constructor|].
  apply NoDup_app.
  - apply Hf. now left.
  - apply IH.
    + intros y Hy. apply Hf. now right.
    + intros y z b Hy Hz. apply Hsep; now right.
  - intros b Hb Hb'. apply in_flat_map in Hb'. destruct Hb' as [y [Hy Hby]].
    apply Hx. rewrite (Hsep x y b); auto; [now left | now right].
Qed.

(** The first and the third corner of a quad are the two destinations it
    was made for. *)
Lemma pairQuads_corners (i : Z) (Si : IdSet.t) (k : Z) (Sk : IdSet.t)
      (a b c d : Z) :
  In (a, b, c, d) (pairQuads this i Si k Sk) -> a = i /\ c = k.
Proof.
  unfold pairQuads.
  destruct (2 <=? length (IdSet.inter Si Sk))%nat.
  - rewrite in_map_iff. intros [jl [E _]]. injection E as <- _ <- _. tauto.
  - destruct (degeneratePair Si Sk); simpl; [|tauto].
    intros [E|[]]. injection E as <- _ <- _. tauto.
Qed.

Lemma pairQuads_NoDup (i : Z) (Si : IdSet.t) (k : Z) (Sk : IdSet.t) :
  IdSet.ascending Si -> NoDup (pairQuads this i Si k Sk).
Proof.
  intros Hs. unfold pairQuads.
  destruct (2 <=? length (IdSet.inter Si Sk))%nat.
  - apply Finite.Injective_map_NoDup.
    + intros [j l] [j' l'] E. simpl in E. now injection E as -> ->.
    + apply NoDup_filter, pairsOf_NoDup, IdSet.ascending_NoDup.
      now apply IdSet.inter_ascending.
  - destruct (degeneratePair Si Sk); repeat constructor. intros [].
Qed.

Lemma allQuads_NoDup (dests : list (Z * IdSet.t)) :
  NoDup dests -> functional dests ->
  Forall (fun d => IdSet.ascending (snd d)) dests ->
  NoDup (allQuads this dests).
Proof.
  intros Hnd Hfun Hasc. unfold allQuads, enumeratedPairs.
  rewrite Forall_forall in Hasc.
  apply NoDup_flat_map_blocks.
  - now apply NoDup_filter, pairsOf_NoDup.
  - intros [[i Si] [k Sk]] Hin. apply filter_In in Hin as [Hin _].
    apply pairsOf_In in Hin as [Hi _]. unfold quadsBetween. simpl.
    apply pairQuads_NoDup. apply (Hasc _ Hi).
  - intros [[i Si] [k Sk]] [[i' Si'] [k' Sk']] [[[a b] c] d] Hx Hy Hbx Hby.
    apply filter_In in Hx as [Hx _]. apply filter_In in Hy as [Hy _].
    apply pairsOf_In in Hx as [Hx1 Hx2]. apply pairsOf_In in Hy as [Hy1 Hy2].
    apply pairQuads_corners in Hbx as [-> ->].
    apply pairQuads_corners in Hby as [E1 E2]. simpl in E1, E2. subst i' k'.
    now rewrite (Hfun _ _ _ Hx1 Hy1), (Hfun _ _ _ Hx2 Hy2).
Qed.

(** The quads made for two given destinations are those of their pair. *)
Lemma allQuads_between (dests : list (Z * IdSet.t)) (i : Z) (Si : IdSet.t)
      (k : Z) (Sk : IdSet.t) (b d : Z) :
  functional dests ->
  In ((i, Si), (k, Sk)) (enumeratedPairs this dests) ->
  In (i, b, k, d) (allQuads this dests)
  <-> In (i, b, k, d) (pairQuads this i Si k Sk).
Proof.
  intros Hfun Hin. unfold allQuads. rewrite in_flat_map. split.
  - intros [[[i' Si'] [k' Sk']] [Hin' Hq]]. unfold quadsBetween in Hq.
    simpl in Hq. destruct (pairQuads_corners _ _ _ _ _ _ _ _ Hq) as [-> ->].
    unfold enumeratedPairs in Hin, Hin'.
    apply filter_In in Hin as [Hin _]. apply filter_In in Hin' as [Hin' _].
    apply pairsOf_In in Hin as [H1 H2]. apply pairsOf_In in Hin' as [H1' H2'].
    now rewrite (Hfun _ _ _ H1 H1'), (Hfun _ _ _ H2 H2').
  - intros Hq. exists ((i, Si), (k, Sk)). split; assumption.
Qed.

(** The second and the fourth corner of a quad are common sources of its
    two destinations. *)
Lemma pairQuads_saddles (i : Z) (Si : IdSet.t) (k : Z) (Sk : IdSet.t)
      (a b c d : Z) :
  In (a, b, c, d) (pairQuads this i Si k Sk) ->
  In b (IdSet.inter Si Sk) /\ In d (IdSet.inter Si Sk).
Proof.
  unfold pairQuads.
  destruct (2 <=? length (IdSet.inter Si Sk))%nat.
  - rewrite in_map_iff. intros [[j l] [E Hin]]. simpl in E.
    injection E as _ <- _ <-. apply filter_In in Hin as [Hin _].
    now apply pairsOf_In in Hin.
  - destruct (degeneratePair Si Sk) eqn:Hd; simpl; [|tauto].
    intros [E|[]]. injection E as _ <- _ <-.
    unfold degeneratePair in Hd. apply andb_true_iff in Hd as [Hd _].
    apply Nat.eqb_eq in Hd.
    destruct (IdSet.inter Si Sk) as [|h tl]; [discriminate|].
    simpl. tauto.
Qed.

(** *** Runs that return *)

Lemma forEach_returns {A S : Type} (P : S -> Prop) (l : list A)
      (body : A -> S -> option S) (s : S) :
  (forall a s1, In a l -> P s1 -> exists s2, body a s1 = Some s2 /\ P s2) ->
  P s -> exists s', forEach l body s = Some s' /\ P s'.
Proof.
  revert s. induction l as [|a l IH]; intros s Hbody Hs; simpl.
  - now exists s.
  - destruct (Hbody a s (or_introl eq_refl) Hs) as [s2 [E H2]]. rewrite E.
    apply IH; [|assumption]. intros a' s1 Ha'. apply Hbody. now right.
Qed.

Lemma modifyAt_returns {A : Type} (n : nat) (f : A -> A) (v : list A) :
  (n < length v)%nat ->
  exists v', modifyAt n f v = Some v' /\ length v' = length v.
Proof.
  revert n. induction v as [|x v IH]; intros n Hn; simpl in *; [lia|].
  destruct n as [|n].
  - eexists. split; reflexivity.
  - destruct (IH n) as [v' [E Hl]]; [lia|]. rewrite E. simpl.
    eexists. split; [reflexivity|]. simpl. now rewrite Hl.
Qed.

Lemma modifyAtZ_returns {A : Type} (i : Z) (f : A -> A) (v : list A) :
  0 <= i < Z.of_nat (length v) ->
  exists v', modifyAtZ i f v = Some v' /\ length v' = length v.
Proof.
  intros Hi. unfold modifyAtZ. destruct (Z.ltb_spec i 0); [lia|].
  apply modifyAt_returns. lia.
Qed.

(** With no more critical points than edges, the writes of lines 151-154
    stay inside the two vectors. *)
Lemma mapSeparatrices_returns (sepEdges : list (Z * Z)) :
  0 <= criticalPointsNumber_ this <= Z.of_nat (length sepEdges) ->
  exists st, mapSeparatrices this sepEdges = Some st
             /\ length (snd st) = Z.to_nat (criticalPointsNumber_ this).
Proof.
  intros HN. unfold mapSeparatrices.
  destruct (Z.ltb_spec (criticalPointsNumber_ this) 0); [lia|].
  set (P := fun st : list IdSet.t * list Z =>
              length (fst st) = length sepEdges
              /\ length (snd st) = Z.to_nat (criticalPointsNumber_ this)).
  assert (Hrec : forall i j st,
             In i (range (criticalPointsNumber_ this)) ->
             In j (range (criticalPointsNumber_ this)) ->
             P st -> exists st', recordSeparatrix i j st = Some st' /\ P st').
  { intros i j st Hi Hj [H1 H2]. apply In_range in Hi, Hj.
    unfold recordSeparatrix.
    destruct (modifyAtZ_returns j (IdSet.insert i) (fst st)) as [d [-> Hd]];
      [lia|].
    destruct (modifyAtZ_returns j (fun n => wrap64 (n + 1)) (snd st))
      as [c [-> Hc]]; [lia|].
    destruct (modifyAtZ_returns i (fun n => wrap64 (n + 1)) c)
      as [c' [-> Hc']]; [lia|].
    eexists. split; [reflexivity|]. split; simpl; congruence. }
  destruct (forEach_returns P sepEdges
              (fun p =>
                 forEach (range (criticalPointsNumber_ this))
                   (fun i st =>
                      if fst p =? criticalPointsCellIds_ this i then
                        forEach (range (criticalPointsNumber_ this))
                          (fun j st' =>
                             if snd p =? criticalPointsCellIds_ this j
                             then recordSeparatrix i j st'
                             else Some st')
                          st
                      else Some st))
              (repeat IdSet.empty (length sepEdges),
               repeat 0 (Z.to_nat (criticalPointsNumber_ this))))
    as [st [E [_ H2]]].
  - intros p s1 _ H1. apply forEach_returns; [|assumption].
    intros i s2 Hi H2.
    destruct (fst p =? criticalPointsCellIds_ this i); [|now exists s2].
    apply forEach_returns; [|assumption].
    intros j s3 Hj H3.
    destruct (snd p =? criticalPointsCellIds_ this j); [|now exists s3].
    now apply Hrec.
  - split; simpl; apply repeat_length.
  - now exists st.
Qed.

(** The cell buffer made of the groups of a list of quads. *)
Lemma cells_length (qs : list Quad) :
  length (flat_map quadCells qs) = (5 * length qs)%nat.
Proof.
  induction qs as [|[[[a b] c] d] qs IH]; simpl; [reflexivity|].
  rewrite IH. lia.
Qed.

Lemma cells_groups (qs : list Quad) :
  (length (flat_map quadCells qs) / 5 = length qs)%nat.
Proof.
  rewrite cells_length, Nat.mul_comm. now apply Nat.div_mul.
Qed.

Lemma nth_error_cells (qs : list Quad) (i r : nat) (q : Quad) :
  (r < 5)%nat -> nth_error qs i = Some q ->
  nth_error (flat_map quadCells qs) (5 * i + r) = nth_error (quadCells q) r.
Proof.
  intros Hr. revert i.
  induction qs as [|[[[a b] c] d] qs IH]; intros [|i] Hi; simpl in Hi;
    try discriminate.
  - injection Hi as <-. simpl.
    do 5 (destruct r as [|r]; [reflexivity|]). lia.
  - replace (5 * S i + r)%nat with (5 + (5 * i + r))%nat by lia.
    simpl flat_map. cbn [quadCells app nth_error Nat.add].
    now apply IH.
Qed.

Lemma allQuads_valid (sepEdges : list (Z * Z)) (st : list IdSet.t * list Z) :
  destsInvariant this sepEdges st ->
  forall q, In q (allQuads this (indexed (fst st))) -> validQuad this q.
Proof.
  intros [_ Hinv] [[[a1 a2] a3] a4] Hin.
  unfold allQuads in Hin. apply in_flat_map in Hin.
  destruct Hin as [[[i Si] [k Sk]] [Hik Hq]]. unfold quadsBetween in Hq.
  simpl in Hq. destruct (pairQuads_corners _ _ _ _ _ _ _ _ Hq) as [-> ->].
  apply pairQuads_saddles in Hq. destruct Hq as [H2 H4].
  apply IdSet.In_inter in H2, H4.
  unfold enumeratedPairs in Hik. apply filter_In in Hik as [Hik _].
  apply pairsOf_In in Hik as [Hi Hk].
  apply In_indexed in Hi, Hk.
  destruct Hi as [n [-> Hn]]. destruct Hk as [m [-> Hm]].
  destruct (Hinv n Si Hn) as [_ Hi]. destruct (Hinv m Sk Hm) as [_ Hk].
  destruct (Hi a2) as [? ?]; [tauto|]. destruct (Hk a2) as [? ?]; [tauto|].
  destruct (Hi a4) as [? ?]; [tauto|].
  unfold validQuad. repeat constructor; lia.
Qed.

End DirectProperties.

Section QuadrangulateProperties.

Context {F : Type}.
Variables (fzero : F) (fadd : F -> F -> F)
          (distance : F * F * F -> F * F * F -> F)
          (absHalfDiff : F -> F -> F) (fltb : F -> F -> bool)
          (max_size : Z) (strayRead : nat -> Z * Z).
Variable this : SurfaceQuadrangulation F.

Local Abbreviation quadrangulate' :=
  (quadrangulate fzero fadd distance absHalfDiff fltb max_size strayRead this).

(** What a run of [quadrangulate] that returns leaves in the cell buffer
    and in the counter. *)
Lemma quadrangulate_emits (sepEdges : list (Z * Z)) (b b' : Buffers) :
  quadrangulate' sepEdges b = Some b' ->
  exists dests counts,
    mapSeparatrices this sepEdges = Some (dests, counts)
    /\ cellsOf b'
       = cellsOf b ++ flat_map quadCells (allQuads this (indexed dests))
    /\ ndegenOf b'
       = bump (length (degeneratePairs this (indexed dests))) (ndegenOf b).
Proof.
  unfold quadrangulate.
  destruct (mapSeparatrices this sepEdges) as [[dests counts]|];
    [|discriminate].
  rewrite emitQuads_view. cbn [fst snd].
  destruct (pointQuadNumber this _) as [quadNumber|]; [|discriminate].
  destruct (badQuads _ _) as [bad|]; [|discriminate].
  destruct (forEach (numbered bad) _ _) as [[points cache]|]; [|discriminate].
  intros E. injection E as <-. exists dests, counts. simpl. tauto.
Qed.

Lemma indexed_ascending (sepEdges : list (Z * Z))
      (st : list IdSet.t * list Z) :
  destsInvariant this sepEdges st ->
  Forall (fun d => IdSet.ascending (snd d)) (indexed (fst st)).
Proof.
  intros [_ Hinv]. apply Forall_forall. intros [i S] Hin.
  apply In_indexed in Hin. destruct Hin as [n [_ Hn]].
  apply (Hinv n S Hn).
Qed.

(** Every group that the direct builder writes is a quad of four indices of
    critical points. *)
Lemma quadrangulate_corners_valid (sepEdges : list (Z * Z)) (pts : list F)
      (b : Buffers) :
  quadrangulate' sepEdges {| cellsOf := []; pointsOf := pts; ndegenOf := 0 |}
  = Some b ->
  forall g, In g (quadsIn (cellsOf b)) ->
            exists a1 a2 a3 a4,
              g = [4; a1; a2; a3; a4]
              /\ Forall (fun a => 0 <= a < criticalPointsNumber_ this)
                        [a1; a2; a3; a4].
Proof.
  intros Hq g Hg. apply quadrangulate_emits in Hq.
  destruct Hq as [dests [counts [Hmap [Hcells _]]]]. simpl in Hcells.
  rewrite Hcells, quadsIn_cells in Hg. apply in_map_iff in Hg.
  destruct Hg as [[[[a1 a2] a3] a4] [<- Hin]].
  exists a1, a2, a3, a4. split; [reflexivity|].
  apply mapSeparatrices_invariant in Hmap.
  apply (allQuads_valid this sepEdges (dests, counts) Hmap _ Hin).
Qed.

Lemma groups_inside (len i r : nat) :
  (i < len / 5)%nat -> (r < 5)%nat -> (5 * i + r < len)%nat.
Proof.
  intros Hi Hr. pose proof (Nat.Div0.mul_div_le len 5). lia.
Qed.

(** The counts of lines 237-244 stay inside their vector when the corners
    are indices of critical points. *)
Lemma pointQuadNumber_returns (qs : list Quad) :
  (forall q, In q qs -> validQuad this q) ->
  exists counts, pointQuadNumber this (flat_map quadCells qs) = Some counts.
Proof.
  intros Hvalid. unfold pointQuadNumber. rewrite cells_groups.
  set (P := fun counts : list Z =>
              length counts = Z.to_nat (criticalPointsNumber_ this)).
  assert (Hcorner : forall i q r c counts,
             nth_error qs i = Some q -> (r < 5)%nat ->
             nth_error (quadCells q) r = Some c ->
             0 <= c < criticalPointsNumber_ this ->
             P counts ->
             exists counts',
               countCorner (flat_map quadCells qs) (5 * i + r) counts
               = Some counts' /\ P counts').
  { intros i q r c counts Hi Hr Hc Hv HP. unfold countCorner, at_.
    rewrite (nth_error_cells qs i r q Hr Hi), Hc.
    destruct (modifyAtZ_returns c (fun n => wrap64 (n + 1)) counts)
      as [counts' [E Hl]]; [unfold P in HP; lia|].
    exists counts'. split; [assumption|]. unfold P in *. congruence. }
  destruct (forEach_returns P (seq 0 (length qs))
              (fun i counts =>
                 match countCorner (flat_map quadCells qs) (5 * i + 1) counts
                 with
                 | None => None
                 | Some c1 =>
                     match countCorner (flat_map quadCells qs) (5 * i + 2) c1
                     with
                     | None => None
                     | Some c2 =>
                         match countCorner (flat_map quadCells qs)
                                           (5 * i + 3) c2 with
                         | None => None
                         | Some c3 =>
                             countCorner (flat_map quadCells qs) (5 * i + 4) c3
                         end
                     end
                 end)
              (repeat 0 (Z.to_nat (criticalPointsNumber_ this))))
    as [counts [E _]].
  - intros i counts Hi HP. apply in_seq in Hi.
    destruct (nth_error qs i) as [[[[a1 a2] a3] a4]|] eqn:Hq;
      [|apply nth_error_None in Hq; lia].
    pose proof (Hvalid _ (nth_error_In _ _ Hq)) as Hv. unfold validQuad in Hv.
    inversion Hv as [|? ? V1 Hv1]; subst.
    inversion Hv1 as [|? ? V2 Hv2]; subst.
    inversion Hv2 as [|? ? V3 Hv3]; subst.
    inversion Hv3 as [|? ? V4 _]; subst.
    destruct (Hcorner i _ 1%nat a1 counts Hq ltac:(lia) eq_refl V1 HP)
      as [c1 [-> P1]].
    destruct (Hcorner i _ 2%nat a2 c1 Hq ltac:(lia) eq_refl V2 P1)
      as [c2 [-> P2]].
    destruct (Hcorner i _ 3%nat a3 c2 Hq ltac:(lia) eq_refl V3 P2)
      as [c3 [-> P3]].
    apply (Hcorner i _ 4%nat a4 c3 Hq ltac:(lia) eq_refl V4 P3).
  - apply repeat_length.
  - now exists counts.
Qed.

(** The reads of lines 259-267 are inside the cell buffer, and the bad
    quads are groups of it. *)
Lemma badQuads_returns (cells : list Z) (bad : list Z) :
  exists quads, badQuads cells bad = Some quads
                /\ Forall (fun q => (q < length cells / 5)%nat) quads.
Proof.
  unfold badQuads.
  apply (forEach_returns
           (fun quads => Forall (fun q => (q < length cells / 5)%nat) quads));
    [|constructor].
  intros i quads Hi HP. apply in_seq in Hi.
  destruct (forEach_returns (fun _ : Z => True) (seq (5 * i + 1) 4)
              (fun j nbadpoints =>
                 match at_ cells j with
                 | None => None
                 | Some c =>
                     Some (if existsb (Z.eqb c) bad
                           then wrap64 (nbadpoints + 1) else nbadpoints)
                 end) 0) as [n [-> _]]; [|exact I|].
  - intros j n Hj _. apply in_seq in Hj. unfold at_.
    destruct (nth_error cells j) eqn:E.
    + eexists. split; [reflexivity | exact I].
    + apply nth_error_None in E.
      pose proof (groups_inside (length cells) i (j - 5 * i)). lia.
  - eexists. split; [reflexivity|].
    destruct (2 <=? n); [|assumption].
    apply Forall_app. split; [assumption|]. repeat constructor. lia.
Qed.

(** C5, as the code has it. When [quadrangulate] is called as [execute]
    calls it (empty cell buffer, counter at 0; fewer than 2^32 edges) and
    returns, the counter [ndegen] is the number of groups of the cell buffer
    whose second and fourth corners are equal; it is also the number of
    pairs of destinations, among those the two loops reach (both with
    sources, of differing type), that pass the test of lines 216-218: one
    common source, and one of the two destinations with one source. The
    code run for one such pair increments the counter exactly when the pair
    passes this test. *)
Theorem quadrangulate_counts_degenerate (sepEdges : list (Z * Z))
        (pts : list F) (b : Buffers) :
  quadrangulate' sepEdges {| cellsOf := []; pointsOf := pts; ndegenOf := 0 |}
  = Some b ->
  Z.of_nat (length sepEdges) < 2 ^ 32 ->
  ndegenOf b
  = Z.of_nat (length (filter degenerateGroup (quadsIn (cellsOf b))))
  /\ (exists dests counts,
        mapSeparatrices this sepEdges = Some (dests, counts)
        /\ ndegenOf b
           = Z.of_nat (length (degeneratePairs this (indexed dests))))
  /\ (forall i Si k Sk e,
        snd (emitPair this i Si k Sk e)
        = if degeneratePair Si Sk then wrap64 (snd e + 1) else snd e).
Proof.
  intros Hq Hsmall. apply quadrangulate_emits in Hq.
  destruct Hq as [dests [counts [Hmap [Hcells Hnd]]]]. simpl in Hcells, Hnd.
  pose proof (mapSeparatrices_invariant this _ _ Hmap) as Hinv.
  assert (Hn : ndegenOf b
               = Z.of_nat (length (degeneratePairs this (indexed dests)))).
  { rewrite Hnd, bump_zero. unfold wrap64. apply Z.mod_small.
    pose proof (degeneratePairs_bound this (indexed dests)) as Hb.
    rewrite indexed_length in Hb. destruct Hinv as [Hlen _].
    simpl in Hlen. rewrite Hlen in Hb.
    apply Nat2Z.inj_le in Hb. rewrite Nat2Z.inj_mul in Hb.
    change (2 ^ 64) with (2 ^ 32 * 2 ^ 32). nia. }
  split; [|split].
  - rewrite Hn, Hcells, quadsIn_cells, degenerateGroup_cells.
    f_equal. symmetry. apply countDegenerate_allQuads.
    now apply (indexed_ascending sepEdges (dests, counts)).
  - now exists dests, counts.
  - intros i Si k Sk e. rewrite emitPair_view. simpl.
    now destruct (degeneratePair Si Sk).
Qed.

(** When [quadrangulate], called as [execute] calls it, returns: for two
    destinations [i < k] with sources, of differing type, whose sets of
    sources have two common elements or more, and for every two common
    sources [j < l], the group [4, i, j, k, l] is in the cell buffer once
    when [hasCommonManifold] accepts [j, l], and not at all when it does
    not. *)
Lemma quadrangulate_quads_of_pair (sepEdges : list (Z * Z)) (pts : list F)
        (b : Buffers) (dests : list IdSet.t) (counts : list Z)
        (i k : nat) (Si Sk : IdSet.t) :
  quadrangulate' sepEdges {| cellsOf := []; pointsOf := pts; ndegenOf := 0 |}
  = Some b ->
  mapSeparatrices this sepEdges = Some (dests, counts) ->
  nth_error dests i = Some Si ->
  nth_error dests k = Some Sk ->
  (i < k)%nat ->
  Si <> [] -> Sk <> [] ->
  criticalPointsType_ this (Z.of_nat k)
  <> criticalPointsType_ this (Z.of_nat i) ->
  (2 <= length (IdSet.inter Si Sk))%nat ->
  (forall j l,
      In j (IdSet.inter Si Sk) -> In l (IdSet.inter Si Sk) -> j < l ->
      count_occ (list_eq_dec Z.eq_dec) (quadsIn (cellsOf b))
                [4; Z.of_nat i; j; Z.of_nat k; l]
      = if hasCommonManifold this [j; l] then 1%nat else 0%nat)
  /\ (2 * length (filter (between (Z.of_nat i) (Z.of_nat k))
                         (quadsIn (cellsOf b)))
      <= length (IdSet.inter Si Sk) * (length (IdSet.inter Si Sk) - 1))%nat.
Proof.
  intros Hq Hmap Hi Hk Hlt HSi HSk Hty Hcommon.
  apply quadrangulate_emits in Hq.
  destruct Hq as [dests' [counts' [Hmap' [Hcells _]]]].
  rewrite Hmap in Hmap'. injection Hmap' as <- <-. simpl in Hcells.
  pose proof (mapSeparatrices_invariant this _ _ Hmap) as Hinv.
  pose proof (indexed_ascending sepEdges (dests, counts) Hinv) as Hasc.
  simpl in Hasc.
  assert (Hfun : functional (indexed dests)).
  { intros x S S'. apply indexed_functional. }
  assert (Hnd : NoDup (allQuads this (indexed dests))).
  { apply allQuads_NoDup; [apply indexed_NoDup | exact Hfun | exact Hasc]. }
  assert (Hpair : In ((Z.of_nat i, Si), (Z.of_nat k, Sk))
                     (enumeratedPairs this (indexed dests))).
  { unfold enumeratedPairs. apply filter_In. split.
    - apply (pairsOf_nth _ i k); [assumption | |];
        now apply nth_error_indexed.
    - unfold enumerated.
      destruct Si; [congruence|]. destruct Sk; [congruence|]. simpl.
      now destruct (Z.eqb_spec (criticalPointsType_ this (Z.of_nat k))
                               (criticalPointsType_ this (Z.of_nat i))). }
  assert (HSi' : IdSet.ascending Si).
  { destruct Hinv as [_ Hinv]. apply (Hinv i Si Hi). }
  assert (Hbranch : pairQuads this (Z.of_nat i) Si (Z.of_nat k) Sk
                    = map (fun jl => (Z.of_nat i, fst jl, Z.of_nat k, snd jl))
                          (filter (fun jl => hasCommonManifold this
                                               [fst jl; snd jl])
                                  (pairsOf (IdSet.inter Si Sk)))).
  { unfold pairQuads. apply Nat.leb_le in Hcommon. now rewrite Hcommon. }
  assert (Hinj : forall q q' : Quad, quadCells q = quadCells q' -> q = q').
  { intros [[[a1 a2] a3] a4] [[[b1 b2] b3] b4] E. simpl in E.
    now injection E as -> -> -> ->. }
  split.
  - intros j l Hj Hl Hjl. rewrite Hcells, quadsIn_cells.
    change [4; Z.of_nat i; j; Z.of_nat k; l]
      with (quadCells (Z.of_nat i, j, Z.of_nat k, l)).
    rewrite <- (count_occ_map quadCells
                  (fun q q' : Quad =>
                     let H := Z.eq_dec in
                     ltac:(decide equality; decide equality;
                           decide equality))
                  (list_eq_dec Z.eq_dec) Hinj).
    assert (Hmem : In (Z.of_nat i, j, Z.of_nat k, l)
                      (allQuads this (indexed dests))
                   <-> hasCommonManifold this [j; l] = true).
    { rewrite (allQuads_between this _ _ Si _ Sk _ _ Hfun Hpair), Hbranch.
      rewrite in_map_iff. split.
      - intros [[j' l'] [E Hin]]. simpl in E. injection E as -> ->.
        now apply filter_In in Hin as [_ Hv].
      - intros Hv. exists (j, l). split; [reflexivity|].
        apply filter_In. split; [|exact Hv].
        apply In_pairsOf_ascending; try assumption.
        now apply IdSet.inter_ascending. }
    destruct (hasCommonManifold this [j; l]).
    + apply NoDup_count_occ'; [assumption | now apply Hmem].
    + apply count_occ_not_In. intros Hin. apply Hmem in Hin. discriminate.
  - rewrite Hcells, quadsIn_cells, filter_map_swap, length_map.
    rewrite <- (pairsOf_length (IdSet.inter Si Sk)).
    apply Nat.mul_le_mono_l.
    transitivity (length (pairQuads this (Z.of_nat i) Si (Z.of_nat k) Sk)).
    + apply NoDup_incl_length; [now apply NoDup_filter|].
      intros [[[a1 a2] a3] a4] Hin. apply filter_In in Hin as [Hin Hc].
      unfold between in Hc. simpl in Hc. apply andb_true_iff in Hc as [E1 E3].
      apply Z.eqb_eq in E1, E3. subst a1 a3.
      now apply (allQuads_between this _ _ Si _ Sk _ _ Hfun Hpair).
    + rewrite Hbranch, length_map. apply filter_length_le.
Qed.

End QuadrangulateProperties.

(** * Properties of the separatrix middles *)

Section MiddleProperties.

Context {F : Type}.
Variables (fzero : F) (fadd : F -> F -> F)
          (distance : F * F * F -> F * F * F -> F)
          (absHalfDiff : F -> F -> F) (fltb : F -> F -> bool)
          (max_size : Z) (pastTheEnd : Z * Z).
Variable this : SurfaceQuadrangulation F.

Local Abbreviation addMiddle' :=
  (addMiddle fzero fadd distance absHalfDiff fltb max_size this).
Local Abbreviation findSeparatrixMiddle' :=
  (findSeparatrixMiddle fzero fadd distance absHalfDiff fltb max_size pastTheEnd this).

Lemma sameBounds_refl (ab : Z * Z) : sameBounds ab ab = true.
Proof. unfold sameBounds. now rewrite !Z.eqb_refl. Qed.

Lemma findMiddle_app (ab : Z * Z) (m m' : Middles) :
  findMiddle ab (m ++ m')
  = match findMiddle ab m with
    | Some id => Some id
    | None => findMiddle ab m'
    end.
Proof.
  unfold findMiddle. induction m as [|e m IH]; simpl; [reflexivity|].
  destruct (sameBounds (fst e) ab); [reflexivity | exact IH].
Qed.

Lemma insertMiddle_cached (ab : Z * Z) (id : Z) (m : Middles) :
  cached ab (insertMiddle ab id m).
Proof.
  unfold cached, insertMiddle.
  destruct (findMiddle ab m) as [id'|] eqn:E.
  - exists id'. exact E.
  - exists id. rewrite findMiddle_app, E. unfold findMiddle. simpl.
    now rewrite sameBounds_refl.
Qed.

Lemma insertMiddle_keeps (k ab : Z * Z) (id v : Z) (m : Middles) :
  findMiddle k m = Some v -> findMiddle k (insertMiddle ab id m) = Some v.
Proof.
  intros H. unfold insertMiddle.
  destruct (findMiddle ab m); [exact H|].
  now rewrite findMiddle_app, H.
Qed.

Lemma addMiddle_cached (st st' : MiddleState) (ab : Z * Z) :
  addMiddle' ab st = Some st' -> cached ab (snd st').
Proof.
  unfold addMiddle. destruct (findMiddle ab (snd st)) as [id|] eqn:E.
  - intros H. injection H as <-. exists id. exact E.
  - destruct (max_size <? _); [discriminate|].
    destruct (samplePoint this _) as [[x y] z]. intros H. injection H as <-.
    apply insertMiddle_cached.
Qed.

Lemma addMiddle_keeps (st st' : MiddleState) (k ab : Z * Z) (v : Z) :
  findMiddle k (snd st) = Some v ->
  addMiddle' ab st = Some st' ->
  findMiddle k (snd st') = Some v.
Proof.
  intros H. unfold addMiddle. destruct (findMiddle ab (snd st)).
  - intros E. now injection E as <-.
  - destruct (max_size <? _); [discriminate|].
    destruct (samplePoint this _) as [[x y] z]. intros E. injection E as <-.
    now apply insertMiddle_keeps.
Qed.

Lemma forEach_addMiddle_keeps (bounds : list (Z * Z)) (st st' : MiddleState)
      (k : Z * Z) (v : Z) :
  findMiddle k (snd st) = Some v ->
  forEach bounds addMiddle' st = Some st' ->
  findMiddle k (snd st') = Some v.
Proof.
  revert st. induction bounds as [|ab bounds IH]; intros st H; simpl.
  - intros E. now injection E as <-.
  - destruct (addMiddle' ab st) as [st1|] eqn:E1; [|discriminate].
    apply IH. now apply (addMiddle_keeps st st1 k ab).
Qed.

(** After the loop every bound of [sepBounds] is in the cache. *)
Lemma forEach_addMiddle_cached (bounds : list (Z * Z))
      (st st' : MiddleState) :
  forEach bounds addMiddle' st = Some st' ->
  forall ab, In ab bounds -> cached ab (snd st').
Proof.
  revert st. induction bounds as [|x bounds IH]; intros st H ab Hin;
    [destruct Hin|].
  simpl in H. destruct (addMiddle' x st) as [st1|] eqn:E1; [|discriminate].
  destruct Hin as [->|Hin].
  - destruct (addMiddle_cached st st1 ab E1) as [id Hid].
    exists id. now apply (forEach_addMiddle_keeps bounds st1 st').
  - now apply (IH st1).
Qed.

(** The loop skips the bounds that are in the cache. *)
Lemma forEach_addMiddle_skips (bounds : list (Z * Z)) (st : MiddleState) :
  (forall ab, In ab bounds -> cached ab (snd st)) ->
  forEach bounds addMiddle' st = Some st.
Proof.
  induction bounds as [|ab bounds IH]; intros H; simpl; [reflexivity|].
  assert (E : addMiddle' ab st = Some st).
  { unfold addMiddle. destruct (H ab (or_introl eq_refl)) as [id ->].
    reflexivity. }
  rewrite E. apply IH. intros ab' Hin. apply H. now right.
Qed.

(** X23. When a call of [findSeparatrixMiddle] returns, a second call with
    the same critical points, the same position list and the buffers the
    first call left, which reads past the end of the position list the
    value that the first call read there, returns and changes nothing: no
    point is appended to the output point buffer and the cache keeps every
    one of its entries. *)
Theorem findSeparatrixMiddle_idempotent
        (src dst : Z) (sepFlatEdgesPos : list (Z * Z))
        (st st' : MiddleState) :
  findSeparatrixMiddle' src dst sepFlatEdgesPos st = Some st' ->
  findSeparatrixMiddle' src dst sepFlatEdgesPos st' = Some st'.
Proof.
  unfold findSeparatrixMiddle. intros H.
  apply forEach_addMiddle_skips. intros ab Hin.
  exact (forEach_addMiddle_cached _ st st' H ab Hin).
Qed.

(** The indices read by the scan are those of the entries and of their
    successors. *)
Lemma scanPositions_reads (src dst : Z) (sepFlatEdgesPos : list (Z * Z)) :
  snd (scanPositions pastTheEnd this src dst sepFlatEdgesPos)
  = flat_map (fun i => [i; (i + 1)%nat]) (seq 0 (length sepFlatEdgesPos)).
Proof.
  unfold scanPositions.
  generalize (seq 0 (length sepFlatEdgesPos)) as l.
  assert (G : forall l acc,
             snd (fold_left
                    (fun (acc : list (Z * Z) * list nat) (i : nat) =>
                       let p := nth i sepFlatEdgesPos pastTheEnd in
                       let q := nth (i + 1) sepFlatEdgesPos pastTheEnd in
                       let reads := snd acc ++ [i; (i + 1)%nat] in
                       if (fst p =? criticalPointsCellIds_ this src)
                          && (fst q =? criticalPointsCellIds_ this dst)
                       then (fst acc ++ [(snd p, snd q)], reads)
                       else (fst acc, reads)) l acc)
             = snd acc ++ flat_map (fun i => [i; (i + 1)%nat]) l).
  { induction l as [|i l IH]; intros acc; simpl.
    - now rewrite app_nil_r.
    - rewrite IH.
      destruct ((fst (nth i sepFlatEdgesPos pastTheEnd)
                 =? criticalPointsCellIds_ this src)
                && (fst (nth (i + 1) sepFlatEdgesPos pastTheEnd)
                    =? criticalPointsCellIds_ this dst));
        simpl; rewrite <- app_assoc; reflexivity. }
  intros l. apply (G l ([], [])).
Qed.

(** C10, at the failing inputs. On every position list with an entry, the
    scan of [findSeparatrixMiddle] reads the list at the index equal to its
    size, one past its last entry. *)
Theorem scanPositions_reads_past_the_end
        (src dst : Z) (p : Z * Z) (rest : list (Z * Z)) :
  In (length (p :: rest))
     (snd (scanPositions pastTheEnd this src dst (p :: rest)))
  /\ nth_error (p :: rest) (length (p :: rest)) = None.
Proof.
  split.
  - rewrite scanPositions_reads. apply in_flat_map.
    exists (length rest). split.
    + apply in_seq. simpl. lia.
    + right. left. simpl. lia.
  - apply nth_error_None. lia.
Qed.

End MiddleProperties.

(** * Properties of the main routine *)

Section ExecuteProperties.

Context {F : Type}.
Variables (fzero : F) (fadd : F -> F -> F)
          (distance : F * F * F -> F * F * F -> F)
          (absHalfDiff : F -> F -> F) (fltb : F -> F -> bool)
          (max_size : Z) (strayRead : nat -> Z * Z).

Local Abbreviation execute' :=
  (execute fzero fadd distance absHalfDiff fltb max_size strayRead).

(** C2. When the number of separatrix samples left by the mask is odd,
    [execute] returns the failure status [-1] with both output buffers
    empty: it returns before the edges are built and before either
    builder is called, whatever the mode flag. *)
Theorem execute_odd_count_fails (this : SurfaceQuadrangulation F) :
  Nat.Odd (length (sepFlatEdges this)) ->
  execute' this
  = Some {| status := -1; outputCells_ := []; outputPoints_ := [];
            summary := None |}.
Proof.
  intros Hodd. unfold execute.
  assert (E : (Z.of_nat (length (sepFlatEdges this)) mod 2 =? 0) = false).
  { apply Z.eqb_neq. destruct Hodd as [m Hm]. rewrite Hm.
    rewrite Nat2Z.inj_add, Nat2Z.inj_mul. simpl Z.of_nat.
    rewrite Z.add_comm, Z.mul_comm, Z.mod_add by lia. discriminate. }
  rewrite E. reflexivity.
Qed.

Lemma fold_max_shift (l : list Z) (m x : Z) :
  fold_right Z.max (Z.max m x) l = Z.max x (fold_right Z.max m l).
Proof. induction l as [|y l IH]; simpl; lia. Qed.

Lemma maxSegId_fold (this : SurfaceQuadrangulation F) :
  maxSegId this = fold_right Z.max 0 (segmentationLabels this).
Proof.
  unfold maxSegId, segmentationLabels.
  generalize (range (segmentationNumber_ this)) 0.
  induction l as [|a l IH]; intros m; simpl; [reflexivity|].
  rewrite IH.
  replace (if segmentation_ this a >? m then segmentation_ this a else m)
    with (Z.max m (segmentation_ this a))
    by (destruct (Z.gtb_spec (segmentation_ this a) m); lia).
  rewrite fold_max_shift. reflexivity.
Qed.

Lemma fold_max_bounds (l : list Z) (lo hi : Z) :
  lo <= hi -> (forall x, In x l -> x <= hi) ->
  lo <= fold_right Z.max lo l <= hi.
Proof.
  intros Hlo H. induction l as [|y l IH]; simpl; [lia|].
  assert (y <= hi) by (apply H; now left).
  assert (lo <= fold_right Z.max lo l <= hi)
    by (apply IH; intros; apply H; now right).
  lia.
Qed.

Lemma fold_max_greatest (l : list Z) (m : Z) :
  In m l -> (forall x, In x l -> x <= m) -> 0 <= m ->
  fold_right Z.max 0 l = m.
Proof.
  intros Hin Hmax Hpos.
  assert (Hle : 0 <= fold_right Z.max 0 l <= m) by (now apply fold_max_bounds).
  assert (Hge : forall x, In x l -> x <= fold_right Z.max 0 l).
  { clear. induction l as [|y l IH]; simpl; intros x Hx; [tauto|].
    destruct Hx as [->|Hx]; [lia|]. specialize (IH x Hx). lia. }
  specialize (Hge m Hin). lia.
Qed.

(** C9, as the code has it. The manifold count of the diagnostic line of
    [execute] is one more than the largest of [0] and the labels of the
    segmentation array (labels below [INT_MAX]): one more than the largest
    label as soon as a label is not negative, and [1], never [0], for an
    array without entries. *)
Theorem execute_manifold_count (this : SurfaceQuadrangulation F)
        (o : Outcome) (quads ndegen manifolds : Z) :
  execute' this = Some o ->
  summary o = Some (quads, ndegen, manifolds) ->
  (forall x, In x (segmentationLabels this) -> x < 2 ^ 31 - 1) ->
  manifolds = 1 + fold_right Z.max 0 (segmentationLabels this)
  /\ (forall m, In m (segmentationLabels this) ->
                (forall x, In x (segmentationLabels this) -> x <= m) ->
                0 <= m -> manifolds = 1 + m)
  /\ (segmentationLabels this = [] -> manifolds = 1)
  /\ 1 <= manifolds.
Proof.
  intros Hex Hsum Hrange.
  assert (Hn : manifolds = nseg this).
  { unfold execute in Hex.
    destruct (negb (Z.of_nat (length (sepFlatEdges this)) mod 2 =? 0)).
    - injection Hex as <-. discriminate Hsum.
    - destruct (if dualQuadrangulation_ this then _ else _) as [b|];
        [|discriminate].
      injection Hex as <-. simpl in Hsum. now injection Hsum as _ _ <-. }
  assert (Hb : 0 <= fold_right Z.max 0 (segmentationLabels this) <= 2 ^ 31 - 2).
  { apply fold_max_bounds; [lia|]. intros x Hx. specialize (Hrange x Hx). lia. }
  assert (Hv : manifolds = 1 + fold_right Z.max 0 (segmentationLabels this)).
  { rewrite Hn. unfold nseg, wrapInt. rewrite maxSegId_fold.
    rewrite Z.mod_small by lia. lia. }
  split; [exact Hv|]. split; [|split].
  - intros m Hin Hmax Hpos. rewrite Hv.
    now rewrite (fold_max_greatest _ m).
  - intros Hnil. rewrite Hv, Hnil. reflexivity.
  - lia.
Qed.

End ExecuteProperties.

Lemma execute_odd_count_fails_witness :
  Nat.Odd (length (sepFlatEdges (Examples.oddInput false)))
  /\ Examples.run (Examples.oddInput false)
     = Some {| status := -1; outputCells_ := []; outputPoints_ := [];
               summary := None |}.
Proof.
  assert (H : Nat.Odd (length (sepFlatEdges (Examples.oddInput false)))).
  { exists 0%nat. reflexivity. }
  split; [exact H|].
  exact (execute_odd_count_fails _ _ _ _ _ _ _ (Examples.oddInput false) H).
Defined.

(** C9, counterexample. On a segmentation array without entries [execute]
    reports one manifold, where the stated count is [0]; on an array with the
    single label [-1] it reports one manifold as well, where one more than
    the largest label is [0]. *)
Lemma execute_manifold_count_counterexample :
  (exists o quads ndegen,
      Examples.run Examples.unlabelled = Some o
      /\ summary o = Some (quads, ndegen, 1)
      /\ segmentationLabels Examples.unlabelled = []
      /\ 1 <> spec_manifoldCount (segmentationLabels Examples.unlabelled))
  /\ (exists o quads ndegen,
         Examples.run Examples.negativeLabel = Some o
         /\ summary o = Some (quads, ndegen, 1)
         /\ segmentationLabels Examples.negativeLabel = [-1]
         /\ 1 <> spec_manifoldCount
                   (segmentationLabels Examples.negativeLabel)).
Proof.
  split.
  - eexists. exists 0, 0.
    split; [vm_compute; reflexivity|].
    split; [reflexivity|]. split; [reflexivity|].
    vm_compute. discriminate.
  - eexists. exists 0, 0.
    split; [vm_compute; reflexivity|].
    split; [reflexivity|]. split; [reflexivity|].
    vm_compute. discriminate.
Qed.

Lemma execute_manifold_count_witness :
  Examples.run (Examples.square false)
  = Some {| status := 0; outputCells_ := [4; 0; 1; 2; 3];
            outputPoints_ := [0; 0; 0; 0; 0; 0; 0; 0; 0; 0; 0; 0];
            summary := Some (1, 0, 1) |}
  /\ 1 = 1 + fold_right Z.max 0 (segmentationLabels (Examples.square false)).
Proof.
  assert (H1 : Examples.run (Examples.square false)
               = Some {| status := 0; outputCells_ := [4; 0; 1; 2; 3];
                         outputPoints_ := [0; 0; 0; 0; 0; 0; 0; 0; 0; 0; 0; 0];
                         summary := Some (1, 0, 1) |})
    by (vm_compute; reflexivity).
  split; [exact H1|].
  refine (proj1 (execute_manifold_count 0 Z.add Examples.zdistance
                   Examples.zabsHalfDiff Z.ltb Examples.floats
                  Examples.zeros
                   (Examples.square false) _ 1 0 1 H1 eq_refl _)).
  intros x Hx. vm_compute in Hx.
  repeat (destruct Hx as [<-|Hx]; [reflexivity|]). destruct Hx.
Defined.

(** C7, counterexample. On the torus the traversal around the vertex 0 ends
    with 21 processed vertices, one more than 20. *)
Lemma traversal_cap_counterexample :
  Reached Examples.torus 0
          (traverse Examples.torus 0 (startTraversal 0))
  /\ IdSet.size (processedNeighbors
                   (traverse Examples.torus 0 (startTraversal 0))) = 21%nat
  /\ ~ (IdSet.size (processedNeighbors
                      (traverse Examples.torus 0 (startTraversal 0)))
        <= 20)%nat.
Proof.
  assert (E : IdSet.size (processedNeighbors
                (traverse Examples.torus 0 (startTraversal 0))) = 21%nat)
    by (vm_compute; reflexivity).
  split; [|split].
  - apply traverse_Reached; [constructor | reflexivity].
  - exact E.
  - rewrite E. lia.
Qed.

Lemma traversal_visits_at_most_21_witness :
  Reached Examples.torus 0
          (visit Examples.torus 0 0 [] (startTraversal 0))
  /\ (IdSet.size (processedNeighbors
                    (visit Examples.torus 0 0 [] (startTraversal 0)))
      <= 21)%nat.
Proof.
  assert (H : Reached Examples.torus 0
                      (visit Examples.torus 0 0 [] (startTraversal 0)))
    by (apply reached_turn; [apply reached_start | reflexivity | reflexivity]).
  split; [exact H|].
  exact (proj1 (traversal_visits_at_most_21 Examples.torus 0 _ H)).
Defined.

Lemma hasCommonManifold_order_and_growth_witness :
  (2 <= length [1; 3])%nat
  /\ hasCommonManifold Examples.torus [3; 1]
     = hasCommonManifold Examples.torus [1; 3]
  /\ hasCommonManifold Examples.torus [1; 3] = true.
Proof.
  assert (H : (2 <= length [1; 3])%nat) by (simpl; lia).
  split; [exact H|]. split.
  - apply (proj1 (hasCommonManifold_order_and_growth Examples.torus [1; 3] H)).
    apply perm_swap.
  - vm_compute. reflexivity.
Defined.

(** C1, at a failing input. In dual mode, with a separatrix that ends in a
    cell of no critical point, [execute] returns normally and the cell
    buffer holds the group [4, 1, 3, 2, 1]: its second corner is 3, the
    number of critical points, which is the index of none of them. *)
Theorem execute_dual_corner_out_of_range :
  Examples.run Examples.strayEdge
  = Some {| status := 0; outputCells_ := [4; 1; 3; 2; 1];
            outputPoints_ := []; summary := Some (1, 0, 1) |}
  /\ criticalPointsNumber_ Examples.strayEdge = 3
  /\ criticalPointOfCell Examples.strayEdge 99 = 3
  /\ ~ Forall (fun a => 0 <= a < criticalPointsNumber_ Examples.strayEdge)
              [1; 3; 2; 1].
Proof.
  split; [vm_compute; reflexivity|]. split; [reflexivity|].
  split; [reflexivity|].
  intros H. inversion H as [|? ? _ H1]; subst.
  inversion H1 as [|? ? H3 _]; subst. simpl in H3. lia.
Qed.

(** C4, counterexample. In dual mode the saddle 0 of the star has exactly
    four destinations, and the only group of the cell buffer is
    [4, 1, 2, 3, 4]: its first corner is the first destination, and the
    saddle is none of its corners. *)
Lemma dualQuadrangulate_first_corner_counterexample :
  sourceDests Examples.star (pairUp (sepFlatEdges Examples.star))
  = [(0, [1; 2; 3; 4])]
  /\ dualQuadrangulate Examples.star (pairUp (sepFlatEdges Examples.star)) []
     = [4; 1; 2; 3; 4]
  /\ ~ (exists j k l,
          In [4; 0; j; k; l]
             (quadsIn (dualQuadrangulate
                         Examples.star
                         (pairUp (sepFlatEdges Examples.star)) []))).
Proof.
  split; [vm_compute; reflexivity|]. split; [vm_compute; reflexivity|].
  intros [j [k [l H]]]. vm_compute in H. destruct H as [H|[]].
  discriminate H.
Qed.

Lemma quadrangulate_counts_degenerate_witness :
  Examples.build Examples.spur (pairUp (sepFlatEdges Examples.spur))
                 Examples.cleared
  = Some {| cellsOf := [4; 0; 1; 2; 1]; pointsOf := []; ndegenOf := 1 |}
  /\ Z.of_nat (length (pairUp (sepFlatEdges Examples.spur))) < 2 ^ 32
  /\ 1 = Z.of_nat (length (filter degenerateGroup
                                  (quadsIn [4; 0; 1; 2; 1]))).
Proof.
  assert (H1 : Examples.build Examples.spur
                 (pairUp (sepFlatEdges Examples.spur)) Examples.cleared
               = Some {| cellsOf := [4; 0; 1; 2; 1]; pointsOf := [];
                         ndegenOf := 1 |})
    by (vm_compute; reflexivity).
  assert (H2 : Z.of_nat (length (pairUp (sepFlatEdges Examples.spur)))
               < 2 ^ 32)
    by (vm_compute; reflexivity).
  split; [exact H1|]. split; [exact H2|].
  exact (proj1 (quadrangulate_counts_degenerate
                  0 Z.add Examples.zdistance
                  Examples.zabsHalfDiff Z.ltb Examples.floats
                  Examples.zeros
                  Examples.spur _ [] _ H1 H2)).
Defined.

(** C3, at the failing input. Five critical points and four edges: the
    saddles 1 and 2 are both linked to the minimum 0 and to the maximum 4,
    two destinations of differing type, and [hasCommonManifold] accepts the
    two saddles. The loops of lines 146-159 write [sepMappingDests[4]] in a
    vector created with four sets, one for each edge: the builder does not
    return, and neither does [execute]; the quad [4, 0, 1, 4, 2] is not
    emitted. *)
Theorem quadrangulate_late_destination :
  let this := Examples.lateSquare in
  let sepEdges := pairUp (sepFlatEdges this) in
  sepEdges = [(11, 10); (11, 14); (12, 10); (12, 14)]
  /\ criticalPointsNumber_ this = 5
  /\ criticalPointsType_ this 4 <> criticalPointsType_ this 0
  /\ (forall s d, In s [1; 2] -> In d [0; 4] ->
                  exists p, In p sepEdges /\ joins this p (s, d))
  /\ hasCommonManifold this [1; 2] = true
  /\ Z.of_nat (length sepEdges) <= 4
  /\ mapSeparatrices this sepEdges = None
  /\ Examples.build this sepEdges Examples.cleared = None
  /\ Examples.run this = None.
Proof.
  cbv zeta.
  split; [vm_compute; reflexivity|]. split; [reflexivity|].
  split; [vm_compute; discriminate|]. split.
  { intros s d Hs Hd.
    destruct Hs as [<-|[<-|[]]]; destruct Hd as [<-|[<-|[]]];
      [exists (11, 10) | exists (11, 14) | exists (12, 10) | exists (12, 14)];
      (split; [vm_compute; tauto|]);
      unfold joins; vm_compute; repeat split; discriminate. }
  split; [vm_compute; reflexivity|]. split; [vm_compute; discriminate|].
  split; [vm_compute; reflexivity|].
  split; vm_compute; reflexivity.
Qed.

(** C5, counterexample. The two minima 0 and 2 have the saddle 1 as their
    one common source, and one source each: the test of lines 216-218 holds
    of their sets. They are of the same type, so the loops skip the pair:
    [quadrangulate] returns with an empty cell buffer and the counter at 0. *)
Lemma quadrangulate_same_type_counterexample :
  mapSeparatrices Examples.twoMinima (pairUp (sepFlatEdges Examples.twoMinima))
  = Some ([[1]; []; [1]], [2; 3; 1])
  /\ degeneratePair [1] [1] = true
  /\ criticalPointsType_ Examples.twoMinima 0
     = criticalPointsType_ Examples.twoMinima 2
  /\ Examples.build Examples.twoMinima
                    (pairUp (sepFlatEdges Examples.twoMinima))
                    Examples.cleared
     = Some {| cellsOf := []; pointsOf := []; ndegenOf := 0 |}.
Proof.
  split; [vm_compute; reflexivity|]. split; [reflexivity|].
  split; [reflexivity|]. vm_compute. reflexivity.
Qed.

(** On the arc, the first call of [findSeparatrixMiddle] for the saddle and
    the minimum appends the middle sample, of abscissa 2, and caches it for
    the bounds (0, 4); the second call leaves both as they are. *)
Example findSeparatrixMiddle_on_arc :
  let positions := sepFlatEdgesPos Examples.arc in
  positions = [(11, 0); (10, 4)]
  /\ Examples.middle (0, 0) Examples.arc 1 0 positions ([], [])
     = Some ([2; 0; 0], [((0, 4), 2)])
  /\ Examples.middle (0, 0) Examples.arc 1 0 positions
                     ([2; 0; 0], [((0, 4), 2)])
     = Some ([2; 0; 0], [((0, 4), 2)]).
Proof. repeat split; vm_compute; reflexivity. Qed.

(** C6, at the failing input. On the arc, two calls of
    [findSeparatrixMiddle] for the minimum and the saddle, with the same
    position list. The first, which starts from the empty buffer and cache
    and reads [(0, 0)] past the end of the list, collects no bounds and
    leaves both empty. The second, which starts from what the first left and
    reads [(11, 4)] past the end, collects the bounds [(4, 4)]: it appends
    the point of the sample 4 and caches a middle. The read is at the index
    2 of a list of two entries. *)
Theorem findSeparatrixMiddle_second_call_appends :
  let positions := sepFlatEdgesPos Examples.arc in
  positions = [(11, 0); (10, 4)]
  /\ Examples.middle (0, 0) Examples.arc 0 1 positions ([], [])
     = Some ([], [])
  /\ Examples.middle (11, 4) Examples.arc 0 1 positions ([], [])
     = Some ([4; 0; 0], [((4, 4), 4)])
  /\ fst (scanPositions (0, 0) Examples.arc 0 1 positions) = []
  /\ fst (scanPositions (11, 4) Examples.arc 0 1 positions) = [(4, 4)]
  /\ In 2%nat (snd (scanPositions (11, 4) Examples.arc 0 1 positions))
  /\ nth_error positions 2 = None.
Proof.
  repeat split; try (vm_compute; reflexivity).
  vm_compute. tauto.
Qed.

Lemma findSeparatrixMiddle_idempotent_witness :
  let positions := sepFlatEdgesPos Examples.arc in
  Examples.middle (0, 0) Examples.arc 1 0 positions ([], [])
  = Some ([2; 0; 0], [((0, 4), 2)])
  /\ Examples.middle (0, 0) Examples.arc 1 0 positions
                     ([2; 0; 0], [((0, 4), 2)])
     = Some ([2; 0; 0], [((0, 4), 2)]).
Proof.
  assert (H : Examples.middle (0, 0) Examples.arc 1 0
                (sepFlatEdgesPos Examples.arc) ([], [])
              = Some ([2; 0; 0], [((0, 4), 2)])).
  { vm_compute. reflexivity. }
  split; [exact H|].
  exact (findSeparatrixMiddle_idempotent 0 Z.add Examples.zdistance
           Examples.zabsHalfDiff Z.ltb Examples.floats (0, 0) Examples.arc
           1 0 _ _ _ H).
Defined.

(** * Further properties of the manifold oracle *)

Section OracleInvariants.

Context {F : Type}.
Variable this : SurfaceQuadrangulation F.

Lemma Reached_invariant (v : Z) (t : Traversal) :
  Reached this v t -> traversalInvariant this v t.
Proof.
  induction 1 as [|t curr rest Hr IH Hcap Hq].
  - unfold traversalInvariant. simpl.
    split; [lia|]. split; [constructor|]. split; [constructor|].
    split; [intros x; split; [tauto | intros [u [[] _]]]|].
    split; [intros u [<-|[]]; constructor|].
    split; [tauto | now left].
  - destruct IH as [Hsize [HP [HM [Hlab [Hqueue [Hproc Hstart]]]]]].
    assert (Hcurr : Linked this v curr).
    { apply Hqueue. rewrite Hq. now left. }
    unfold traversalInvariant, visit.
    cbn [processedNeighbors manifolds neighborsToProcess].
    split.
    { apply capReached_false in Hcap.
      pose proof (IdSet.insert_size_le curr (processedNeighbors t)). lia. }
    split; [now apply IdSet.insert_ascending|].
    split; [now apply IdSet.insert_ascending|].
    split.
    { intros x. split.
      - intros Hx. apply IdSet.In_insert in Hx. destruct Hx as [->|Hx].
        + exists curr. split; [|reflexivity]. apply IdSet.In_insert. now left.
        + apply Hlab in Hx. destruct Hx as [u [Hu E]]. exists u.
          split; [|assumption]. apply IdSet.In_insert. now right.
      - intros [u [Hu E]]. apply IdSet.In_insert.
        apply IdSet.In_insert in Hu. destruct Hu as [->|Hu]; [now left|].
        right. apply Hlab. now exists u. }
    split.
    { intros u Hu. apply in_app_iff in Hu. destruct Hu as [Hu|Hu].
      - apply Hqueue. rewrite Hq. now right.
      - apply filter_In in Hu as [Hu _]. apply in_map_iff in Hu.
        destruct Hu as [j [<- Hj]]. apply linked_neighbor; [assumption|].
        now apply In_range in Hj. }
    split.
    { intros u Hu. apply IdSet.In_insert in Hu.
      destruct Hu as [->|Hu]; [assumption | now apply Hproc]. }
    right. apply IdSet.In_insert.
    destruct Hstart as [->|Hv].
    + simpl in Hq. injection Hq as <- _. now left.
    + now right.
Qed.

(** The state in which the traversal around [v] ends. *)
Lemma traversal_end (v : Z) :
  let t := traverse this v (startTraversal v) in
  Reached this v t /\ In v (processedNeighbors t).
Proof.
  intros t.
  assert (Hr : Reached this v t)
    by (apply traverse_Reached; [constructor | reflexivity]).
  split; [assumption|].
  destruct (Reached_invariant v t Hr) as [_ [_ [_ [_ [_ [_ [E|Hv]]]]]]];
    [|assumption].
  exfalso. destruct (traverse_stops this v (startTraversal v)) as [H|H];
    fold t in H; rewrite E in H; discriminate.
Qed.

(** X1. When the vertices of the points of a non-empty input all carry the
    same label, [hasCommonManifold] answers [true]: the first turn of each
    traversal collects the label of its start. *)
Theorem hasCommonManifold_same_label (verts : list Z) (label : Z) :
  verts <> [] ->
  (forall a, In a verts ->
             segmentation_ this (criticalPointsIdentifier_ this a) = label) ->
  hasCommonManifold this verts = true.
Proof.
  intros Hne Hsame. apply hasCommonManifold_true. split; [assumption|].
  exists label. intros a Ha. unfold manifoldsAround.
  destruct (traversal_end (criticalPointsIdentifier_ this a)) as [Hr Hv].
  apply (Reached_invariant _ _ Hr).
  exists (criticalPointsIdentifier_ this a). split; [assumption|].
  now apply Hsame.
Qed.

(** X3. The traversal around a point collects at least one label and at
    most 21. *)
Theorem manifoldsAround_size (a : Z) :
  (1 <= IdSet.size (manifoldsAround this a) <= 21)%nat.
Proof.
  unfold manifoldsAround.
  set (v := criticalPointsIdentifier_ this a).
  destruct (traversal_end v) as [Hr Hv].
  set (t := traverse this v (startTraversal v)) in *.
  destruct (Reached_invariant v t Hr) as [Hsize [HP [HM [Hlab _]]]].
  split.
  - assert (Hin : In (segmentation_ this v) (manifolds t))
      by (apply Hlab; now exists v).
    unfold IdSet.size. destruct (manifolds t); [destruct Hin | simpl; lia].
  - transitivity (length (map (segmentation_ this) (processedNeighbors t))).
    + apply NoDup_incl_length; [now apply IdSet.ascending_NoDup|].
      intros x Hx. apply Hlab in Hx. destruct Hx as [u [Hu <-]].
      now apply in_map.
    + rewrite length_map. exact Hsize.
Qed.

(** X4. Every label collected around a point is the label of a vertex
    linked to the vertex of the point by neighbor steps whose rank is below
    the neighbor count of that vertex. *)
Theorem manifoldsAround_linked (a x : Z) :
  In x (manifoldsAround this a) ->
  exists u, Linked this (criticalPointsIdentifier_ this a) u
            /\ segmentation_ this u = x.
Proof.
  unfold manifoldsAround. intros Hx.
  destruct (traversal_end (criticalPointsIdentifier_ this a)) as [Hr _].
  destruct (Reached_invariant _ _ Hr) as [_ [_ [_ [Hlab [_ [Hproc _]]]]]].
  apply Hlab in Hx. destruct Hx as [u [Hu E]]. exists u.
  split; [now apply Hproc | assumption].
Qed.

(** Around a vertex without neighbors the traversal takes one turn. *)
Lemma Reached_isolated (v : Z) (t : Traversal) :
  getVertexNeighborNumber this v <= 0 ->
  Reached this v t ->
  t = startTraversal v
  \/ t = {| neighborsToProcess := [];
            processedNeighbors := [v];
            manifolds := [segmentation_ this v] |}.
Proof.
  intros Hn. induction 1 as [|t curr rest Hr IH Hcap Hq]; [now left|].
  right. destruct IH as [->| ->]; [|discriminate].
  simpl in Hq. injection Hq as <- <-. unfold visit, range.
  replace (Z.to_nat (getVertexNeighborNumber this v)) with 0%nat by lia.
  reflexivity.
Qed.

Lemma manifoldsAround_isolated (a : Z) :
  getVertexNeighborNumber this (criticalPointsIdentifier_ this a) <= 0 ->
  manifoldsAround this a
  = [segmentation_ this (criticalPointsIdentifier_ this a)].
Proof.
  intros Hn. unfold manifoldsAround.
  set (v := criticalPointsIdentifier_ this a) in *.
  destruct (traversal_end v) as [Hr Hv].
  destruct (Reached_isolated v _ Hn Hr) as [E|E]; rewrite E in *.
  - destruct Hv.
  - reflexivity.
Qed.

(** X2. For two points whose vertices have no neighbor, [hasCommonManifold]
    compares the labels of the two vertices. *)
Theorem hasCommonManifold_isolated (a b : Z) :
  getVertexNeighborNumber this (criticalPointsIdentifier_ this a) <= 0 ->
  getVertexNeighborNumber this (criticalPointsIdentifier_ this b) <= 0 ->
  hasCommonManifold this [a; b]
  = (segmentation_ this (criticalPointsIdentifier_ this a)
     =? segmentation_ this (criticalPointsIdentifier_ this b)).
Proof.
  intros Ha Hb. unfold hasCommonManifold. simpl.
  rewrite (manifoldsAround_isolated a Ha), (manifoldsAround_isolated b Hb).
  unfold IdSet.inter, IdSet.mem. simpl. rewrite orb_false_r.
  now destruct (_ =? _).
Qed.

(** X20. A positive answer of the oracle is backed by a label: one label of
    the segmentation is carried, for every point of the input, by a vertex
    linked to the vertex of that point. *)
Theorem hasCommonManifold_shared_label (verts : list Z) :
  hasCommonManifold this verts = true ->
  exists x, forall a, In a verts ->
                      exists u, Linked this (criticalPointsIdentifier_ this a) u
                                /\ segmentation_ this u = x.
Proof.
  intros H. apply hasCommonManifold_true in H. destruct H as [_ [x Hx]].
  exists x. intros a Ha. specialize (Hx a Ha). unfold manifoldsAround in Hx.
  destruct (traversal_end (criticalPointsIdentifier_ this a)) as [Hr _].
  destruct (Reached_invariant _ _ Hr) as [_ [_ [_ [Hlab [_ [Hproc _]]]]]].
  apply Hlab in Hx. destruct Hx as [u [Hu E]]. exists u.
  split; [now apply Hproc | assumption].
Qed.

End OracleInvariants.

Lemma hasCommonManifold_same_label_witness :
  [1; 3] <> []
  /\ hasCommonManifold (Examples.square false) [1; 3] = true.
Proof.
  assert (H : [1; 3] <> [] :> list Z) by discriminate.
  split; [exact H|].
  apply (hasCommonManifold_same_label (Examples.square false) [1; 3] 0 H).
  intros a Ha. simpl in Ha.
  destruct Ha as [<-|[<-|[]]]; reflexivity.
Defined.

Lemma hasCommonManifold_isolated_witness :
  getVertexNeighborNumber (Examples.square false)
    (criticalPointsIdentifier_ (Examples.square false) 1) <= 0
  /\ hasCommonManifold (Examples.square false) [1; 3] = (0 =? 0).
Proof.
  assert (H : forall a, getVertexNeighborNumber (Examples.square false)
                (criticalPointsIdentifier_ (Examples.square false) a) <= 0)
    by (intros a; simpl; lia).
  split; [apply H|].
  exact (hasCommonManifold_isolated (Examples.square false) 1 3 (H 1) (H 3)).
Defined.

Lemma manifoldsAround_linked_witness :
  In 5 (manifoldsAround Examples.torus 0)
  /\ exists u, Linked Examples.torus 0 u /\ u / 6 = 5.
Proof.
  assert (H : In 5 (manifoldsAround Examples.torus 0))
    by (vm_compute; tauto).
  split; [exact H|].
  exact (manifoldsAround_linked Examples.torus 0 5 H).
Defined.

(** * Further properties of the dual builder *)

Section DualInvariants.

Context {F : Type}.
Variable this : SurfaceQuadrangulation F.

Lemma scanCellIds_first (c : Z) (turns : nat) (i : Z) :
  let r := scanCellIds this c turns i in
  i <= r <= i + Z.of_nat turns
  /\ (r < i + Z.of_nat turns -> criticalPointsCellIds_ this r = c)
  /\ forall k, i <= k < r -> criticalPointsCellIds_ this k <> c.
Proof.
  revert i. induction turns as [|turns IH]; intros i; cbn [scanCellIds].
  - cbv zeta. split; [lia|]. split; lia.
  - destruct (Z.eqb_spec c (criticalPointsCellIds_ this i)) as [E|E].
    + cbv zeta. split; [lia|]. split; [now intros _|]. lia.
    + specialize (IH (i + 1)). cbv zeta in *.
      destruct IH as [H1 [H2 H3]]. split; [lia|]. split.
      * intros H. apply H2. lia.
      * intros k Hk. destruct (Z.eq_dec k i) as [->|Hne]; [congruence|].
        apply H3. lia.
Qed.

(** X5. The search of a cell among the critical points gives the first index
    whose cell identifier is the cell, and the number of critical points (0
    when that number is negative) when there is none. *)
Theorem criticalPointOfCell_first (c : Z) :
  let r := criticalPointOfCell this c in
  0 <= r <= Z.max 0 (criticalPointsNumber_ this)
  /\ (r < criticalPointsNumber_ this -> criticalPointsCellIds_ this r = c)
  /\ (forall k, 0 <= k < r -> criticalPointsCellIds_ this k <> c).
Proof.
  unfold criticalPointOfCell.
  pose proof (scanCellIds_first c (Z.to_nat (criticalPointsNumber_ this)) 0)
    as H.
  cbv zeta in *. destruct H as [H1 [H2 H3]].
  split; [lia|]. split; [|assumption]. intros H. apply H2. lia.
Qed.

Lemma addDest_total (i j : Z) (m : list (Z * list Z)) :
  length (flat_map snd (addDest i j m)) = S (length (flat_map snd m)).
Proof.
  induction m as [|[i' v] m IH]; simpl; [reflexivity|].
  destruct (i <? i'); simpl; [reflexivity|].
  destruct (i =? i'); simpl.
  - rewrite !length_app. simpl. lia.
  - rewrite !length_app, IH. lia.
Qed.

(** The vectors of destinations hold as many entries as there are edges. *)
Lemma sourceDests_total (sepEdges : list (Z * Z)) :
  length (flat_map snd (sourceDests this sepEdges)) = length sepEdges.
Proof.
  unfold sourceDests.
  assert (G : forall m,
             length (flat_map snd
                       (fold_left
                          (fun m p => addDest (sourceOf this p)
                                              (destOf this p) m)
                          sepEdges m))
             = (length (flat_map snd m) + length sepEdges)%nat).
  { induction sepEdges as [|p l IH]; intros m; simpl; [lia|].
    rewrite IH, addDest_total. lia. }
  apply (G []).
Qed.

Lemma addDest_permutation (i j : Z) (m : list (Z * list Z)) :
  Permutation (flat_map snd (addDest i j m)) (j :: flat_map snd m).
Proof.
  induction m as [|[i' v] m IH]; cbn [addDest flat_map snd app].
  - apply Permutation_refl.
  - destruct (i <? i'); [apply Permutation_refl|].
    destruct (i =? i'); cbn [flat_map snd].
    + rewrite <- app_assoc. apply Permutation_sym.
      apply (Permutation_middle v (flat_map snd m) j).
    + apply Permutation_trans with (v ++ j :: flat_map snd m).
      * now apply Permutation_app_head.
      * apply Permutation_sym, Permutation_middle.
Qed.

(** X6. The map of the dual builder records every edge once, under the
    source that the search gives it: the vectors of destinations of its
    entries hold, all together, the destinations of the edges, each as many
    times as edges have it. *)
Theorem sourceDests_permutation (sepEdges : list (Z * Z)) :
  Permutation (flat_map snd (sourceDests this sepEdges))
              (map (destOf this) sepEdges).
Proof.
  unfold sourceDests.
  assert (G : forall m,
             Permutation
               (flat_map snd
                  (fold_left
                     (fun m p => addDest (sourceOf this p) (destOf this p) m)
                     sepEdges m))
               (flat_map snd m ++ map (destOf this) sepEdges)).
  { induction sepEdges as [|p l IH]; intros m; cbn [fold_left map].
    - rewrite app_nil_r. apply Permutation_refl.
    - eapply Permutation_trans; [apply IH|].
      eapply Permutation_trans;
        [apply Permutation_app_tail, addDest_permutation|].
      apply (Permutation_middle (flat_map snd m) (map (destOf this) l)
                                (destOf this p)). }
  apply (G []).
Qed.

Lemma dualCells_length (s : Z) (ext : list Z) :
  length (dualCells this (s, ext))
  = if (length ext =? 4)%nat then 5%nat else 0%nat.
Proof.
  unfold dualCells. cbn [snd].
  destruct ext as [|e0 [|e1 [|e2 [|e3 [|e4 ext]]]]]; try reflexivity.
  cbn [length Nat.eqb].
  repeat match goal with |- context [if ?c then _ else _] => destruct c end;
    reflexivity.
Qed.

Lemma dualCells_groups (m : list (Z * list Z)) :
  length (quadsIn (flat_map (dualCells this) m)) = length (filter fourFold m)
  /\ (4 * length (filter fourFold m) <= length (flat_map snd m))%nat.
Proof.
  induction m as [|[s ext] m [IH1 IH2]]; [split; [reflexivity|simpl; lia]|].
  cbn [flat_map filter snd].
  rewrite quadsIn_app_block by apply dualCells_block.
  rewrite !length_app, IH1.
  pose proof (dualCells_length s ext) as L.
  replace (fourFold (s, ext)) with (length ext =? 4)%nat by reflexivity.
  destruct (Nat.eqb_spec (length ext) 4) as [E|E].
  - cbn [length]. split; [|lia].
    assert (Q : length (quadsIn (dualCells this (s, ext))) = 1%nat).
    { unfold dualCells. cbn [snd].
      destruct ext as [|e0 [|e1 [|e2 [|e3 [|e4 ext]]]]]; try discriminate.
      repeat match goal with |- context [if ?c then _ else _] => destruct c end;
        reflexivity. }
    rewrite Q. reflexivity.
  - apply length_zero_iff_nil in L. rewrite L. split; [reflexivity|lia].
Qed.

(** X7. The dual builder writes as many quads as there are sources with
    exactly four destinations: at most a quarter of the number of edges. *)
Theorem dualQuadrangulate_count (sepEdges : list (Z * Z)) :
  length (quadsIn (dualQuadrangulate this sepEdges []))
  = length (filter fourFold (sourceDests this sepEdges))
  /\ (4 * length (quadsIn (dualQuadrangulate this sepEdges []))
      <= length sepEdges)%nat.
Proof.
  unfold dualQuadrangulate. rewrite fold_app_flat_map. simpl.
  destruct (dualCells_groups (sourceDests this sepEdges)) as [H1 H2].
  rewrite sourceDests_total in H2. split; [assumption | lia].
Qed.

Lemma quadsIn_flat_map (m : list (Z * list Z)) (g : list Z) :
  In g (quadsIn (flat_map (dualCells this) m)) ->
  exists elt, In elt m /\ In g (quadsIn (dualCells this elt)).
Proof.
  induction m as [|elt m IH]; cbn [flat_map]; [intros []|].
  rewrite quadsIn_app_block by apply dualCells_block.
  intros H. apply in_app_or in H. destruct H as [H|H].
  - exists elt. split; [now left | assumption].
  - destruct (IH H) as [elt' [Hin Hg]]. exists elt'. split; [now right|].
    assumption.
Qed.

(** X8. The corners of a quad that the dual builder writes come from one
    key [s] of the map of the sources. The key is what the search found for
    the first cell of its edges, an index between [0] and the number of
    critical points, that number included; exactly four edges have it as
    their source, and each of the four corners is the destination that was
    found for one of these edges. *)
Theorem dualQuadrangulate_corners (sepEdges : list (Z * Z)) (g : list Z) :
  In g (quadsIn (dualQuadrangulate this sepEdges [])) ->
  exists s a1 a2 a3 a4,
    g = [4; a1; a2; a3; a4]
    /\ 0 <= s <= Z.max 0 (criticalPointsNumber_ this)
    /\ length (filter (fun p => sourceOf this p =? s) sepEdges) = 4%nat
    /\ forall a, In a [a1; a2; a3; a4] ->
                 exists p, In p sepEdges /\ sourceOf this p = s
                           /\ destOf this p = a.
Proof.
  unfold dualQuadrangulate. rewrite fold_app_flat_map. cbn [app].
  intros H. apply quadsIn_flat_map in H. destruct H as [[s ext] [Hin Hg]].
  assert (Hlen : length ext = 4%nat).
  { pose proof (dualCells_length s ext) as L.
    destruct (Nat.eqb_spec (length ext) 4) as [E|E]; [exact E|].
    apply length_zero_iff_nil in L. rewrite L in Hg. destruct Hg. }
  apply sourceDests_entries in Hin. destruct Hin as [_ Hext].
  apply dualCells_corners in Hg.
  destruct Hg as [a1 [a2 [a3 [a4 [-> Hcorners]]]]].
  assert (Hfrom : forall a, In a [a1; a2; a3; a4] ->
                            exists p, In p sepEdges /\ sourceOf this p = s
                                      /\ destOf this p = a).
  { intros a Ha. specialize (Hcorners a Ha). cbn [snd] in Hcorners.
    rewrite Hext in Hcorners. unfold destinations in Hcorners.
    apply in_map_iff in Hcorners. destruct Hcorners as [p [Hp Hfilter]].
    apply filter_In in Hfilter. destruct Hfilter as [Hin Hs].
    exists p. split; [assumption|]. split; [now apply Z.eqb_eq | assumption]. }
  exists s, a1, a2, a3, a4. split; [reflexivity|]. split.
  { destruct (Hfrom a1 (or_introl eq_refl)) as [p [_ [<- _]]].
    unfold sourceOf, criticalPointOfCell.
    pose proof (scanCellIds_first (fst p)
                  (Z.to_nat (criticalPointsNumber_ this)) 0) as Hscan.
    cbv zeta in Hscan. lia. }
  split; [|exact Hfrom].
  rewrite <- Hlen, Hext. unfold destinations. now rewrite length_map.
Qed.

End DualInvariants.

Lemma dualQuadrangulate_corners_witness :
  In [4; 1; 2; 3; 4]
     (quadsIn (dualQuadrangulate Examples.star
                 (pairUp (sepFlatEdges Examples.star)) []))
  /\ exists s a1 a2 a3 a4,
       [4; 1; 2; 3; 4] = [4; a1; a2; a3; a4]
       /\ 0 <= s <= Z.max 0 (criticalPointsNumber_ Examples.star)
       /\ length (filter (fun p => sourceOf Examples.star p =? s)
                         (pairUp (sepFlatEdges Examples.star))) = 4%nat
       /\ forall a, In a [a1; a2; a3; a4] ->
                    exists p, In p (pairUp (sepFlatEdges Examples.star))
                              /\ sourceOf Examples.star p = s
                              /\ destOf Examples.star p = a.
Proof.
  assert (H : In [4; 1; 2; 3; 4]
                 (quadsIn (dualQuadrangulate Examples.star
                             (pairUp (sepFlatEdges Examples.star)) []))).
  { vm_compute. left. reflexivity. }
  split; [exact H|].
  exact (dualQuadrangulate_corners Examples.star _ _ H).
Defined.

(** In dual mode, on the saddle whose first and third separatrices end in
    its own cell, the index 0 of the saddle is the first and the third
    corner of the quad. *)
Example dualQuadrangulate_source_among_corners :
  sourceDests Examples.sameCell (pairUp (sepFlatEdges Examples.sameCell))
  = [(0, [0; 2; 0; 3])]
  /\ dualQuadrangulate Examples.sameCell
                       (pairUp (sepFlatEdges Examples.sameCell)) []
     = [4; 0; 2; 0; 3].
Proof. split; vm_compute; reflexivity. Qed.

(** * Further properties of the direct builder *)

(** A loop whose turns each add the elements [G a] to the relation [R] of
    the state adds their union. *)
Lemma forEach_union {A S T : Type} (R : S -> T -> Prop) (G : A -> T -> Prop)
      (l : list A) (body : A -> S -> option S) :
  (forall a s1 s2, In a l -> body a s1 = Some s2 ->
                   forall e, R s2 e <-> R s1 e \/ G a e) ->
  forall s s', forEach l body s = Some s' ->
               forall e, R s' e <-> R s e \/ exists a, In a l /\ G a e.
Proof.
  induction l as [|a l IH]; intros Hstep s s' H e; simpl in H.
  - injection H as <-. split; [tauto|]. intros [?|[a [[] _]]]; assumption.
  - destruct (body a s) as [s1|] eqn:E; [|discriminate].
    rewrite (IH (fun a' t1 t2 Hin => Hstep a' t1 t2 (or_intror Hin)) s1 s' H e).
    rewrite (Hstep a s s1 (or_introl eq_refl) E e).
    split.
    + intros [[?|?]|[a' [? ?]]];
        [tauto | right; exists a; simpl; tauto | right; exists a'; simpl; tauto].
    + intros [?|[a' [[<-|?] ?]]]; [tauto | tauto | right; exists a'; tauto].
Qed.

(** A loop fails when one of its turns fails on every state that the turns
    before it can leave. *)
Lemma forEach_fails {A S : Type} (P : S -> Prop) (l : list A)
      (body : A -> S -> option S) (a : A) :
  In a l ->
  (forall x s1 s2, In x l -> P s1 -> body x s1 = Some s2 -> P s2) ->
  (forall s1, P s1 -> body a s1 = None) ->
  forall s, P s -> forEach l body s = None.
Proof.
  induction l as [|x l IH]; intros Hin Hkeep Hfail s Hs; [destruct Hin|].
  simpl. destruct (body x s) as [s1|] eqn:E; [|reflexivity].
  destruct Hin as [->|Hin].
  - rewrite (Hfail s Hs) in E. discriminate.
  - apply IH; [assumption | | assumption |].
    + intros y t1 t2 Hy. apply Hkeep. now right.
    + apply (Hkeep x s s1); [now left | assumption | assumption].
Qed.

Lemma modifyAt_inside {A : Type} (n : nat) (f : A -> A) (v v' : list A) :
  modifyAt n f v = Some v' -> (n < length v)%nat.
Proof.
  revert n v'. induction v as [|x v IH]; intros n v' H; [discriminate|].
  destruct n as [|n]; simpl in *; [lia|].
  destruct (modifyAt n f v) as [w|] eqn:E; [|discriminate].
  specialize (IH n w E). lia.
Qed.

Lemma modifyAt_outside {A : Type} (n : nat) (f : A -> A) (v : list A) :
  (length v <= n)%nat -> modifyAt n f v = None.
Proof.
  intros H. destruct (modifyAt n f v) as [v'|] eqn:E; [|reflexivity].
  apply modifyAt_inside in E. lia.
Qed.

Lemma pairsOf_positions {A : Type} (l : list A) (x y : A) :
  In (x, y) (pairsOf l) ->
  exists n m, (n < m)%nat /\ nth_error l n = Some x /\ nth_error l m = Some y.
Proof.
  induction l as [|a l IH]; simpl; [intros []|].
  intros H. apply in_app_or in H. destruct H as [H|H].
  - apply in_map_iff in H. destruct H as [y' [E Hy]]. injection E as -> ->.
    apply In_nth_error in Hy. destruct Hy as [m Hm].
    exists 0%nat, (S m). split; [lia|]. split; [reflexivity | exact Hm].
  - destruct (IH H) as [n [m [Hnm [Hn Hm]]]].
    exists (S n), (S m). split; [lia|]. split; assumption.
Qed.

Lemma nth_error_indexed_inv {A : Type} (v : list A) (n : nat) (i : Z) (x : A) :
  nth_error (indexed v) n = Some (i, x) ->
  i = Z.of_nat n /\ nth_error v n = Some x.
Proof.
  intros H.
  assert (Hn : (n < length v)%nat).
  { rewrite <- (indexed_length v). apply nth_error_Some. congruence. }
  destruct (nth_error v n) as [y|] eqn:E;
    [|apply nth_error_None in E; lia].
  rewrite (nth_error_indexed v n y E) in H. injection H as <- <-. now split.
Qed.

Lemma range_ascending (n : Z) : StronglySorted Z.lt (range n).
Proof.
  unfold range. generalize 0%nat as s.
  induction (Z.to_nat n) as [|len IH]; intros s; simpl; constructor.
  - apply IH.
  - apply Forall_forall. intros x Hx. apply in_map_iff in Hx.
    destruct Hx as [k [<- Hk]]. apply in_seq in Hk. lia.
Qed.

Lemma filter_ascending (f : Z -> bool) (l : list Z) :
  IdSet.ascending l -> IdSet.ascending (filter f l).
Proof.
  unfold IdSet.ascending. induction 1 as [|x l Hs IH Hx]; cbn [filter].
  - constructor.
  - destruct (f x); [|exact IH]. constructor; [exact IH|].
    rewrite Forall_forall in *. intros y Hy. apply filter_In in Hy.
    now apply Hx.
Qed.

(** Two ascending lists with the same elements are the same list. *)
Lemma ascending_ext (l l' : list Z) :
  IdSet.ascending l -> IdSet.ascending l' ->
  (forall x, In x l <-> In x l') -> l = l'.
Proof.
  unfold IdSet.ascending. intros Hl. revert l'.
  induction Hl as [|x l Hs IH Hx]; intros l' Hl' Hmem.
  - destruct l' as [|y l']; [reflexivity|].
    now destruct (proj2 (Hmem y) (or_introl eq_refl)).
  - destruct Hl' as [|y l' Hs' Hy].
    + now destruct (proj1 (Hmem x) (or_introl eq_refl)).
    + rewrite Forall_forall in Hx, Hy.
      assert (E : x = y).
      { destruct (proj1 (Hmem x) (or_introl eq_refl)) as [E|Hin];
          [now symmetry|].
        destruct (proj2 (Hmem y) (or_introl eq_refl)) as [E|Hin'];
          [assumption|].
        specialize (Hx y Hin'). specialize (Hy x Hin). lia. }
      subst y. f_equal. apply IH; [assumption|].
      intros z. split; intros Hz.
      * destruct (proj1 (Hmem z) (or_intror Hz)) as [E|Hin]; [|assumption].
        specialize (Hx z Hz). lia.
      * destruct (proj2 (Hmem z) (or_intror Hz)) as [E|Hin]; [|assumption].
        specialize (Hy z Hz). lia.
Qed.

Section SeparatrixMap.

Context {F : Type}.
Variable this : SurfaceQuadrangulation F.

Lemma recordSeparatrix_length (i j : Z) (st st' : list IdSet.t * list Z) :
  recordSeparatrix i j st = Some st' -> length (fst st') = length (fst st).
Proof.
  unfold recordSeparatrix, modifyAtZ.
  destruct (j <? 0); [discriminate|].
  destruct (modifyAt (Z.to_nat j) (IdSet.insert i) (fst st)) as [dests|] eqn:E;
    [|discriminate].
  destruct (modifyAt (Z.to_nat j) _ (snd st)) as [counts|]; [|discriminate].
  destruct (if i <? 0 then None else modifyAt (Z.to_nat i) _ counts);
    [|discriminate].
  intros H. injection H as <-. apply (modifyAt_nth_error _ _ _ _ E).
Qed.

Lemma recordSeparatrix_recorded (i j : Z) (st st' : list IdSet.t * list Z) :
  recordSeparatrix i j st = Some st' ->
  forall e, recorded (fst st') e <-> recorded (fst st) e \/ e = (i, j).
Proof.
  unfold recordSeparatrix, modifyAtZ.
  destruct (Z.ltb_spec j 0) as [|Hj]; [discriminate|].
  destruct (modifyAt (Z.to_nat j) (IdSet.insert i) (fst st)) as [dests|] eqn:E;
    [|discriminate].
  destruct (modifyAt (Z.to_nat j) _ (snd st)) as [counts|]; [|discriminate].
  destruct (if i <? 0 then None else modifyAt (Z.to_nat i) _ counts);
    [|discriminate].
  intros H. injection H as <-. cbn [fst].
  pose proof (modifyAt_inside _ _ _ _ E) as Hin.
  destruct (modifyAt_nth_error _ _ _ _ E) as [_ Hn].
  destruct (nth_error (fst st) (Z.to_nat j)) as [S0|] eqn:E0;
    [|apply nth_error_None in E0; lia].
  intros [i' j']. unfold recorded. cbn [fst snd]. rewrite Hn.
  destruct (Nat.eqb_spec (Z.to_nat j') (Z.to_nat j)) as [Ej|Ej].
  - rewrite Ej, E0. cbn [option_map]. split.
    + intros [Hj' [S [HS HS']]]. injection HS as <-.
      apply IdSet.In_insert in HS'. destruct HS' as [->|HS'].
      * right. f_equal. lia.
      * left. split; [assumption|]. now exists S0.
    + intros [[Hj' [S [HS HS']]]|H].
      * split; [assumption|]. injection HS as <-.
        exists (IdSet.insert i S0). split; [reflexivity|].
        apply IdSet.In_insert. now right.
      * injection H as -> ->. split; [assumption|].
        exists (IdSet.insert i S0). split; [reflexivity|].
        apply IdSet.In_insert. now left.
  - split; [tauto|]. intros [H|H]; [assumption|].
    injection H as -> ->. now contradiction Ej.
Qed.

(** The loop of line 149 for the edge [p] and the source [i]. *)
Lemma destLoop_recorded (p : Z * Z) (i : Z) (s1 s2 : list IdSet.t * list Z) :
  forEach (range (criticalPointsNumber_ this))
    (fun j st' =>
       if snd p =? criticalPointsCellIds_ this j
       then recordSeparatrix i j st' else Some st') s1 = Some s2 ->
  forall e, recorded (fst s2) e
            <-> recorded (fst s1) e
                \/ (0 <= snd e < criticalPointsNumber_ this
                    /\ snd p = criticalPointsCellIds_ this (snd e)
                    /\ fst e = i).
Proof.
  intros H e.
  eapply iff_trans.
  { eapply (forEach_union
              (fun s e => recorded (fst s) e)
              (fun j e => snd p = criticalPointsCellIds_ this j /\ e = (i, j)));
      [|exact H].
    intros j t1 t2 _ Hb e'. cbv beta in *.
    destruct (Z.eqb_spec (snd p) (criticalPointsCellIds_ this j)) as [Ep|Ep].
    - rewrite (recordSeparatrix_recorded _ _ _ _ Hb e'). tauto.
    - injection Hb as <-. tauto. }
  cbv beta.
  split; (intros [Hr|Hr]; [now left | right]).
  - destruct Hr as [j [Hj [Hp ->]]]. apply In_range in Hj. now cbn [fst snd].
  - destruct Hr as [Hj [Hp <-]]. exists (snd e). split.
    + now apply In_range.
    + split; [assumption|]. now destruct e.
Qed.

(** The loop of line 147 for the edge [p]. *)
Lemma sourceLoop_recorded (p : Z * Z) (s1 s2 : list IdSet.t * list Z) :
  forEach (range (criticalPointsNumber_ this))
    (fun i st =>
       if fst p =? criticalPointsCellIds_ this i then
         forEach (range (criticalPointsNumber_ this))
           (fun j st' =>
              if snd p =? criticalPointsCellIds_ this j
              then recordSeparatrix i j st' else Some st') st
       else Some st) s1 = Some s2 ->
  forall e, recorded (fst s2) e <-> recorded (fst s1) e \/ joins this p e.
Proof.
  intros H e.
  eapply iff_trans.
  { eapply (forEach_union
              (fun s e => recorded (fst s) e)
              (fun i e => fst p = criticalPointsCellIds_ this i
                          /\ 0 <= snd e < criticalPointsNumber_ this
                          /\ snd p = criticalPointsCellIds_ this (snd e)
                          /\ fst e = i));
      [|exact H].
    intros i t1 t2 _ Hb e'. cbv beta in *.
    destruct (Z.eqb_spec (fst p) (criticalPointsCellIds_ this i)) as [Ep|Ep].
    - rewrite (destLoop_recorded _ _ _ _ Hb e'). tauto.
    - injection Hb as <-. tauto. }
  cbv beta.
  unfold joins.
  split; (intros [Hr|Hr]; [now left | right]).
  - destruct Hr as [i [Hi [Hp [Hj [Hq <-]]]]]. apply In_range in Hi. tauto.
  - exists (fst e). split; [apply In_range|]; tauto.
Qed.

(** What the loops of lines 146-159 leave in [sepMappingDests]. *)
Lemma mapSeparatrices_recorded (sepEdges : list (Z * Z))
      (st : list IdSet.t * list Z) :
  mapSeparatrices this sepEdges = Some st ->
  forall e, recorded (fst st) e <-> exists p, In p sepEdges /\ joins this p e.
Proof.
  unfold mapSeparatrices.
  destruct (criticalPointsNumber_ this <? 0); [discriminate|].
  intros H e.
  eapply iff_trans.
  { eapply (forEach_union (fun s e => recorded (fst s) e) (joins this));
      [|exact H].
    intros p t1 t2 _ Hb. apply (sourceLoop_recorded p t1 t2 Hb). }
  cbn [fst]. split; [|now right]. intros [[_ [S [HS Hin]]]|Hr]; [|assumption].
  apply nth_error_In, repeat_spec in HS. subst S. destruct Hin.
Qed.

(** X9. When the loops over the edges return, the set they leave at an
    index [j] of [sepMappingDests] holds the indices [i] of the critical
    points such that some edge runs from the cell of [i] to the cell of
    [j], and nothing else. *)
Theorem mapSeparatrices_sources (sepEdges : list (Z * Z))
        (dests : list IdSet.t) (counts : list Z) (j : nat) (S : IdSet.t) :
  mapSeparatrices this sepEdges = Some (dests, counts) ->
  nth_error dests j = Some S ->
  forall i, In i S
            <-> exists p, In p sepEdges /\ joins this p (i, Z.of_nat j).
Proof.
  intros H HS i.
  rewrite <- (mapSeparatrices_recorded _ _ H (i, Z.of_nat j)).
  unfold recorded. cbn [fst snd]. rewrite Nat2Z.id, HS. split.
  - intros Hin. split; [lia|]. now exists S.
  - intros [_ [S' [E Hin]]]. now injection E as <-.
Qed.

(** An edge [p] that joins a source to a destination whose index is not
    below the number of edges makes the loops write outside
    [sepMappingDests]. *)
Lemma mapSeparatrices_fails (sepEdges : list (Z * Z)) (p : Z * Z) (i j : Z) :
  In p sepEdges -> joins this p (i, j) ->
  Z.of_nat (length sepEdges) <= j ->
  mapSeparatrices this sepEdges = None.
Proof.
  intros Hp [Hi [Hj [Ei Ej]]] Hlate. cbn [fst snd] in *.
  unfold mapSeparatrices.
  destruct (Z.ltb_spec (criticalPointsNumber_ this) 0) as [|_];
    [reflexivity|].
  set (P := fun s : list IdSet.t * list Z =>
              length (fst s) = length sepEdges).
  assert (Hdest : forall (q : Z * Z) a x t1 t2,
             P t1 ->
             (if snd q =? criticalPointsCellIds_ this x
              then recordSeparatrix a x t1 else Some t1) = Some t2 ->
             P t2).
  { intros q a x t1 t2 H1 Hb.
    destruct (snd q =? criticalPointsCellIds_ this x).
    - apply recordSeparatrix_length in Hb. unfold P in *. congruence.
    - now injection Hb as <-. }
  assert (Hsource : forall (q : Z * Z) a t1 t2,
             P t1 ->
             (if fst q =? criticalPointsCellIds_ this a then
                forEach (range (criticalPointsNumber_ this))
                  (fun x st' =>
                     if snd q =? criticalPointsCellIds_ this x
                     then recordSeparatrix a x st' else Some st') t1
              else Some t1) = Some t2 ->
             P t2).
  { intros q a t1 t2 H1 Hb.
    destruct (fst q =? criticalPointsCellIds_ this a).
    - apply (forEach_invariant P _ _ _ _
               (fun x u1 u2 _ Hu Hb' => Hdest q a x u1 u2 Hu Hb') H1 Hb).
    - now injection Hb as <-. }
  apply (forEach_fails P sepEdges _ p Hp).
  - intros q t1 t2 _ H1 Hb.
    apply (forEach_invariant P _ _ _ _
             (fun a u1 u2 _ Hu Hb' => Hsource q a u1 u2 Hu Hb') H1 Hb).
  - intros t1 H1.
    apply (forEach_fails P _ _ i); [now apply In_range | | | exact H1].
    + intros a u1 u2 _. apply Hsource.
    + intros u1 Hu. rewrite Ei, Z.eqb_refl.
      apply (forEach_fails P _ _ j); [now apply In_range | | | exact Hu].
      * intros x v1 v2 _. apply (Hdest p i).
      * intros v1 Hv. rewrite Ej, Z.eqb_refl.
        unfold recordSeparatrix, modifyAtZ.
        destruct (Z.ltb_spec j 0); [reflexivity|].
        rewrite modifyAt_outside; [reflexivity|]. unfold P in Hv. lia.
  - unfold P. cbn [fst]. apply repeat_length.
Qed.

Lemma linksTo_joins (sepEdges : list (Z * Z)) (s d : Z) :
  0 <= s < criticalPointsNumber_ this ->
  0 <= d < criticalPointsNumber_ this ->
  linksTo this sepEdges s d = true
  <-> exists p, In p sepEdges /\ joins this p (s, d).
Proof.
  intros Hs Hd. unfold linksTo, joins. cbn [fst snd].
  rewrite existsb_exists. split.
  - intros [p [Hp E]]. apply andb_true_iff in E. destruct E as [E1 E2].
    apply Z.eqb_eq in E1, E2. exists p. tauto.
  - intros [p [Hp [_ [_ [E1 E2]]]]]. exists p. split; [assumption|].
    apply andb_true_iff. split; now apply Z.eqb_eq.
Qed.

(** The intersection of the sets that the loops leave at two indices is the
    list of the common saddles of the two critical points. *)
Lemma inter_commonSaddles (sepEdges : list (Z * Z)) (dests : list IdSet.t)
      (counts : list Z) (i k : nat) (Si Sk : IdSet.t) :
  mapSeparatrices this sepEdges = Some (dests, counts) ->
  nth_error dests i = Some Si ->
  nth_error dests k = Some Sk ->
  Z.of_nat i < criticalPointsNumber_ this ->
  Z.of_nat k < criticalPointsNumber_ this ->
  IdSet.inter Si Sk = commonSaddles this sepEdges (Z.of_nat i) (Z.of_nat k).
Proof.
  intros Hmap Hi Hk HiN HkN.
  pose proof (mapSeparatrices_invariant this _ _ Hmap) as [_ Hinv].
  cbn [fst] in Hinv. destruct (Hinv i Si Hi) as [HSi HSi'].
  apply ascending_ext.
  - now apply IdSet.inter_ascending.
  - apply filter_ascending, range_ascending.
  - intros j. rewrite IdSet.In_inter. unfold commonSaddles.
    rewrite filter_In, In_range, andb_true_iff.
    assert (Hrec : forall n S, nth_error dests n = Some S ->
                               In j S <-> recorded dests (j, Z.of_nat n)).
    { intros n S Hn. unfold recorded. cbn [fst snd]. rewrite Nat2Z.id, Hn.
      split.
      - intros Hin. split; [lia|]. now exists S.
      - intros [_ [S' [E Hin]]]. now injection E as <-. }
    rewrite (Hrec i Si Hi), (Hrec k Sk Hk).
    rewrite !(mapSeparatrices_recorded _ _ Hmap). cbn [fst]. split.
    + intros [[p [Hp Hjp]] [q [Hq Hjq]]].
      assert (Hj : 0 <= j < criticalPointsNumber_ this)
        by (destruct Hjp as [Hj _]; exact Hj).
      split; [exact Hj|]. split; apply linksTo_joins; try lia; eauto.
    + intros [Hj [L1 L2]].
      apply linksTo_joins in L1, L2; try lia. tauto.
Qed.

End SeparatrixMap.

Section DirectInvariants.

Context {F : Type}.
Variables (fzero : F) (fadd : F -> F -> F)
          (distance : F * F * F -> F * F * F -> F)
          (absHalfDiff : F -> F -> F) (fltb : F -> F -> bool)
          (max_size : Z) (strayRead : nat -> Z * Z).
Variable this : SurfaceQuadrangulation F.

Local Abbreviation quadrangulate' :=
  (quadrangulate fzero fadd distance absHalfDiff fltb max_size strayRead this).

(** X10. When an edge runs from the cell of a critical point to the cell of
    a critical point whose index is not below the number of edges, the
    direct builder does not return: [sepMappingDests], created with one set
    for each edge, is written at that index. *)
Theorem quadrangulate_out_of_range (sepEdges : list (Z * Z)) (b : Buffers)
        (p : Z * Z) (i j : Z) :
  In p sepEdges -> joins this p (i, j) ->
  Z.of_nat (length sepEdges) <= j ->
  quadrangulate' sepEdges b = None.
Proof.
  intros Hp Hj Hlate. unfold quadrangulate.
  now rewrite (mapSeparatrices_fails this sepEdges p i j Hp Hj Hlate).
Qed.

(** X11. Every quad [i, j, k, l] that the direct builder writes has its
    first corner before its third in the order of the critical points, the
    two of them of different types, its second corner not after its fourth,
    and for each of the second and fourth corners an edge that runs from its
    cell to the cell of the first corner and one to the cell of the
    third. *)
Theorem quadrangulate_quads_span_edges (sepEdges : list (Z * Z))
        (pts : list F) (b : Buffers) (i j k l : Z) :
  quadrangulate' sepEdges {| cellsOf := []; pointsOf := pts; ndegenOf := 0 |}
  = Some b ->
  In [4; i; j; k; l] (quadsIn (cellsOf b)) ->
  i < k
  /\ criticalPointsType_ this k <> criticalPointsType_ this i
  /\ j <= l
  /\ forall s d, In s [j; l] -> In d [i; k] ->
                 exists p, In p sepEdges /\ joins this p (s, d).
Proof.
  intros Hq Hg. apply quadrangulate_emits in Hq.
  destruct Hq as [dests [counts [Hmap [Hcells _]]]]. simpl in Hcells.
  rewrite Hcells, quadsIn_cells in Hg. apply in_map_iff in Hg.
  destruct Hg as [[[[a1 a2] a3] a4] [E Hin]]. injection E as -> -> -> ->.
  pose proof (mapSeparatrices_invariant this _ _ Hmap) as [_ Hinv].
  cbn [fst] in Hinv.
  unfold allQuads in Hin. apply in_flat_map in Hin.
  destruct Hin as [[[i' Si] [k' Sk]] [Hpair Hin]].
  unfold enumeratedPairs in Hpair. apply filter_In in Hpair.
  destruct Hpair as [Hpair Hen]. unfold quadsBetween in Hin.
  cbn [fst snd] in Hin.
  destruct (pairQuads_corners this _ _ _ _ _ _ _ _ Hin) as [-> ->].
  destruct (pairQuads_saddles this _ _ _ _ _ _ _ _ Hin) as [Hj Hl].
  apply pairsOf_positions in Hpair.
  destruct Hpair as [n [m [Hnm [Hn Hm]]]].
  apply nth_error_indexed_inv in Hn, Hm.
  destruct Hn as [-> Hn]. destruct Hm as [-> Hm].
  destruct (Hinv n Si Hn) as [Hasc _].
  split; [lia|]. split.
  { unfold enumerated in Hen. apply andb_prop in Hen. destruct Hen as [_ Hen].
    apply negb_true_iff, Z.eqb_neq in Hen. exact Hen. }
  split.
  { unfold pairQuads in Hin.
    destruct (2 <=? length (IdSet.inter Si Sk))%nat.
    - apply in_map_iff in Hin. destruct Hin as [[j' l'] [E Hin]].
      injection E as <- <-. apply filter_In in Hin. destruct Hin as [Hin _].
      apply pairsOf_ascending in Hin; [lia|].
      now apply IdSet.inter_ascending.
    - destruct (degeneratePair Si Sk); [|destruct Hin].
      destruct Hin as [E|[]]. injection E as <- <-. lia. }
  apply IdSet.In_inter in Hj, Hl.
  assert (Hrec : forall s d, In s [j; l] -> In d [Z.of_nat n; Z.of_nat m] ->
                             recorded dests (s, d)).
  { intros s d Hs Hd. unfold recorded. cbn [fst snd].
    destruct Hd as [<-|[<-|[]]]; (split; [lia|]); rewrite Nat2Z.id.
    - exists Si. split; [assumption|]. destruct Hs as [<-|[<-|[]]]; tauto.
    - exists Sk. split; [assumption|]. destruct Hs as [<-|[<-|[]]]; tauto. }
  intros s d Hs Hd.
  apply (mapSeparatrices_recorded this _ _ Hmap (s, d)). now apply Hrec.
Qed.

(** X22. When the direct builder, called as [execute] calls it, returns: for
    two critical points [i < k] of differing type with two common saddles
    or more, a common saddle being a critical point from whose cell an edge
    runs to the cell of [i] and an edge to the cell of [k], and for every
    two common saddles [j < l], the group [4, i, j, k, l] is in the cell
    buffer once when [hasCommonManifold] accepts [j, l], and not at all when
    it does not. The groups with the corners [i] and [k] are therefore at
    most [n (n - 1) / 2] for [n] common saddles. *)
Theorem quadrangulate_quads_of_common_saddles (sepEdges : list (Z * Z))
        (pts : list F) (b : Buffers) (i k : Z) :
  quadrangulate' sepEdges {| cellsOf := []; pointsOf := pts; ndegenOf := 0 |}
  = Some b ->
  0 <= i < k -> k < criticalPointsNumber_ this ->
  criticalPointsType_ this k <> criticalPointsType_ this i ->
  (2 <= length (commonSaddles this sepEdges i k))%nat ->
  (forall j l,
      In j (commonSaddles this sepEdges i k) ->
      In l (commonSaddles this sepEdges i k) -> j < l ->
      count_occ (list_eq_dec Z.eq_dec) (quadsIn (cellsOf b)) [4; i; j; k; l]
      = if hasCommonManifold this [j; l] then 1%nat else 0%nat)
  /\ (2 * length (filter (between i k) (quadsIn (cellsOf b)))
      <= length (commonSaddles this sepEdges i k)
         * (length (commonSaddles this sepEdges i k) - 1))%nat.
Proof.
  intros Hq Hik HkN Hty Hcommon.
  destruct (quadrangulate_emits fzero fadd distance absHalfDiff fltb
              max_size strayRead this _ _ _ Hq)
    as [dests [counts [Hmap _]]].
  pose proof (mapSeparatrices_invariant this _ _ Hmap) as [Hlen _].
  cbn [fst] in Hlen.
  (* a common saddle, and the edges that link it to [i] and to [k] *)
  destruct (commonSaddles this sepEdges i k) as [|j0 rest] eqn:Ecommon;
    [simpl in Hcommon; lia|].
  assert (Hj0 : In j0 (commonSaddles this sepEdges i k))
    by (rewrite Ecommon; now left).
  unfold commonSaddles in Hj0. apply filter_In in Hj0.
  destruct Hj0 as [Hrange Hlinks]. apply In_range in Hrange.
  apply andb_true_iff in Hlinks. destruct Hlinks as [Li Lk].
  apply (linksTo_joins this) in Li, Lk; try lia.
  destruct Li as [p [Hp Hjp]]. destruct Lk as [q [Hq' Hjq]].
  (* the two sets exist: a destination not below the number of edges would
     have stopped the loops *)
  assert (Hk : k < Z.of_nat (length sepEdges)).
  { destruct (Z.lt_ge_cases k (Z.of_nat (length sepEdges))) as [H|H];
      [exact H|].
    rewrite (mapSeparatrices_fails this sepEdges q j0 k Hq' Hjq H) in Hmap.
    discriminate. }
  destruct (nth_error dests (Z.to_nat i)) as [Si|] eqn:Ei;
    [|apply nth_error_None in Ei; lia].
  destruct (nth_error dests (Z.to_nat k)) as [Sk|] eqn:Ek;
    [|apply nth_error_None in Ek; lia].
  assert (Hinter : IdSet.inter Si Sk = commonSaddles this sepEdges i k).
  { rewrite (inter_commonSaddles this sepEdges dests counts
               (Z.to_nat i) (Z.to_nat k) Si Sk Hmap Ei Ek)
      by (rewrite Z2Nat.id; lia).
    now rewrite !Z2Nat.id by lia. }
  rewrite <- Ecommon, <- Hinter.
  assert (HSi : In j0 Si).
  { assert (Hr : recorded (fst (dests, counts)) (j0, i)).
    { apply (mapSeparatrices_recorded this _ _ Hmap). exists p. now split. }
    destruct Hr as [_ [S [ES Hin]]]. cbn [fst snd] in ES, Hin.
    rewrite Ei in ES. now injection ES as <-. }
  assert (HSk : In j0 Sk).
  { assert (Hr : recorded (fst (dests, counts)) (j0, k)).
    { apply (mapSeparatrices_recorded this _ _ Hmap). exists q. now split. }
    destruct Hr as [_ [S [ES Hin]]]. cbn [fst snd] in ES, Hin.
    rewrite Ek in ES. now injection ES as <-. }
  pose proof (quadrangulate_quads_of_pair fzero fadd distance absHalfDiff
                fltb max_size strayRead this sepEdges pts b dests counts
                (Z.to_nat i) (Z.to_nat k) Si Sk Hq Hmap Ei Ek) as Hpair.
  rewrite !Z2Nat.id in Hpair by lia.
  apply Hpair.
  - lia.
  - intros ->. destruct HSi.
  - intros ->. destruct HSk.
  - exact Hty.
  - rewrite Hinter, Ecommon. exact Hcommon.
Qed.

End DirectInvariants.

Lemma quadrangulate_quads_of_common_saddles_witness :
  Examples.build Examples.torus (pairUp (sepFlatEdges Examples.torus))
                 Examples.cleared
  = Some {| cellsOf := [4; 0; 1; 2; 3];
            pointsOf := [0; 0; 0; 0; 0; 0; 0; 0; 0; 0; 0; 0];
            ndegenOf := 0 |}
  /\ commonSaddles Examples.torus (pairUp (sepFlatEdges Examples.torus)) 0 2
     = [1; 3]
  /\ hasCommonManifold Examples.torus [1; 3] = true
  /\ count_occ (list_eq_dec Z.eq_dec) (quadsIn [4; 0; 1; 2; 3])
               [4; 0; 1; 2; 3]
     = 1%nat.
Proof.
  assert (H1 : Examples.build Examples.torus
                 (pairUp (sepFlatEdges Examples.torus)) Examples.cleared
               = Some {| cellsOf := [4; 0; 1; 2; 3];
                         pointsOf := [0; 0; 0; 0; 0; 0; 0; 0; 0; 0; 0; 0];
                         ndegenOf := 0 |})
    by (vm_compute; reflexivity).
  assert (H2 : commonSaddles Examples.torus
                 (pairUp (sepFlatEdges Examples.torus)) 0 2 = [1; 3])
    by (vm_compute; reflexivity).
  assert (H3 : hasCommonManifold Examples.torus [1; 3] = true)
    by (vm_compute; reflexivity).
  split; [exact H1|]. split; [exact H2|]. split; [exact H3|].
  pose proof (proj1 (quadrangulate_quads_of_common_saddles
                       0 Z.add Examples.zdistance
                       Examples.zabsHalfDiff Z.ltb Examples.floats
                       Examples.zeros Examples.torus _ [] _ 0 2
                       H1 ltac:(lia) ltac:(vm_compute; reflexivity)
                       ltac:(vm_compute; discriminate)
                       ltac:(rewrite H2; simpl; lia))
                    1 3) as H.
  rewrite H3 in H. apply H.
  - rewrite H2. simpl. tauto.
  - rewrite H2. simpl. tauto.
  - lia.
Defined.

Lemma mapSeparatrices_sources_witness :
  mapSeparatrices Examples.spur (pairUp (sepFlatEdges Examples.spur))
  = Some ([[1; 3]; []; [1]], [2; 2; 1; 1])
  /\ forall i, In i [1; 3]
               <-> exists p, In p (pairUp (sepFlatEdges Examples.spur))
                             /\ joins Examples.spur p (i, Z.of_nat 0).
Proof.
  assert (H : mapSeparatrices Examples.spur
                (pairUp (sepFlatEdges Examples.spur))
              = Some ([[1; 3]; []; [1]], [2; 2; 1; 1])).
  { vm_compute. reflexivity. }
  split; [exact H|].
  exact (mapSeparatrices_sources Examples.spur _ _ _ 0%nat [1; 3] H eq_refl).
Defined.

Lemma quadrangulate_out_of_range_witness :
  In (10, 11) [(10, 11)]
  /\ joins Examples.arc (10, 11) (0, 1)
  /\ Examples.build Examples.arc [(10, 11)] Examples.cleared = None.
Proof.
  assert (Hin : In (10, 11) [(10, 11)]) by (left; reflexivity).
  assert (Hj : joins Examples.arc (10, 11) (0, 1)).
  { unfold joins. simpl. repeat split; lia. }
  split; [exact Hin|]. split; [exact Hj|].
  apply (quadrangulate_out_of_range 0 Z.add Examples.zdistance
           Examples.zabsHalfDiff Z.ltb Examples.floats
                  Examples.zeros Examples.arc
           [(10, 11)] Examples.cleared (10, 11) 0 1 Hin Hj).
  simpl. lia.
Defined.

Lemma quadrangulate_quads_span_edges_witness :
  let this := Examples.square false in
  let sepEdges := pairUp (sepFlatEdges this) in
  0 < 2
  /\ criticalPointsType_ this 2 <> criticalPointsType_ this 0
  /\ 1 <= 3
  /\ forall s d, In s [1; 3] -> In d [0; 2] ->
                 exists p, In p sepEdges /\ joins this p (s, d).
Proof.
  assert (H : Examples.build (Examples.square false)
                (pairUp (sepFlatEdges (Examples.square false)))
                {| cellsOf := []; pointsOf := []; ndegenOf := 0 |}
              = Some {| cellsOf := [4; 0; 1; 2; 3];
                        pointsOf := [0; 0; 0; 0; 0; 0; 0; 0; 0; 0; 0; 0];
                        ndegenOf := 0 |}).
  { vm_compute. reflexivity. }
  apply (quadrangulate_quads_span_edges 0 Z.add Examples.zdistance
           Examples.zabsHalfDiff Z.ltb Examples.floats
                  Examples.zeros (Examples.square false)
           _ _ _ 0 1 2 3 H).
  simpl. left. reflexivity.
Defined.

(** * Further properties of the middles *)

(** In the kept part of an ascending list nothing that is kept comes before
    the first entry. *)
Lemma filter_first (f : Z -> bool) (l : list Z) (b : Z) :
  StronglySorted Z.lt l ->
  nth_error (filter f l) 0 = Some b ->
  forall c, In c l -> c < b -> f c = false.
Proof.
  induction l as [|x l IH]; intros Hs Hb c Hc Hlt; [destruct Hc|].
  inversion Hs as [|? ? Hs' Hx]; subst. simpl in Hb.
  destruct (f x) eqn:E.
  - injection Hb as <-. destruct Hc as [->|Hc]; [lia|].
    rewrite Forall_forall in Hx. specialize (Hx c Hc). lia.
  - destruct Hc as [->|Hc]; [assumption|]. now apply IH.
Qed.

(** Two neighbours of the kept part of an ascending list are in order, and
    nothing between them is kept. *)
Lemma filter_consecutive (f : Z -> bool) (l : list Z) (i : nat) (a b : Z) :
  StronglySorted Z.lt l ->
  nth_error (filter f l) i = Some a ->
  nth_error (filter f l) (S i) = Some b ->
  a < b /\ forall c, In c l -> a < c < b -> f c = false.
Proof.
  revert i. induction l as [|x l IH]; intros i Hs Ha Hb;
    [destruct i; discriminate|].
  inversion Hs as [|? ? Hs' Hx]; subst. rewrite Forall_forall in Hx.
  simpl in Ha, Hb. destruct (f x) eqn:E.
  - destruct i as [|i].
    + injection Ha as <-.
      change (nth_error (filter f l) 0 = Some b) in Hb. split.
      * apply Hx. apply nth_error_In in Hb. apply filter_In in Hb. tauto.
      * intros c [->|Hc] Hlt; [lia|].
        apply (filter_first f l b Hs' Hb c Hc). lia.
    + change (nth_error (filter f l) i = Some a) in Ha.
      change (nth_error (filter f l) (S i) = Some b) in Hb.
      destruct (IH i Hs' Ha Hb) as [Hab Hbetween]. split; [assumption|].
      intros c [->|Hc] Hlt; [|now apply Hbetween].
      apply nth_error_In, filter_In in Ha. destruct Ha as [Ha _].
      specialize (Hx a Ha). lia.
  - destruct (IH i Hs' Ha Hb) as [Hab Hbetween]. split; [assumption|].
    intros c [->|Hc] Hlt; [assumption | now apply Hbetween].
Qed.

Section ScanInvariants.

Context {F : Type}.
Variable pastTheEnd : Z * Z.
Variable this : SurfaceQuadrangulation F.

(** The bounds that the scan collects are read at an index of the position
    list and at the next index. *)
Lemma scanPositions_bounds (src dst : Z) (pos : list (Z * Z)) (ab : Z * Z) :
  In ab (fst (scanPositions pastTheEnd this src dst pos)) ->
  exists i, (i < length pos)%nat
            /\ ab = (snd (nth i pos pastTheEnd),
                     snd (nth (i + 1) pos pastTheEnd))
            /\ fst (nth i pos pastTheEnd) = criticalPointsCellIds_ this src
            /\ fst (nth (i + 1) pos pastTheEnd)
               = criticalPointsCellIds_ this dst.
Proof.
  unfold scanPositions.
  assert (G : forall l acc,
             In ab (fst (fold_left
                    (fun (acc : list (Z * Z) * list nat) (i : nat) =>
                       let p := nth i pos pastTheEnd in
                       let q := nth (i + 1) pos pastTheEnd in
                       let reads := snd acc ++ [i; (i + 1)%nat] in
                       if (fst p =? criticalPointsCellIds_ this src)
                          && (fst q =? criticalPointsCellIds_ this dst)
                       then (fst acc ++ [(snd p, snd q)], reads)
                       else (fst acc, reads)) l acc)) ->
             In ab (fst acc)
             \/ exists i, In i l
                          /\ ab = (snd (nth i pos pastTheEnd),
                                   snd (nth (i + 1) pos pastTheEnd))
                          /\ fst (nth i pos pastTheEnd)
                             = criticalPointsCellIds_ this src
                          /\ fst (nth (i + 1) pos pastTheEnd)
                             = criticalPointsCellIds_ this dst).
  { induction l as [|i l IH]; intros acc H; cbn [fold_left] in H.
    - now left.
    - apply IH in H. destruct H as [H|[k [Hk H]]].
      + cbv zeta in H.
        destruct (Z.eqb_spec (fst (nth i pos pastTheEnd))
                             (criticalPointsCellIds_ this src)) as [E1|E1];
          destruct (Z.eqb_spec (fst (nth (i + 1) pos pastTheEnd))
                               (criticalPointsCellIds_ this dst)) as [E2|E2];
          cbn [andb fst] in H; try (now left).
        apply in_app_or in H. destruct H as [H|[<-|[]]]; [now left|].
        right. exists i. split; [now left|]. now split.
      + right. exists k. split; [now right | assumption]. }
  intros H. apply G in H. destruct H as [[]|[i [Hi H]]].
  exists i. split; [|assumption]. apply in_seq in Hi. lia.
Qed.

Lemma scanPositions_length (src dst : Z) (pos : list (Z * Z)) :
  (length (fst (scanPositions pastTheEnd this src dst pos)) <= length pos)%nat.
Proof.
  unfold scanPositions.
  set (body := fun (acc : list (Z * Z) * list nat) (i : nat) =>
                 let p := nth i pos pastTheEnd in
                 let q := nth (i + 1) pos pastTheEnd in
                 let reads := snd acc ++ [i; (i + 1)%nat] in
                 if (fst p =? criticalPointsCellIds_ this src)
                    && (fst q =? criticalPointsCellIds_ this dst)
                 then (fst acc ++ [(snd p, snd q)], reads)
                 else (fst acc, reads)).
  assert (G : forall l acc,
             (length (fst (fold_left body l acc))
              <= length (fst acc) + length l)%nat).
  { induction l as [|i l IH]; intros acc; cbn [fold_left length]; [lia|].
    etransitivity; [apply IH|]. unfold body at 1. cbv zeta.
    destruct ((fst (nth i pos pastTheEnd) =? criticalPointsCellIds_ this src)
              && (fst (nth (i + 1) pos pastTheEnd)
                  =? criticalPointsCellIds_ this dst));
      cbn [fst]; [rewrite length_app; simpl|]; lia. }
  etransitivity; [apply (G _ ([], []))|]. rewrite length_seq. simpl. lia.
Qed.

(** On the position list of the direct builder the bounds are in order and
    below the number of samples, unless the read past the end yields the
    cell of the destination. *)
Lemma scanPositions_regular (src dst a b : Z) :
  In (a, b) (fst (scanPositions pastTheEnd this src dst
                                (sepFlatEdgesPos this))) ->
  0 <= a < b /\ b < separatriceNumber_ this
  \/ fst pastTheEnd = criticalPointsCellIds_ this dst.
Proof.
  intros H. apply scanPositions_bounds in H.
  destruct H as [i [Hi [E [_ Hdst]]]]. injection E as -> ->.
  unfold sepFlatEdgesPos in *. rewrite length_map in Hi.
  set (kept := filter (fun i => negb (sepMask_ this i =? 1))
                      (range (separatriceNumber_ this))) in *.
  set (entry := fun i => (sepCellIds_ this i, i)) in *.
  assert (Hnth : forall n k, nth_error kept n = Some k ->
                             nth n (map entry kept) pastTheEnd = entry k).
  { intros n k Hk. apply nth_error_nth. now rewrite nth_error_map, Hk. }
  destruct (nth_error kept i) as [x|] eqn:Ex;
    [|apply nth_error_None in Ex; lia].
  rewrite (Hnth i x Ex). cbn [entry snd].
  destruct (nth_error kept (i + 1)) as [y|] eqn:Ey.
  - left. rewrite (Hnth (i + 1)%nat y Ey). cbn [entry snd].
    replace (i + 1)%nat with (S i) in Ey by lia.
    destruct (filter_consecutive _ _ i x y
                (range_ascending (separatriceNumber_ this)) Ex Ey)
      as [Hxy _].
    apply nth_error_In, filter_In in Ex, Ey.
    destruct Ex as [Hx _]. destruct Ey as [Hy _].
    apply In_range in Hx, Hy. lia.
  - right. apply nth_error_None in Ey.
    rewrite nth_overflow in Hdst by (rewrite length_map; exact Ey).
    exact Hdst.
Qed.

(** X12. The bounds that [findSeparatrixMiddle] collects on the position
    list of the direct builder are two samples that the mask keeps, with
    only masked samples between them, the first in the cell of the source and
    the second in the cell of the destination; the one exception is a pair
    whose second half is what the read past the end of the list yields. *)
Theorem scanPositions_consecutive (src dst a b : Z) :
  In (a, b) (fst (scanPositions pastTheEnd this src dst
                                (sepFlatEdgesPos this))) ->
  (0 <= a < b /\ b < separatriceNumber_ this
   /\ sepMask_ this a <> 1 /\ sepMask_ this b <> 1
   /\ sepCellIds_ this a = criticalPointsCellIds_ this src
   /\ sepCellIds_ this b = criticalPointsCellIds_ this dst
   /\ forall c, a < c < b -> sepMask_ this c = 1)
  \/ (b = snd pastTheEnd
      /\ fst pastTheEnd = criticalPointsCellIds_ this dst).
Proof.
  intros H. apply scanPositions_bounds in H.
  destruct H as [i [Hi [E [Hsrc Hdst]]]]. injection E as -> ->.
  unfold sepFlatEdgesPos in *. rewrite length_map in Hi.
  set (keep := fun i => negb (sepMask_ this i =? 1)) in *.
  set (kept := filter keep (range (separatriceNumber_ this))) in *.
  set (entry := fun i => (sepCellIds_ this i, i)) in *.
  assert (Hnth : forall n k, nth_error kept n = Some k ->
                             nth n (map entry kept) pastTheEnd = entry k).
  { intros n k Hk. apply nth_error_nth. now rewrite nth_error_map, Hk. }
  destruct (nth_error kept i) as [x|] eqn:Ex;
    [|apply nth_error_None in Ex; lia].
  rewrite (Hnth i x Ex) in *. cbn [entry fst snd] in *.
  destruct (nth_error kept (i + 1)) as [y|] eqn:Ey.
  - left. rewrite (Hnth (i + 1)%nat y Ey) in *. cbn [entry fst snd] in *.
    replace (i + 1)%nat with (S i) in Ey by lia.
    destruct (filter_consecutive keep _ i x y
                (range_ascending (separatriceNumber_ this)) Ex Ey)
      as [Hxy Hbetween].
    apply nth_error_In, filter_In in Ex, Ey.
    destruct Ex as [Hx Kx]. destruct Ey as [Hy Ky].
    apply In_range in Hx, Hy. unfold keep in Kx, Ky.
    apply negb_true_iff, Z.eqb_neq in Kx, Ky.
    repeat split; try assumption; try lia.
    intros c Hc.
    assert (Hkc : keep c = false).
    { apply Hbetween; [apply In_range; lia | assumption]. }
    unfold keep in Hkc. apply negb_false_iff, Z.eqb_eq in Hkc. exact Hkc.
  - right. apply nth_error_None in Ey.
    rewrite nth_overflow in * by (rewrite length_map; exact Ey).
    now split.
Qed.

End ScanInvariants.

Lemma scanPositions_consecutive_witness :
  let this := Examples.arc in
  In (0, 4) (fst (scanPositions (0, 0) this 1 0 (sepFlatEdgesPos this)))
  /\ ((0 <= 0 < 4 /\ 4 < separatriceNumber_ this
       /\ sepMask_ this 0 <> 1 /\ sepMask_ this 4 <> 1
       /\ sepCellIds_ this 0 = criticalPointsCellIds_ this 1
       /\ sepCellIds_ this 4 = criticalPointsCellIds_ this 0
       /\ forall c, 0 < c < 4 -> sepMask_ this c = 1)
      \/ (4 = snd (0, 0) /\ fst (0, 0) = criticalPointsCellIds_ this 0)).
Proof.
  assert (H : In (0, 4) (fst (scanPositions (0, 0) Examples.arc 1 0
                                 (sepFlatEdgesPos Examples.arc)))).
  { vm_compute. left. reflexivity. }
  split; [exact H|].
  exact (scanPositions_consecutive (0, 0) Examples.arc 1 0 0 4 H).
Defined.

Section MiddleInvariants.

Context {F : Type}.
Variables (fzero : F) (fadd : F -> F -> F)
          (distance : F * F * F -> F * F * F -> F)
          (absHalfDiff : F -> F -> F) (fltb : F -> F -> bool)
          (max_size : Z) (pastTheEnd : Z * Z).
Variable this : SurfaceQuadrangulation F.

Local Abbreviation addMiddle' :=
  (addMiddle fzero fadd distance absHalfDiff fltb max_size this).
Local Abbreviation findSeparatrixMiddle' :=
  (findSeparatrixMiddle fzero fadd distance absHalfDiff fltb max_size pastTheEnd this).
Local Abbreviation middleOf' :=
  (middleOf fzero fadd distance absHalfDiff fltb this).
Local Abbreviation quadrangulate' :=
  (quadrangulate fzero fadd distance absHalfDiff fltb max_size pastTheEnd this).

(** The loop of lines 319-362 appends to the point buffer and to the cache,
    three coordinates for each entry, and at most one entry for each
    bound. *)
Lemma forEach_addMiddle_appends (bounds : list (Z * Z))
      (st st' : MiddleState) :
  forEach bounds addMiddle' st = Some st' ->
  exists extra new,
    fst st' = fst st ++ extra
    /\ snd st' = snd st ++ new
    /\ length extra = (3 * length new)%nat
    /\ (length new <= length bounds)%nat.
Proof.
  revert st. induction bounds as [|ab bounds IH]; intros st H.
  - injection H as <-. exists [], []. cbn [length]. rewrite !app_nil_r.
    repeat split. lia.
  - cbn [forEach] in H.
    destruct (addMiddle' ab st) as [st1|] eqn:E1; [|discriminate].
    destruct (IH st1 H) as [extra [new [H1 [H2 [H3 H4]]]]].
    rewrite H1, H2. unfold addMiddle in E1.
    destruct (findMiddle ab (snd st)) as [id|] eqn:Ef.
    + injection E1 as <-. exists extra, new. cbn [length].
      repeat split; try assumption. lia.
    + destruct (max_size <? _); [discriminate|].
      destruct (samplePoint this _) as [[x y] z]. injection E1 as <-.
      cbn [fst snd]. unfold insertMiddle. rewrite Ef.
      exists ([x; y; z] ++ extra),
        ([(ab, middleOf' (fst ab) (snd ab))] ++ new).
      rewrite <- !app_assoc. repeat split.
      * rewrite !length_app. cbn [length]. lia.
      * rewrite length_app. cbn [length]. lia.
Qed.

(** X13. A call of [findSeparatrixMiddle] that returns keeps what the point
    buffer and the cache hold and appends to both: three coordinates to the
    buffer for each entry that the cache gains, and no more entries than the
    position list has. *)
Theorem findSeparatrixMiddle_appends (src dst : Z) (pos : list (Z * Z))
        (st st' : MiddleState) :
  findSeparatrixMiddle' src dst pos st = Some st' ->
  exists extra new,
    fst st' = fst st ++ extra
    /\ snd st' = snd st ++ new
    /\ length extra = (3 * length new)%nat
    /\ (length new <= length pos)%nat.
Proof.
  unfold findSeparatrixMiddle. intros H.
  destruct (forEach_addMiddle_appends _ st st' H)
    as [extra [new [E1 [E2 [E3 E4]]]]].
  exists extra, new. repeat split; try assumption.
  pose proof (scanPositions_length pastTheEnd this src dst pos). lia.
Qed.

Lemma minFrom_bound (l : list F) (i : nat) (best : F) (besti : nat) :
  (besti < i)%nat -> (minFrom fltb l i best besti < i + length l)%nat.
Proof.
  revert i best besti. induction l as [|x l IH]; intros i best besti H;
    cbn [minFrom length]; [lia|].
  destruct (fltb x best).
  - specialize (IH (S i) x i). lia.
  - specialize (IH (S i) best besti). lia.
Qed.

Lemma min_element_bound (l : list F) :
  l <> [] -> (min_element fltb l < length l)%nat.
Proof.
  destruct l as [|x l]; [congruence|]. intros _. unfold min_element.
  pose proof (minFrom_bound l 1 x 0). cbn [length]. lia.
Qed.

Lemma integrate_length (a : Z) (turns : nat) (i : Z) (dist : F)
      (curr : F * F * F) :
  length (integrate fadd distance this a turns i dist curr) = turns.
Proof.
  revert i dist curr. induction turns as [|turns IH]; intros i dist curr;
    cbn [integrate length]; [reflexivity|].
  now rewrite IH.
Qed.

(** X14. For bounds [a <= b] that fit [size_t], the middle that is computed
    for the separatrix is the index of one of its samples: it lies between
    the two bounds. *)
Theorem middleOf_between (a b : Z) :
  0 <= a <= b -> b < 2 ^ 64 ->
  a <= middleOf fzero fadd distance absHalfDiff fltb this a b <= b.
Proof.
  intros Hab Hb. unfold middleOf.
  assert (Hw : wrap64 (b - a + 1) <= b - a + 1).
  { unfold wrap64. apply Z.mod_le; lia. }
  assert (Hw0 : 0 <= wrap64 (b - a + 1)).
  { unfold wrap64. apply Z.mod_pos_bound. lia. }
  destruct (Z.to_nat (wrap64 (b - a + 1))) as [|turns] eqn:E.
  - cbn [map min_element]. unfold wrap64. rewrite Z.add_0_r, Z.mod_small; lia.
  - set (distFromA := fzero :: integrate fadd distance this a turns 1 fzero
                                         (samplePoint this a)).
    pose proof (min_element_bound
                  (map (fun el => absHalfDiff el (last distFromA fzero))
                       distFromA)) as Hmin.
    rewrite length_map in Hmin.
    assert (Hlen : length distFromA = S turns).
    { unfold distFromA. cbn [length]. now rewrite integrate_length. }
    rewrite Hlen in Hmin.
    specialize (Hmin ltac:(unfold distFromA; discriminate)).
    assert (Hsmall : forall z, 0 <= z < 2 ^ 64 -> wrap64 z = z).
    { intros z Hz. now apply Z.mod_small. }
    rewrite Hsmall; lia.
Qed.

End MiddleInvariants.

Lemma findSeparatrixMiddle_appends_witness :
  let positions := sepFlatEdgesPos Examples.arc in
  Examples.middle (0, 0) Examples.arc 1 0 positions ([], [])
  = Some ([2; 0; 0], [((0, 4), 2)])
  /\ exists (extra : list Z) (new : Middles),
       [2; 0; 0] = [] ++ extra
       /\ [((0, 4), 2)] = [] ++ new
       /\ length extra = (3 * length new)%nat
       /\ (length new <= length positions)%nat.
Proof.
  assert (H : Examples.middle (0, 0) Examples.arc 1 0
                (sepFlatEdgesPos Examples.arc) ([], [])
              = Some ([2; 0; 0], [((0, 4), 2)])).
  { vm_compute. reflexivity. }
  split; [exact H|].
  exact (findSeparatrixMiddle_appends 0 Z.add Examples.zdistance
           Examples.zabsHalfDiff Z.ltb Examples.floats (0, 0) Examples.arc
           1 0 _ _ _ H).
Defined.

Lemma middleOf_between_witness :
  0 <= 0 <= 4 /\ 4 < 2 ^ 64
  /\ 0 <= middleOf 0 Z.add Examples.zdistance Examples.zabsHalfDiff Z.ltb
                   Examples.arc 0 4 <= 4.
Proof.
  assert (H1 : 0 <= 0 <= 4) by lia.
  assert (H2 : 4 < 2 ^ 64) by lia.
  split; [exact H1|]. split; [exact H2|].
  exact (middleOf_between 0 Z.add Examples.zdistance Examples.zabsHalfDiff
           Z.ltb Examples.arc 0 4 H1 H2).
Defined.

(** * Further properties of the two buffers and of the main routine *)

(** The index loop of lines 401-404 and the pairing by twos agree. *)
Lemma pairUp_nth (n : nat) (l : list Z) :
  (length l <= n)%nat ->
  length (pairUp l) = (length l / 2)%nat
  /\ forall i, (i < length l / 2)%nat ->
               nth_error (pairUp l) i
               = Some (nth (2 * i) l 0, nth (2 * i + 1) l 0).
Proof.
  revert l. induction n as [|n IH]; intros l Hl.
  - destruct l; [|simpl in Hl; lia]. split; [reflexivity|].
    intros i Hi. simpl in Hi. lia.
  - destruct l as [|a [|b l]].
    + split; [reflexivity|]. intros i Hi. simpl in Hi. lia.
    + split; [reflexivity|]. intros i Hi. simpl in Hi. lia.
    + assert (Hdiv : (length (a :: b :: l) / 2 = S (length l / 2))%nat).
      { change (length (a :: b :: l)) with (2 + length l)%nat.
        change (2 + length l)%nat with (1 * 2 + length l)%nat.
        rewrite Nat.div_add_l by lia. reflexivity. }
      destruct (IH l) as [IH1 IH2]; [simpl in Hl; lia|].
      rewrite Hdiv. cbn [pairUp length]. split; [now rewrite IH1|].
      intros [|i] Hi; [reflexivity|].
      replace (2 * S i)%nat with (S (S (2 * i))) by lia.
      replace (S (S (2 * i)) + 1)%nat with (S (S (2 * i + 1))) by lia.
      cbn [nth_error nth]. apply IH2. lia.
Qed.

(** X15. The edges that [execute] hands to the builders: there are half as
    many as kept samples, and the edge of index [i] holds the kept samples
    of indices [2 i] and [2 i + 1]. *)
Theorem pairUp_entries (l : list Z) :
  length (pairUp l) = (length l / 2)%nat
  /\ forall i, (i < length l / 2)%nat ->
               nth_error (pairUp l) i
               = Some (nth (2 * i) l 0, nth (2 * i + 1) l 0).
Proof. apply (pairUp_nth (length l)). lia. Qed.

Section BuildInvariants.

Context {F : Type}.
Variables (fzero : F) (fadd : F -> F -> F)
          (distance : F * F * F -> F * F * F -> F)
          (absHalfDiff : F -> F -> F) (fltb : F -> F -> bool)
          (max_size : Z) (strayRead : nat -> Z * Z).
Variable this : SurfaceQuadrangulation F.

Local Abbreviation quadrangulate' :=
  (quadrangulate fzero fadd distance absHalfDiff fltb max_size strayRead this).
Local Abbreviation execute' :=
  (execute fzero fadd distance absHalfDiff fltb max_size strayRead this).

Lemma findSeparatrixMiddle_triples (pts : list F) (stray : Z * Z)
      (src dst : Z) (pos : list (Z * Z)) (st st' : MiddleState) :
  triples pts st ->
  findSeparatrixMiddle fzero fadd distance absHalfDiff fltb max_size stray
                       this src dst pos st = Some st' ->
  triples pts st'.
Proof.
  intros [extra [E1 E2]] H. unfold findSeparatrixMiddle in H.
  destruct (forEach_addMiddle_appends fzero fadd distance absHalfDiff fltb
              max_size this _ st st' H)
    as [extra' [new [H1 [H2 [H3 _]]]]].
  exists (extra ++ extra'). rewrite H1, H2, E1, <- app_assoc.
  split; [reflexivity|]. rewrite !length_app. lia.
Qed.

(** The point buffer after a run of the direct builder that returns. *)
Lemma quadrangulate_points (sepEdges : list (Z * Z)) (b b' : Buffers) :
  quadrangulate' sepEdges b = Some b' ->
  exists extra : list F,
    pointsOf b' = pointsOf b ++ extra /\ (length extra mod 3 = 0)%nat.
Proof.
  unfold quadrangulate.
  destruct (mapSeparatrices this sepEdges) as [[dests counts]|];
    [|discriminate].
  rewrite emitQuads_view. cbn [fst snd].
  destruct (pointQuadNumber this _) as [quadNumber|]; [|discriminate].
  destruct (badQuads _ _) as [bad|]; [|discriminate].
  destruct (forEach (numbered bad) _ _) as [[points cache]|] eqn:Ef;
    [|discriminate].
  intros E. injection E as <-. cbn [cellsOf pointsOf].
  assert (H : triples (pointsOf b) (points, cache)).
  { refine (forEach_invariant (triples (pointsOf b)) _ _ _ _ _ _ Ef).
    - intros [n q] st st' _ Hst Hq. unfold subdivide, middleCall in Hq.
      destruct (at_ _ (5 * q + 1)) as [i|]; [|discriminate].
      destruct (at_ _ (5 * q + 2)) as [j|]; [|discriminate].
      destruct (at_ _ (5 * q + 3)) as [k|]; [|discriminate].
      destruct (at_ _ (5 * q + 4)) as [l|]; [|discriminate].
      destruct (findSeparatrixMiddle _ _ _ _ _ _ (strayRead (4 * n)) _ _ _ _ _)
        as [st1|] eqn:E1; [|discriminate].
      destruct (findSeparatrixMiddle _ _ _ _ _ _ (strayRead (4 * n + 1))
                                     _ _ _ _ _)
        as [st2|] eqn:E2; [|discriminate].
      destruct (findSeparatrixMiddle _ _ _ _ _ _ (strayRead (4 * n + 2))
                                     _ _ _ _ _)
        as [st3|] eqn:E3; [|discriminate].
      apply (findSeparatrixMiddle_triples _ _ _ _ _ _ _ Hst) in E1.
      apply (findSeparatrixMiddle_triples _ _ _ _ _ _ _ E1) in E2.
      apply (findSeparatrixMiddle_triples _ _ _ _ _ _ _ E2) in E3.
      apply (findSeparatrixMiddle_triples _ _ _ _ _ _ _ E3 Hq).
    - exists []. cbn [fst snd length]. now rewrite app_nil_r. }
  destruct H as [extra [E1 E2]]. cbn [fst snd] in E1, E2.
  exists extra. split; [assumption|].
  rewrite E2, Nat.mul_comm. apply Nat.Div0.mod_mul.
Qed.

(** X16. A run of the direct builder that returns has only appended to the
    two buffers: whole quads to the cell buffer, and three coordinates at a
    time to the point buffer. *)
Theorem quadrangulate_appends (sepEdges : list (Z * Z)) (b b' : Buffers) :
  quadrangulate' sepEdges b = Some b' ->
  exists (qs : list Quad) (extra : list F),
    cellsOf b' = cellsOf b ++ flat_map quadCells qs
    /\ pointsOf b' = pointsOf b ++ extra
    /\ (length extra mod 3 = 0)%nat.
Proof.
  intros H. destruct (quadrangulate_points _ _ _ H) as [extra [E1 E2]].
  apply quadrangulate_emits in H.
  destruct H as [dests [counts [_ [Hcells _]]]].
  exists (allQuads this (indexed dests)), extra. now repeat split.
Qed.

Lemma dualCells_total (m : list (Z * list Z)) :
  length (flat_map (dualCells this) m)
  = (5 * length (quadsIn (flat_map (dualCells this) m)))%nat.
Proof.
  destruct (dualCells_groups this m) as [-> _].
  induction m as [|[s ext] m IH]; [reflexivity|].
  cbn [flat_map filter]. rewrite length_app, IH, dualCells_length.
  replace (fourFold (s, ext)) with (length ext =? 4)%nat by reflexivity.
  destruct (length ext =? 4)%nat; cbn [length]; lia.
Qed.

(** X17. What a run of [execute] that returns leaves. Either the status is
    [-1], the mask keeps an odd number of samples, the two buffers are empty
    and no count is reported; or the status is [0], the mask keeps an even
    number of samples, the cell buffer is made of whole groups of five
    entries, their number is the reported number of quads, the point buffer
    holds a multiple of three coordinates, and in dual mode it is empty and
    no degenerate quad is reported. *)
Theorem execute_outcome (o : Outcome) :
  execute' = Some o ->
  (status o = -1
   /\ Z.of_nat (length (sepFlatEdges this)) mod 2 <> 0
   /\ outputCells_ o = [] /\ outputPoints_ o = [] /\ summary o = None)
  \/ (status o = 0
      /\ Z.of_nat (length (sepFlatEdges this)) mod 2 = 0
      /\ length (outputCells_ o)
         = (5 * length (quadsIn (outputCells_ o)))%nat
      /\ (length (outputPoints_ o) mod 3 = 0)%nat
      /\ exists ndegen,
           summary o
           = Some (Z.of_nat (length (quadsIn (outputCells_ o))), ndegen,
                   nseg this)
           /\ (dualQuadrangulation_ this = true ->
               outputPoints_ o = [] /\ ndegen = 0)).
Proof.
  unfold execute.
  destruct (Z.eqb_spec (Z.of_nat (length (sepFlatEdges this)) mod 2) 0)
    as [Heven|Hodd]; cbn [negb].
  2:{ intros E. injection E as <-. left. cbn. tauto. }
  destruct (dualQuadrangulation_ this) eqn:Hd.
  - intros E. injection E as <-. right.
    cbn [status outputCells_ outputPoints_ summary cellsOf pointsOf ndegenOf].
    unfold dualQuadrangulate. rewrite fold_app_flat_map. cbn [app].
    pose proof (dualCells_total (sourceDests this
                                   (pairUp (sepFlatEdges this)))) as Hlen.
    split; [reflexivity|]. split; [assumption|]. split; [assumption|].
    split; [reflexivity|]. exists 0. split; [|now split].
    assert (Hq : (length (flat_map (dualCells this)
                            (sourceDests this (pairUp (sepFlatEdges this))))
                  / 5)%nat
                 = length (quadsIn
                             (flat_map (dualCells this)
                                (sourceDests this
                                   (pairUp (sepFlatEdges this)))))).
    { rewrite Hlen at 1. rewrite Nat.mul_comm, Nat.div_mul by lia.
      reflexivity. }
    rewrite <- Hq. reflexivity.
  - destruct (quadrangulate' _ _) as [b|] eqn:Hq; [|discriminate].
    intros E. injection E as <-. right.
    cbn [status outputCells_ outputPoints_ summary].
    destruct (quadrangulate_points _ _ _ Hq) as [extra [E1 E2]].
    apply quadrangulate_emits in Hq.
    destruct Hq as [dests [counts [_ [Hcells _]]]].
    cbn [cellsOf pointsOf app] in Hcells, E1. rewrite Hcells, E1.
    pose proof (cells_groups (allQuads this (indexed dests))) as Hgroups.
    rewrite quadsIn_cells, length_map.
    split; [reflexivity|]. split; [assumption|].
    split; [apply cells_length|].
    split; [assumption|]. exists (ndegenOf b). split; [|discriminate].
    rewrite <- Hgroups. reflexivity.
Qed.

End BuildInvariants.

Lemma quadrangulate_appends_witness :
  Examples.build (Examples.square false)
    (pairUp (sepFlatEdges (Examples.square false))) Examples.cleared
  = Some {| cellsOf := [4; 0; 1; 2; 3];
            pointsOf := [0; 0; 0; 0; 0; 0; 0; 0; 0; 0; 0; 0];
            ndegenOf := 0 |}
  /\ exists (qs : list Quad) (extra : list Z),
       [4; 0; 1; 2; 3] = [] ++ flat_map quadCells qs
       /\ [0; 0; 0; 0; 0; 0; 0; 0; 0; 0; 0; 0] = [] ++ extra
       /\ (length extra mod 3 = 0)%nat.
Proof.
  assert (H : Examples.build (Examples.square false)
                (pairUp (sepFlatEdges (Examples.square false)))
                Examples.cleared
              = Some {| cellsOf := [4; 0; 1; 2; 3];
                        pointsOf := [0; 0; 0; 0; 0; 0; 0; 0; 0; 0; 0; 0];
                        ndegenOf := 0 |}).
  { vm_compute. reflexivity. }
  split; [exact H|].
  exact (quadrangulate_appends 0 Z.add Examples.zdistance
           Examples.zabsHalfDiff Z.ltb Examples.floats
                  Examples.zeros (Examples.square false)
           _ _ _ H).
Defined.

Lemma execute_outcome_witness :
  let this := Examples.square false in
  let o := {| status := 0; outputCells_ := [4; 0; 1; 2; 3];
              outputPoints_ := [0; 0; 0; 0; 0; 0; 0; 0; 0; 0; 0; 0];
              summary := Some (1, 0, 1) |} in
  Examples.run this = Some o
  /\ ((status o = -1
       /\ Z.of_nat (length (sepFlatEdges this)) mod 2 <> 0
       /\ outputCells_ o = [] /\ outputPoints_ o = [] /\ summary o = None)
      \/ (status o = 0
          /\ Z.of_nat (length (sepFlatEdges this)) mod 2 = 0
          /\ length (outputCells_ o)
             = (5 * length (quadsIn (outputCells_ o)))%nat
          /\ (length (outputPoints_ o) mod 3 = 0)%nat
          /\ exists ndegen,
               summary o
               = Some (Z.of_nat (length (quadsIn (outputCells_ o))), ndegen,
                       nseg this)
               /\ (dualQuadrangulation_ this = true ->
                   outputPoints_ o = [] /\ ndegen = 0))).
Proof.
  assert (H : Examples.run (Examples.square false)
              = Some {| status := 0; outputCells_ := [4; 0; 1; 2; 3];
                        outputPoints_ := [0; 0; 0; 0; 0; 0; 0; 0; 0; 0; 0; 0];
                        summary := Some (1, 0, 1) |}).
  { vm_compute. reflexivity. }
  split; [exact H|].
  exact (execute_outcome 0 Z.add Examples.zdistance Examples.zabsHalfDiff
           Z.ltb Examples.floats Examples.zeros (Examples.square false) _ H).
Defined.

(** * Properties of the setters of ttkCellDataSelector *)

Section SelectorProperties.

Variable getNumberOfCores : Z.

(** X18. The two thread setters can be called in either order: the filter
    ends with the same members, and the thread number in use is the number
    of cores when all cores are asked for, the number given otherwise. After
    the constructor, which asks for no more than the number given, a call of
    [SetThreadNumber] alone puts that number in use. *)
Theorem thread_setters_commute (n : Z) (b : bool) (s : ttkCellDataSelector) :
  SetUseAllCores getNumberOfCores b (SetThreadNumber getNumberOfCores n s)
  = SetThreadNumber getNumberOfCores n (SetUseAllCores getNumberOfCores b s)
  /\ threadNumber_
       (SetUseAllCores getNumberOfCores b
          (SetThreadNumber getNumberOfCores n s))
     = (if b then getNumberOfCores else n)
  /\ threadNumber_ (SetThreadNumber getNumberOfCores n (construct s)) = n.
Proof.
  unfold SetUseAllCores, SetThreadNumber, SetThreads, construct.
  destruct b; repeat split.
Qed.

Lemma selectAll_fields (names : list String.string)
      (s : ttkCellDataSelector) :
  ScalarFields (selectAll names s) = ScalarFields s ++ names
  /\ modified (selectAll names s) = (length names + modified s)%nat
  /\ threadNumber_ (selectAll names s) = threadNumber_ s.
Proof.
  unfold selectAll. revert s.
  induction names as [|name names IH]; intros s; cbn [fold_left length].
  - rewrite app_nil_r. repeat split.
  - destruct (IH (SetScalarFields name s)) as [-> [-> ->]].
    cbn [SetScalarFields ScalarFields modified threadNumber_].
    rewrite <- app_assoc. repeat split. lia.
Qed.

(** X19. After [ClearScalarFields], the calls of [SetScalarFields] leave
    the names they were given, in the order of the calls, whatever the
    filter held before; each of the calls marks the filter as modified once,
    and none of them changes the thread number in use. *)
Theorem selected_fields_after_clear (names : list String.string)
        (s : ttkCellDataSelector) :
  ScalarFields (selectAll names (ClearScalarFields s)) = names
  /\ modified (selectAll names (ClearScalarFields s))
     = S (length names + modified s)
  /\ threadNumber_ (selectAll names (ClearScalarFields s)) = threadNumber_ s.
Proof.
  destruct (selectAll_fields names (ClearScalarFields s)) as [-> [-> ->]].
  cbn [ClearScalarFields ScalarFields modified threadNumber_ app].
  repeat split. lia.
Qed.

End SelectorProperties.

Lemma hasCommonManifold_shared_label_witness :
  hasCommonManifold Examples.torus [1; 3] = true
  /\ exists x, forall a,
       In a [1; 3] ->
       exists u, Linked Examples.torus
                        (criticalPointsIdentifier_ Examples.torus a) u
                 /\ segmentation_ Examples.torus u = x.
Proof.
  assert (H : hasCommonManifold Examples.torus [1; 3] = true).
  { vm_compute. reflexivity. }
  split; [exact H|].
  exact (hasCommonManifold_shared_label Examples.torus [1; 3] H).
Defined.

(** * When the main routine returns *)

Section Returns.

Context {F : Type}.
Variables (fzero : F) (fadd : F -> F -> F)
          (distance : F * F * F -> F * F * F -> F)
          (absHalfDiff : F -> F -> F) (fltb : F -> F -> bool)
          (max_size : Z) (strayRead : nat -> Z * Z).
Variable this : SurfaceQuadrangulation F.

Local Abbreviation quadrangulate' :=
  (quadrangulate fzero fadd distance absHalfDiff fltb max_size strayRead this).

(** The samples are no more than a vector of floats can hold. *)
Hypothesis samples_fit : separatriceNumber_ this <= max_size.

(** No read past the end of the position list yields the cell of a
    critical point. *)
Hypothesis strays_miss :
  forall call i, 0 <= i < criticalPointsNumber_ this ->
                 fst (strayRead call) <> criticalPointsCellIds_ this i.

Lemma findSeparatrixMiddle_returns (call : nat) (src dst : Z)
      (st : MiddleState) :
  0 <= dst < criticalPointsNumber_ this ->
  exists st',
    middleCall fzero fadd distance absHalfDiff fltb max_size this
               (strayRead call) src dst (sepFlatEdgesPos this) st
    = Some st'.
Proof.
  intros Hdst. unfold middleCall, findSeparatrixMiddle.
  destruct (forEach_returns (fun _ : MiddleState => True)
              (fst (scanPositions (strayRead call) this src dst
                                  (sepFlatEdgesPos this)))
              (addMiddle fzero fadd distance absHalfDiff fltb max_size this)
              st) as [st' [E _]]; [|exact I|now exists st'].
  intros [a b] st1 Hin _.
  apply scanPositions_regular in Hin.
  destruct Hin as [[Hab Hb]|Hstray];
    [|now contradiction (strays_miss call dst Hdst)].
  unfold addMiddle. destruct (findMiddle (a, b) (snd st1));
    [now eexists|].
  cbn [fst snd].
  assert (Hw : wrap64 (b - a + 1) <= b - a + 1).
  { unfold wrap64. apply Z.mod_le; lia. }
  destruct (Z.ltb_spec max_size (wrap64 (b - a + 1))) as [Hlt|_]; [lia|].
  destruct (samplePoint this _) as [[x y] z]. now eexists.
Qed.

Lemma subdivide_returns (qs : list Quad) (n q : nat) (st : MiddleState) :
  (forall quad, In quad qs -> validQuad this quad) ->
  (q < length qs)%nat ->
  exists st',
    subdivide fzero fadd distance absHalfDiff fltb max_size strayRead this
              (flat_map quadCells qs) (n, q) st
    = Some st'.
Proof.
  intros Hvalid Hq. unfold subdivide, at_.
  destruct (nth_error qs q) as [[[[i j] k] l]|] eqn:E;
    [|apply nth_error_None in E; lia].
  pose proof (Hvalid _ (nth_error_In _ _ E)) as Hv. unfold validQuad in Hv.
  inversion Hv as [|? ? Vi Hv1]; subst.
  inversion Hv1 as [|? ? _ Hv2]; subst.
  inversion Hv2 as [|? ? Vk _]; subst.
  rewrite (nth_error_cells qs q 1 _ ltac:(lia) E),
    (nth_error_cells qs q 2 _ ltac:(lia) E),
    (nth_error_cells qs q 3 _ ltac:(lia) E),
    (nth_error_cells qs q 4 _ ltac:(lia) E).
  cbn [quadCells nth_error].
  destruct (findSeparatrixMiddle_returns (4 * n) j i st Vi) as [st1 ->].
  destruct (findSeparatrixMiddle_returns (4 * n + 1) j k st1 Vk) as [st2 ->].
  destruct (findSeparatrixMiddle_returns (4 * n + 2) l i st2 Vi) as [st3 ->].
  apply (findSeparatrixMiddle_returns (4 * n + 3) l k st3 Vk).
Qed.

(** With no more critical points than edges, [quadrangulate] returns. *)
Lemma quadrangulate_returns (sepEdges : list (Z * Z)) (pts : list F) :
  0 <= criticalPointsNumber_ this <= Z.of_nat (length sepEdges) ->
  exists b,
    quadrangulate' sepEdges {| cellsOf := []; pointsOf := pts; ndegenOf := 0 |}
    = Some b.
Proof.
  intros HN. unfold quadrangulate.
  destruct (mapSeparatrices_returns this sepEdges HN) as [[dests counts] [E _]].
  rewrite E, emitQuads_view. cbn [fst snd cellsOf ndegenOf pointsOf app].
  pose proof (mapSeparatrices_invariant this _ _ E) as Hinv.
  pose proof (allQuads_valid this sepEdges (dests, counts) Hinv) as Hvalid.
  cbn [fst] in Hvalid.
  destruct (pointQuadNumber_returns this (allQuads this (indexed dests))
              Hvalid) as [quadNumber ->].
  destruct (badQuads_returns
              (flat_map quadCells (allQuads this (indexed dests)))
              (badPoints this quadNumber counts))
    as [bad [-> Hbad]].
  rewrite cells_groups in Hbad.
  destruct (forEach_returns (fun _ : MiddleState => True) (numbered bad)
              (subdivide fzero fadd distance absHalfDiff fltb max_size
                         strayRead this
                         (flat_map quadCells (allQuads this (indexed dests))))
              (pts, [])) as [[points cache] [-> _]]; [|exact I|now eexists].
  intros [n q] st Hin _. unfold numbered in Hin. apply in_combine_r in Hin.
  rewrite Forall_forall in Hbad.
  destruct (subdivide_returns _ n q st Hvalid (Hbad q Hin)) as [st' ->].
  now exists st'.
Qed.

End Returns.

Section ExecuteInvariants.

Context {F : Type}.
Variables (fzero : F) (fadd : F -> F -> F)
          (distance : F * F * F -> F * F * F -> F)
          (absHalfDiff : F -> F -> F) (fltb : F -> F -> bool)
          (max_size : Z) (strayRead : nat -> Z * Z).
Variable this : SurfaceQuadrangulation F.

Local Abbreviation execute' :=
  (execute fzero fadd distance absHalfDiff fltb max_size strayRead this).

(** X21. In direct mode, on an even number of kept samples: [execute]
    returns, with the status [0], when the critical points are no more than
    the edges, the samples are no more than a vector of floats can hold and
    no read past the end of the position list yields the cell of a critical
    point; and it does not return when an edge runs from the cell of a
    critical point to the cell of a critical point whose index is not below
    the number of edges. *)
Theorem execute_direct_returns_or_not :
  dualQuadrangulation_ this = false ->
  Z.of_nat (length (sepFlatEdges this)) mod 2 = 0 ->
  (0 <= criticalPointsNumber_ this
        <= Z.of_nat (length (pairUp (sepFlatEdges this))) ->
   separatriceNumber_ this <= max_size ->
   (forall call i, 0 <= i < criticalPointsNumber_ this ->
                   fst (strayRead call) <> criticalPointsCellIds_ this i) ->
   exists o, execute' = Some o /\ status o = 0)
  /\ (forall p i j,
        In p (pairUp (sepFlatEdges this)) -> joins this p (i, j) ->
        Z.of_nat (length (pairUp (sepFlatEdges this))) <= j ->
        execute' = None).
Proof.
  intros Hd Heven. unfold execute.
  rewrite Hd, Heven. cbn [Z.eqb negb]. split.
  - intros HN Hfit Hmiss.
    destruct (quadrangulate_returns fzero fadd distance absHalfDiff fltb
                max_size strayRead this Hfit Hmiss _ [] HN) as [b ->].
    eexists. split; reflexivity.
  - intros p i j Hp Hj Hlate. unfold quadrangulate.
    now rewrite (mapSeparatrices_fails this _ p i j Hp Hj Hlate).
Qed.

End ExecuteInvariants.

Lemma execute_direct_returns_or_not_witness :
  (dualQuadrangulation_ (Examples.square false) = false
   /\ Z.of_nat (length (sepFlatEdges (Examples.square false))) mod 2 = 0
   /\ exists o, Examples.run (Examples.square false) = Some o
                /\ status o = 0)
  /\ (dualQuadrangulation_ Examples.lateEnd = false
      /\ Z.of_nat (length (sepFlatEdges Examples.lateEnd)) mod 2 = 0
      /\ In (10, 11) (pairUp (sepFlatEdges Examples.lateEnd))
      /\ joins Examples.lateEnd (10, 11) (0, 1)
      /\ Examples.run Examples.lateEnd = None).
Proof.
  split.
  - assert (Hd : dualQuadrangulation_ (Examples.square false) = false)
      by reflexivity.
    assert (Heven : Z.of_nat (length (sepFlatEdges (Examples.square false)))
                    mod 2 = 0)
      by reflexivity.
    split; [exact Hd|]. split; [exact Heven|].
    refine (proj1 (execute_direct_returns_or_not 0 Z.add Examples.zdistance
                     Examples.zabsHalfDiff Z.ltb Examples.floats
                     Examples.zeros (Examples.square false) Hd Heven)
                  _ _ _).
    + vm_compute. split; discriminate.
    + vm_compute. discriminate.
    + intros call i Hi. cbn [criticalPointsNumber_ Examples.square] in Hi.
      assert (Hcases : i = 0 \/ i = 1 \/ i = 2 \/ i = 3) by lia.
      destruct Hcases as [-> | [-> | [-> | ->]]]; vm_compute; discriminate.
  - assert (Hd : dualQuadrangulation_ Examples.lateEnd = false)
      by reflexivity.
    assert (Heven : Z.of_nat (length (sepFlatEdges Examples.lateEnd)) mod 2
                    = 0)
      by reflexivity.
    assert (Hin : In (10, 11) (pairUp (sepFlatEdges Examples.lateEnd)))
      by (left; reflexivity).
    assert (Hj : joins Examples.lateEnd (10, 11) (0, 1)).
    { unfold joins. simpl. repeat split; lia. }
    repeat (split; [assumption|]).
    refine (proj2 (execute_direct_returns_or_not 0 Z.add Examples.zdistance
                     Examples.zabsHalfDiff Z.ltb Examples.floats
                     Examples.zeros Examples.lateEnd
                     Hd Heven) (10, 11) 0 1 Hin Hj _).
    simpl. lia.
Defined.
